(** * HomeWorld2D: the combat and fleet simulation core

    A shallow embedding of the gameplay core of the game:
    [spacegame/models/units/resource_collector.py],
    [spacegame/models/units/space_station.py],
    [spacegame/core/projectile.py], [spacegame/core/utils.py] and the
    per-frame body of [run_game] in [spacegame/screens/game_screen.py];
    further the asteroids ([spacegame/models/asteroids]), the spawning of
    asteroids, stations and enemy waves, the particles of
    [spacegame/core/effects.py] and the hangar interface ([hangar_ui.py]).

    Numbers.  The program computes with Python floats and pygame's
    [Vector2].  They are read here as real numbers ([R]): [Vector2.length]
    ([vlength]) is a square root, [normalize] a division by it, and every
    comparison of the source is the comparison of the reals.  Rounding errors of the
    machine arithmetic are outside this model.

    Objects.  Mutable objects become records that are passed and returned;
    an object that is shared (a unit of a fleet, the mothership of a
    collector) is carried by position in its list, or named by its [uid]. *)

From Stdlib Require Import Reals Lra Lia ZArith List Bool String Permutation.
From Stdlib Require Import R_Ifp R_sqrt.
Import ListNotations.

Local Open Scope R_scope.

(** ** Comparisons of floats, as booleans *)

Definition Rleb (x y : R) : bool := if Rle_dec x y then true else false.
Definition Rltb (x y : R) : bool := if Rlt_dec x y then true else false.
Definition Reqb (x y : R) : bool := if Req_dec_T x y then true else false.

(** Decides the comparisons that occur in a goal, by linear arithmetic. *)
Ltac rcase :=
  repeat match goal with
    | |- context [Rle_dec ?a ?b] => destruct (Rle_dec a b); try lra
    | |- context [Rlt_dec ?a ?b] => destruct (Rlt_dec a b); try lra
    | |- context [Req_dec_T ?a ?b] => destruct (Req_dec_T a b); try lra
    end.

Ltac rbool := unfold Rleb, Rltb, Reqb, Rmin, Rmax in *; rcase.

(** ** [round], as Python 3 computes it on a float: to the nearest integer,
    a tie going to the even neighbour.  [int(round(x))] is this integer. *)

Definition py_round (x : R) : Z :=
  let f := Int_part x in
  let d := x - IZR f in
  if Rlt_dec d (1 / 2) then f
  else if Rlt_dec (1 / 2) d then (f + 1)%Z
  else if Z.even f then f else (f + 1)%Z.

(** ** Vectors ([pygame.math.Vector2]) *)

Record Vector2 : Type := V2 { vx : R; vy : R }.

Definition vadd (a b : Vector2) : Vector2 := V2 (vx a + vx b) (vy a + vy b).
Definition vsub (a b : Vector2) : Vector2 := V2 (vx a - vx b) (vy a - vy b).
Definition vscale (a : Vector2) (k : R) : Vector2 := V2 (vx a * k) (vy a * k).
Definition vdiv (a : Vector2) (k : R) : Vector2 := V2 (vx a / k) (vy a / k).
Definition length_squared (a : Vector2) : R := vx a * vx a + vy a * vy a.
Definition vlength (a : Vector2) : R := sqrt (length_squared a).
Definition normalize (a : Vector2) : Vector2 := vdiv a (vlength a).
Definition vzero : Vector2 := V2 0 0.

(** ** Exceptions

    A call that may raise returns an [outcome]; [Raised e] is an exception
    of class [Exception] with message [e].  A [try: ... except Exception:]
    is a [match] on the outcome. *)

Inductive outcome (A : Type) : Type :=
| Normal (a : A)
| Raised (e : string).
Arguments Normal {A} a.
Arguments Raised {A} e.

Definition bind {A B : Type} (c : outcome A) (k : A -> outcome B) : outcome B :=
  match c with
  | Normal a => k a
  | Raised e => Raised e
  end.

Notation "x <- c ;; k" := (bind c (fun x => k))
  (at level 61, c at next level, right associativity).
Notation "' p <- c ;; k" := (bind c (fun x => let p := x in k))
  (at level 61, p pattern, c at next level, right associativity).

(** ** Constants of [spacegame/config.py] and class constants of
    [SpaceUnit].  The file is missing; its values are parameters of
    the model. *)

Class Config : Type := {
  PROJECTILE_SPEED : R;
  PROJECTILE_RADIUS : Z;
  PROJECTILE_LIFETIME : R;
  PROJECTILE_DEFAULT_HULL : R;
  PROJECTILE_DEFAULT_ARMOR : R;
  COLLISION_DPS : R;
  SEPARATION_ITER : nat;
  STATION_HEALING_RATE : R;
  SELECTION_MIN_PIXELS : Z
}.

(** ** Units ([spacegame/models/units]) *)

Module FleetUnit.

Inductive UnitClass : Type :=
| ExpeditionShip | Frigate | Interceptor | PlasmaBomber
| ResourceCollector | PirateFrigate | SpaceStation.

(** The attributes of a [SpaceUnit] that the core reads and writes.  [uid]
    stands for the identity of the Python object; [pos], [mover_target] and
    [formation_offset] are the state of its [Mover]. *)
Record SpaceUnit : Type := mkUnit {
  uid : nat;
  cls : UnitClass;
  pos : Vector2;
  mover_target : Vector2;
  formation_offset : Vector2;
  health : R;
  max_health : R;
  armor : R;
  max_armor : R;
  bullet_damage : R;
  armor_damage : R;
  fire_range : R;
  cooldown_timer : R;
  fire_cooldown : R;
  selected : bool;
  recalling : bool
}.

Definition with_pos (u : SpaceUnit) (p : Vector2) : SpaceUnit :=
  mkUnit (uid u) (cls u) p (mover_target u) (formation_offset u)
    (health u) (max_health u) (armor u) (max_armor u) (bullet_damage u)
    (armor_damage u) (fire_range u) (cooldown_timer u) (fire_cooldown u)
    (selected u) (recalling u).

(** [mover.set_target(p)] *)
Definition set_target (u : SpaceUnit) (p : Vector2) : SpaceUnit :=
  mkUnit (uid u) (cls u) (pos u) p (formation_offset u)
    (health u) (max_health u) (armor u) (max_armor u) (bullet_damage u)
    (armor_damage u) (fire_range u) (cooldown_timer u) (fire_cooldown u)
    (selected u) (recalling u).

Definition with_formation_offset (u : SpaceUnit) (p : Vector2) : SpaceUnit :=
  mkUnit (uid u) (cls u) (pos u) (mover_target u) p
    (health u) (max_health u) (armor u) (max_armor u) (bullet_damage u)
    (armor_damage u) (fire_range u) (cooldown_timer u) (fire_cooldown u)
    (selected u) (recalling u).

Definition with_health (u : SpaceUnit) (h : R) : SpaceUnit :=
  mkUnit (uid u) (cls u) (pos u) (mover_target u) (formation_offset u)
    h (max_health u) (armor u) (max_armor u) (bullet_damage u)
    (armor_damage u) (fire_range u) (cooldown_timer u) (fire_cooldown u)
    (selected u) (recalling u).

Definition with_armor (u : SpaceUnit) (a : R) : SpaceUnit :=
  mkUnit (uid u) (cls u) (pos u) (mover_target u) (formation_offset u)
    (health u) (max_health u) a (max_armor u) (bullet_damage u)
    (armor_damage u) (fire_range u) (cooldown_timer u) (fire_cooldown u)
    (selected u) (recalling u).

Definition with_cooldown (u : SpaceUnit) (t : R) : SpaceUnit :=
  mkUnit (uid u) (cls u) (pos u) (mover_target u) (formation_offset u)
    (health u) (max_health u) (armor u) (max_armor u) (bullet_damage u)
    (armor_damage u) (fire_range u) t (fire_cooldown u)
    (selected u) (recalling u).

Definition with_selected (u : SpaceUnit) (b : bool) : SpaceUnit :=
  mkUnit (uid u) (cls u) (pos u) (mover_target u) (formation_offset u)
    (health u) (max_health u) (armor u) (max_armor u) (bullet_damage u)
    (armor_damage u) (fire_range u) (cooldown_timer u) (fire_cooldown u)
    b (recalling u).

(** Modelled from the spec: [SpaceUnit.take_damage] of [fleet_unit.py],
    which is missing.  "subtracts from health, floored at 0". *)
Definition take_damage (u : SpaceUnit) (amount : R) : SpaceUnit :=
  with_health u (Rmax 0 (health u - amount)).

(** Modelled from the spec: [SpaceUnit.take_armor_damage] of [fleet_unit.py].
    "subtracts from armor, floored at 0; excess is NOT carried over to
    health in the same call". *)
Definition take_armor_damage (u : SpaceUnit) (amount : R) : SpaceUnit :=
  with_armor u (Rmax 0 (armor u - amount)).

(** Modelled from the spec: [SpaceUnit.heal] of [fleet_unit.py].  The spec
    gives it by the invariant "health and armor never exceed their max":
    the amount is added and the sum capped at [max_health]. *)
Definition heal (u : SpaceUnit) (amount : R) : SpaceUnit :=
  with_health u (Rmin (max_health u) (health u + amount)).

(** Modelled from the spec: [SpaceUnit.set_armor] of [fleet_unit.py], by the
    same invariant: the value is floored at 0 and then capped at [max_armor]. *)
Definition set_armor (u : SpaceUnit) (value : R) : SpaceUnit :=
  with_armor u (Rmin (max_armor u) (Rmax 0 value)).

(** Modelled from the spec: [SpaceUnit.is_target_in_range] of
    [fleet_unit.py].  "true iff Euclidean distance <= fireRange". *)
Definition is_target_in_range (u other : SpaceUnit) : bool :=
  Rleb (vlength (vsub (pos other) (pos u))) (fire_range u).

(** Modelled from the spec: [SpaceUnit.ready_to_fire].  "true iff cooldown
    timer <= 0". *)
Definition ready_to_fire (u : SpaceUnit) : bool := Rleb (cooldown_timer u) 0.

(** Modelled from the spec: [SpaceUnit.reset_cooldown].  "sets cooldown
    timer to the unit's fire period". *)
Definition reset_cooldown (u : SpaceUnit) : SpaceUnit :=
  with_cooldown u (fire_cooldown u).

(** Modelled from the spec: [SpaceUnit.update_cooldown].  "decrements
    cooldown timer, floored at 0". *)
Definition update_cooldown (u : SpaceUnit) (dt : R) : SpaceUnit :=
  with_cooldown u (Rmax 0 (cooldown_timer u - dt)).

End FleetUnit.
Import FleetUnit.

(** ** Asteroids ([spacegame/models/asteroids/asteroid.py]) *)

Module Asteroids.

Record Asteroid : Type := mkAsteroid {
  a_pos : Vector2;
  tier : Z;
  ore_type : string;
  purity : R;
  radius : Z
}.

Definition point_inside (a : Asteroid) (point : Vector2) : bool :=
  Rleb (length_squared (vsub point (a_pos a))) (IZR (radius a * radius a)).

(** [MineableAsteroidA(pos, tier, purity)] *)
Definition MineableAsteroidA (p : Vector2) (t : Z) (pur : R) : Asteroid :=
  mkAsteroid p t "A" pur 34.

End Asteroids.
Import Asteroids.

(** ** The mothership, as a collector sees it

    The code of [ExpeditionShip] is missing.  A collector reads the
    position of its mothership and calls [add_resource] on it, when the
    object has such a method. *)

Module Mothership.

Record Mothership : Type := mkMothership {
  ms_pos : Vector2;
  has_add_resource : bool;
  ore_inventory : string -> Z
}.

(** Modelled from the spec: [ExpeditionShip.add_resource], which is
    missing.  "credit it to the mothership's ore inventory for
    that ore type". *)
Definition add_resource (ms : Mothership) (ore : string) (amount : Z) : Mothership :=
  mkMothership (ms_pos ms) (has_add_resource ms)
    (fun o => if String.eqb o ore then (ore_inventory ms o + amount)%Z
              else ore_inventory ms o).

Definition with_ms_pos (ms : Mothership) (p : Vector2) : Mothership :=
  mkMothership p (has_add_resource ms) (ore_inventory ms).

End Mothership.
Import Mothership.



(** ** [spacegame/models/units/resource_collector.py] *)

Module Collector.

Definition HEAL_RATE : R := 15.
Definition HEAL_RANGE : R := 60.
Definition MINE_RATE : R := 10.
Definition MINE_RANGE : R := 60.
Definition UNLOAD_RATE : R := 75.

(** A [ResourceCollector] is a [SpaceUnit] ([base]) with the healing and the
    mining state.  [healing_target] names the ship being healed by its
    [uid]; the asteroid is not changed by mining, so [mining_target] holds
    it by value. *)
Record ResourceCollector : Type := mkCollector {
  base : SpaceUnit;
  healing_target : option nat;
  mining_target : option Asteroid;
  mining_fill : R;
  mining_capacity : R;
  returning_to_ship : bool
}.

Definition with_base (c : ResourceCollector) (u : SpaceUnit) : ResourceCollector :=
  mkCollector u (healing_target c) (mining_target c) (mining_fill c)
    (mining_capacity c) (returning_to_ship c).

Definition with_healing_target (c : ResourceCollector) (t : option nat) : ResourceCollector :=
  mkCollector (base c) t (mining_target c) (mining_fill c)
    (mining_capacity c) (returning_to_ship c).

Definition with_mining_target (c : ResourceCollector) (a : option Asteroid) : ResourceCollector :=
  mkCollector (base c) (healing_target c) a (mining_fill c)
    (mining_capacity c) (returning_to_ship c).

Definition with_mining_fill (c : ResourceCollector) (f : R) : ResourceCollector :=
  mkCollector (base c) (healing_target c) (mining_target c) f
    (mining_capacity c) (returning_to_ship c).

Definition with_returning (c : ResourceCollector) (b : bool) : ResourceCollector :=
  mkCollector (base c) (healing_target c) (mining_target c) (mining_fill c)
    (mining_capacity c) b.

(** [self.mover.set_target(p)] *)
Definition steer (c : ResourceCollector) (p : Vector2) : ResourceCollector :=
  with_base c (set_target (base c) p).

(** [__init__], after [super().__init__] has built the unit [u]. *)
Definition init (u : SpaceUnit) : ResourceCollector :=
  let u := mkUnit (uid u) FleetUnit.ResourceCollector (pos u) (mover_target u)
             (formation_offset u) (health u) (max_health u) 50 50 0
             (armor_damage u) HEAL_RANGE (cooldown_timer u) (fire_cooldown u)
             (selected u) false in
  mkCollector u None None 0 150 false.

Definition cancel_healing (c : ResourceCollector) : ResourceCollector :=
  with_healing_target c None.

Definition cancel_mining (c : ResourceCollector) : ResourceCollector :=
  with_returning (with_mining_target c None) false.

Definition start_healing (c : ResourceCollector) (target : SpaceUnit) : ResourceCollector :=
  let c := cancel_mining c in
  let c := with_healing_target c (Some (uid target)) in
  steer c (pos target).

Definition is_healing (c : ResourceCollector) : bool :=
  match healing_target c with Some _ => true | None => false end.

Definition _apply_healing (target : SpaceUnit) (dt : R) : SpaceUnit :=
  let heal_amount := HEAL_RATE * dt in
  let '(target, heal_amount) :=
    if Rltb 0 (max_armor target) then
      let armor_deficit := max_armor target - armor target in
      if Rltb 0 armor_deficit then
        let armor_heal := Rmin heal_amount armor_deficit in
        (with_armor target (armor target + armor_heal), heal_amount - armor_heal)
      else (target, heal_amount)
    else (target, heal_amount) in
  if Rltb 0 heal_amount then
    let health_deficit := max_health target - health target in
    if Rltb 0 health_deficit then
      let health_heal := Rmin heal_amount health_deficit in
      with_health target (health target + health_heal)
    else target
  else target.

(** [update_healing]; [target] is the object that [self.healing_target]
    refers to, as it is when the method runs.  The result is the collector
    and that object. *)
Definition update_healing (c : ResourceCollector) (target : option SpaceUnit) (dt : R)
  : ResourceCollector * option SpaceUnit :=
  match healing_target c, target with
  | Some _, Some t =>
      if Rleb (health t) 0 then (cancel_healing c, Some t)
      else
        let dist := vlength (vsub (pos t) (pos (base c))) in
        if Rleb dist HEAL_RANGE then
          let c := steer c (pos (base c)) in
          (c, Some (_apply_healing t dt))
        else (steer c (pos t), Some t)
  | _, _ => (c, target)
  end.

Definition start_mining (c : ResourceCollector) (asteroid : Asteroid) : ResourceCollector :=
  let c := cancel_healing c in
  let c := with_mining_target c (Some asteroid) in
  let c := with_returning c false in
  steer c (a_pos asteroid).

Definition is_mining (c : ResourceCollector) : bool :=
  match mining_target c with Some _ => true | None => false end
  || Rltb 0 (mining_fill c).

Definition stop_and_dump (c : ResourceCollector) : ResourceCollector :=
  with_returning (with_mining_fill (with_mining_target c None) 0) false.

(** [update_mining]; [mothership] is [getattr(self, "mothership", None)],
    the object as it is when the method runs, and is returned with the
    collector. *)
Definition update_mining (c : ResourceCollector) (mothership : option Mothership) (dt : R)
  : ResourceCollector * option Mothership :=
  (* Active mining at asteroid *)
  let c :=
    match mining_target c with
    | Some asteroid =>
        if negb (returning_to_ship c) then
          let dist := vlength (vsub (a_pos asteroid) (pos (base c))) in
          if Rleb dist MINE_RANGE then
            let c := steer c (pos (base c)) in
            let c := with_mining_fill c
                       (Rmin (mining_capacity c) (mining_fill c + MINE_RATE * dt)) in
            if Rleb (mining_capacity c) (mining_fill c) then
              let c := with_mining_fill c (mining_capacity c) in
              let c := with_returning c true in
              match mothership with
              | Some ms => steer c (ms_pos ms)
              | None => c
              end
            else c
          else steer c (a_pos asteroid)
        else c
    | None => c
    end in
  (* Returning to mothership to unload *)
  match mothership with
  | Some ms =>
      if returning_to_ship c then
        let c := steer c (ms_pos ms) in
        let dist_ms := vlength (vsub (ms_pos ms) (pos (base c))) in
        if Rleb dist_ms 60 then
          let c := with_mining_fill c (Rmax 0 (mining_fill c - UNLOAD_RATE * dt)) in
          if Rleb (mining_fill c) 0 then
            let ms :=
              match mining_target c with
              | Some asteroid =>
                  let amount := py_round (mining_capacity c * purity asteroid) in
                  if has_add_resource ms
                  then add_resource ms (ore_type asteroid) amount
                  else ms
              | None => ms
              end in
            let c := with_mining_fill c 0 in
            let c := with_returning c false in
            let c :=
              match mining_target c with
              | Some asteroid => steer c (a_pos asteroid)
              | None => c
              end in
            (c, Some ms)
          else (c, Some ms)
        else (c, Some ms)
      else (c, Some ms)
  | None => (c, None)
  end.


(** One frame of a collector that mines: the [Mover] (missing) has put the
    collector at [at_pos] and the mothership at [ms_at] when
    [update_mining(dt)] runs. *)
Record mining_frame : Type := mkFrame {
  f_dt : R;
  at_pos : Vector2;
  ms_at : Vector2
}.

Definition mining_step (st : ResourceCollector * Mothership) (f : mining_frame)
  : ResourceCollector * Mothership :=
  let '(c, ms) := st in
  let c := with_base c (with_pos (base c) (at_pos f)) in
  let ms := with_ms_pos ms (ms_at f) in
  match update_mining c (Some ms) (f_dt f) with
  | (c', Some ms') => (c', ms')
  | (c', None) => (c', ms)
  end.

Definition mining_run (st : ResourceCollector * Mothership) (fs : list mining_frame)
  : ResourceCollector * Mothership :=
  fold_left mining_step fs st.


End Collector.

(** ** [spacegame/models/units/space_station.py]: the methods that
    [SpaceStation] overrides do nothing. *)

Module Station.

Definition take_damage (u : SpaceUnit) (amount : R) : SpaceUnit := u.
Definition take_armor_damage (u : SpaceUnit) (amount : R) : SpaceUnit := u.
Definition heal (u : SpaceUnit) (amount : R) : SpaceUnit := u.

(** [__init__], after [super().__init__] has built the unit [u]. *)
Definition init (u : SpaceUnit) : SpaceUnit :=
  mkUnit (uid u) SpaceStation (pos u) (mover_target u) (formation_offset u)
    999999 999999 999999 999999 0 0 (fire_range u) (cooldown_timer u)
    (fire_cooldown u) (selected u) (recalling u).

End Station.

(** ** The ships of a fleet

    A fleet is a Python list of units of several classes.  A
    [ResourceCollector] carries its own state next to the [SpaceUnit]
    part; the other classes are told apart by [cls]. *)

Module Fleet.

Inductive Ship : Type :=
| Craft (u : SpaceUnit)
| CollectorShip (c : Collector.ResourceCollector).

Definition hull (s : Ship) : SpaceUnit :=
  match s with
  | Craft u => u
  | CollectorShip c => Collector.base c
  end.

Definition map_hull (f : SpaceUnit -> SpaceUnit) (s : Ship) : Ship :=
  match s with
  | Craft u => Craft (f u)
  | CollectorShip c => CollectorShip (Collector.with_base c (f (Collector.base c)))
  end.

Definition class_of (s : Ship) : UnitClass :=
  match s with
  | Craft u => cls u
  | CollectorShip _ => ResourceCollector
  end.

(** [isinstance(s, (Interceptor, ResourceCollector, PlasmaBomber))] *)
Definition is_light (s : Ship) : bool :=
  match class_of s with
  | Interceptor | ResourceCollector | PlasmaBomber => true
  | _ => false
  end.

Definition is_collector (s : Ship) : bool :=
  match s with CollectorShip _ => true | Craft _ => false end.

(** The method that Python finds on the class of the object. *)
Definition take_damage (s : Ship) (amount : R) : Ship :=
  match class_of s with
  | SpaceStation => map_hull (fun u => Station.take_damage u amount) s
  | _ => map_hull (fun u => FleetUnit.take_damage u amount) s
  end.

Definition take_armor_damage (s : Ship) (amount : R) : Ship :=
  match class_of s with
  | SpaceStation => map_hull (fun u => Station.take_armor_damage u amount) s
  | _ => map_hull (fun u => FleetUnit.take_armor_damage u amount) s
  end.

Definition heal (s : Ship) (amount : R) : Ship :=
  match class_of s with
  | SpaceStation => map_hull (fun u => Station.heal u amount) s
  | _ => map_hull (fun u => FleetUnit.heal u amount) s
  end.

Definition set_armor (s : Ship) (value : R) : Ship :=
  map_hull (fun u => FleetUnit.set_armor u value) s.

End Fleet.
Import Fleet.

(** A call of a method that changes its object in place.  [Returns s] is
    a call that returns, the object being [s] then.  [Raises s e] is a call
    that raises [e], the object being [s] then: what the method had changed
    before it raised stays changed. *)
Inductive call : Type :=
| Returns (s : Ship)
| Raises (s : Ship) (e : string).

(** The object after the call. *)
Definition unit_after (c : call) : Ship :=
  match c with
  | Returns s => s
  | Raises s _ => s
  end.

(** How the call ended. *)
Definition ending (c : call) : outcome unit :=
  match c with
  | Returns _ => Normal tt
  | Raises _ e => Raised e
  end.

(** The call in code that has no handler around it: the object after it,
    or the exception, which leaves the code. *)
Definition completed (c : call) : outcome Ship :=
  match c with
  | Returns s => Normal s
  | Raises _ e => Raised e
  end.

(** The damage methods as the resolving code calls them: a call on an
    object, which runs whatever its class defines and may raise. *)
Class Methods : Type := {
  call_take_damage : Ship -> R -> call;
  call_take_armor_damage : Ship -> R -> call
}.

(** The classes of the repository: their methods return. *)
Definition repo_methods : Methods := {|
  call_take_damage := fun s amount => Returns (Fleet.take_damage s amount);
  call_take_armor_damage := fun s amount => Returns (Fleet.take_armor_damage s amount)
|}.

(** ** [spacegame/core/projectile.py] *)

Module Proj.

Record Projectile : Type := mkProjectile {
  pos : Vector2;
  direction : Vector2;
  speed : R;
  radius : Z;
  hull_damage : R;
  armor_damage : R;
  lifetime : R;
  owner_is_enemy : bool
}.

(** [Projectile(pos, direction, *, speed, radius, hull_damage, armor_damage,
    lifetime, owner_is_enemy)]; an argument left out is [None].  The colour
    and the sprite image are not modelled. *)
Definition init `{Config} (pos direction : Vector2)
    (speed : option R) (radius : option Z) (hull_damage armor_damage : option R)
    (lifetime : option R) (owner_is_enemy : bool) : Projectile :=
  let direction :=
    if Reqb (length_squared direction) 0 then V2 1 0
    else normalize direction in
  let speed := match speed with None => PROJECTILE_SPEED | Some s => s end in
  let radius := match radius with None => PROJECTILE_RADIUS | Some r => r end in
  let hull_damage :=
    match hull_damage with None => PROJECTILE_DEFAULT_HULL | Some d => d end in
  let armor_damage :=
    match armor_damage with None => PROJECTILE_DEFAULT_ARMOR | Some d => d end in
  let lifetime := match lifetime with None => PROJECTILE_LIFETIME | Some l => l end in
  mkProjectile pos direction speed radius hull_damage armor_damage lifetime
    owner_is_enemy.

(** [update(dt)]: the projectile after the call, and whether it killed
    itself (left its groups). *)
Definition update (p : Projectile) (dt : R) : Projectile * bool :=
  let pos := vadd (pos p) (vscale (vscale (direction p) (speed p)) dt) in
  let lifetime := lifetime p - dt in
  (mkProjectile pos (direction p) (speed p) (radius p) (hull_damage p)
     (armor_damage p) lifetime (owner_is_enemy p),
   Rleb lifetime 0).

(** The projectile after the calls [update(dt)] for the frame times [dts]. *)
Fixpoint updates (p : Projectile) (dts : list R) : Projectile :=
  match dts with
  | [] => p
  | dt :: dts' => updates (fst (update p dt)) dts'
  end.

(** [projectile_group.update(dt)]: every sprite of the group is updated and
    those that killed themselves are no longer in the group. *)
Fixpoint group_update (group : list Projectile) (dt : R) : list Projectile :=
  match group with
  | [] => []
  | p :: rest =>
      let '(p', killed) := update p dt in
      if killed then group_update rest dt else p' :: group_update rest dt
  end.

End Proj.

(** ** Geometry and steering

    [SpaceUnit.collides_with], [SpaceUnit.point_inside], [Mover.update] and
    [Mover.separate_rotated] are missing, and
    [Projectile.collides_with_shape] reads the rotated sprite mask of the
    unit, which [SpaceUnit.get_rotated_sprite] (missing)
    supplies.  They are parameters.  The two [Mover] methods move units
    only: they give the new positions. *)
Class Engine : Type := {
  collides_with_shape : Proj.Projectile -> SpaceUnit -> bool;
  collides_with : SpaceUnit -> SpaceUnit -> bool;
  point_inside : SpaceUnit -> Vector2 -> bool;
  mover_update : SpaceUnit -> R -> Vector2;
  separate_rotated : SpaceUnit -> SpaceUnit -> Vector2 * Vector2
}.

(** ** [spacegame/core/utils.py] *)

Module Utils.

Section WithCollaborators.
Context {cfg : Config} {methods : Methods} {engine : Engine}.

(** [min(l, key=key)] on a list that starts with [x]: the first element with
    the least key. *)
Fixpoint min_by {A : Type} (key : A -> R) (x : A) (l : list A) : A :=
  match l with
  | [] => x
  | y :: l' => min_by key (if Rltb (key y) (key x) then y else x) l'
  end.

(** [min(fleet, key=lambda e: (e.pos - s.pos).length_squared())], [None]
    standing for the [ValueError] on an empty fleet (no caller passes one). *)
Definition nearest (s : SpaceUnit) (fleet : list Ship) : option Ship :=
  match fleet with
  | [] => None
  | x :: l =>
      Some (min_by (fun e => length_squared (vsub (pos (hull e)) (pos s))) x l)
  end.

(** The body of the loop of [handle_auto_fire] for the source [s]: the
    source after it, and the projectile it has added to the group. *)
Definition auto_fire_one (s : Ship) (target_fleet : list Ship)
    (owner_is_enemy : bool) (speed_factor : R) : Ship * option Proj.Projectile :=
  if Rleb (bullet_damage (hull s)) 0 then (s, None)
  else
    match nearest (hull s) target_fleet with
    | None => (s, None)
    | Some nearest =>
        if is_target_in_range (hull s) (hull nearest) && ready_to_fire (hull s) then
          let dirv := vsub (pos (hull nearest)) (pos (hull s)) in
          let speed :=
            if Reqb speed_factor 1 then None
            else Some (PROJECTILE_SPEED * speed_factor) in
          let proj :=
            Proj.init (pos (hull s)) dirv speed None
              (Some (bullet_damage (hull s))) (Some (armor_damage (hull s)))
              None owner_is_enemy in
          (map_hull reset_cooldown s, Some proj)
        else (s, None)
    end.

Fixpoint auto_fire_loop (source_fleet target_fleet : list Ship)
    (projectile_group : list Proj.Projectile)
    (owner_is_enemy : bool) (speed_factor : R)
  : list Ship * list Proj.Projectile :=
  match source_fleet with
  | [] => ([], projectile_group)
  | s :: rest =>
      let '(s', fired) := auto_fire_one s target_fleet owner_is_enemy speed_factor in
      let projectile_group :=
        match fired with
        | Some proj => projectile_group ++ [proj]
        | None => projectile_group
        end in
      let '(rest', projectile_group) :=
        auto_fire_loop rest target_fleet projectile_group owner_is_enemy speed_factor in
      (s' :: rest', projectile_group)
  end.

(** [handle_auto_fire]: the source fleet (cooldowns reset) and the group. *)
Definition handle_auto_fire (source_fleet target_fleet : list Ship)
    (projectile_group : list Proj.Projectile)
    (owner_is_enemy : bool) (speed_factor : R)
  : list Ship * list Proj.Projectile :=
  match target_fleet with
  | [] => (source_fleet, projectile_group)
  | _ :: _ =>
      auto_fire_loop source_fleet target_fleet projectile_group owner_is_enemy
        speed_factor
  end.

(** [getattr(p, 'max_armor', 0) > 0 and getattr(p, 'armor', 0) > 0] *)
Definition armored (u : SpaceUnit) : bool :=
  Rltb 0 (max_armor u) && Rltb 0 (armor u).

(** The [if]/[else] that every site of damage repeats: the armour payload to
    [take_armor_damage], or else the hull payload to [take_damage]. *)
Definition route_damage (s : Ship) (armor_amount hull_amount : R) : call :=
  if armored (hull s) then call_take_armor_damage s armor_amount
  else call_take_damage s hull_amount.

(** [for p in fleet: if proj.collides_with_shape(p): ...; proj.explode();
    break]: the fleet as the loop leaves it, its first unit under the
    projectile being as the damage method left it, and how the loop ended:
    [Normal true] after a hit, the projectile exploded ([proj.explode()] has
    its own handlers and does not raise); [Normal false] when the projectile
    touches no unit; [Raised e] when the damage method raised. *)
Fixpoint hit_first (proj : Proj.Projectile) (fleet : list Ship)
  : list Ship * outcome bool :=
  match fleet with
  | [] => ([], Normal false)
  | p :: rest =>
      if collides_with_shape proj (hull p) then
        match route_damage p (Proj.armor_damage proj) (Proj.hull_damage proj) with
        | Returns p' => (p' :: rest, Normal true)
        | Raises p' e => (p' :: rest, Raised e)
        end
      else
        let '(rest', r) := hit_first proj rest in
        (p :: rest', r)
  end.

(** State of the loop over the projectiles: those still in the group, and
    the two fleets. *)
Definition resolution : Type := (list Proj.Projectile * list Ship * list Ship)%type.

(** The body of the outer [try] for one projectile: the two fleets as it
    leaves them, and whether the projectile has exploded. *)
Definition resolve_body (proj : Proj.Projectile) (fleets : list Ship * list Ship)
  : (list Ship * list Ship) * outcome bool :=
  let '(player_fleet, enemy_fleet) := fleets in
  if Proj.owner_is_enemy proj then
    let '(player_fleet, r) := hit_first proj player_fleet in
    ((player_fleet, enemy_fleet), r)
  else
    let '(enemy_fleet, r) := hit_first proj enemy_fleet in
    ((player_fleet, enemy_fleet), r).

(** [try: body except Exception: handler], on objects that are changed in
    place: the handler starts from the objects as the body left them when
    it raised. *)
Definition try_except {S A : Type} (body : S * outcome A) (handler : S -> S * outcome A)
  : S * outcome A :=
  match body with
  | (st, Normal a) => (st, Normal a)
  | (st, Raised _) => handler st
  end.

(** [for x in l: body], the state threaded through, an exception ending
    the loop. *)
Fixpoint for_each {A S : Type} (l : list A) (body : A -> S -> outcome S) (st : S)
  : outcome S :=
  match l with
  | [] => Normal st
  | x :: l' => st' <- body x st ;; for_each l' body st'
  end.

(** One turn of the loop of [handle_projectile_collisions]: the body under
    the outer [try], whose handler explodes the projectile.  A projectile
    that has exploded leaves the group. *)
Definition resolve_projectile (proj : Proj.Projectile) (st : resolution)
  : outcome resolution :=
  let '(group, player_fleet, enemy_fleet) := st in
  let '((player_fleet, enemy_fleet), r) :=
    try_except (resolve_body proj (player_fleet, enemy_fleet))
      (fun fleets => (fleets, Normal true)) in
  exploded <- r ;;
  Normal (if exploded : bool then group else group ++ [proj],
          player_fleet, enemy_fleet).

(** [handle_projectile_collisions]: the group and the fleets after it. *)
Definition handle_projectile_collisions (projectile_group : list Proj.Projectile)
    (player_fleet enemy_fleet : list Ship) : outcome resolution :=
  for_each projectile_group resolve_projectile ([], player_fleet, enemy_fleet).

End WithCollaborators.

End Utils.

(** ** [spacegame/screens/game_screen.py] *)

Module GameScreen.

Section WithCollaborators.
Context {cfg : Config} {methods : Methods} {engine : Engine}.

(** *** [handle_collisions] *)

(** [for b in bs: body(a, b)], the objects changed in place. *)
Fixpoint pair_row (body : Ship -> Ship -> outcome (Ship * Ship)) (a : Ship)
    (bs : list Ship) : outcome (Ship * list Ship) :=
  match bs with
  | [] => Normal (a, [])
  | b :: bs' =>
      '(a1, b1) <- body a b ;;
      '(a2, bs2) <- pair_row body a1 bs' ;;
      Normal (a2, b1 :: bs2)
  end.

(** [for a in fleet_a: for b in fleet_b: body(a, b)] *)
Fixpoint pair_cross (body : Ship -> Ship -> outcome (Ship * Ship))
    (fleet_a fleet_b : list Ship) : outcome (list Ship * list Ship) :=
  match fleet_a with
  | [] => Normal ([], fleet_b)
  | a :: rest =>
      '(a1, fleet_b1) <- pair_row body a fleet_b ;;
      '(rest2, fleet_b2) <- pair_cross body rest fleet_b1 ;;
      Normal (a1 :: rest2, fleet_b2)
  end.

(** [for i, a in enumerate(fleet): for b in fleet[i + 1:]: body(a, b)], for
    a fleet of at most [n] ships. *)
Fixpoint pair_within_upto (n : nat) (body : Ship -> Ship -> outcome (Ship * Ship))
    (fleet : list Ship) : outcome (list Ship) :=
  match n, fleet with
  | S n', a :: rest =>
      '(a1, rest1) <- pair_row body a rest ;;
      rest2 <- pair_within_upto n' body rest1 ;;
      Normal (a1 :: rest2)
  | _, _ => Normal fleet
  end.

Definition pair_within (body : Ship -> Ship -> outcome (Ship * Ship))
    (fleet : list Ship) : outcome (list Ship) :=
  pair_within_upto (List.length fleet) body fleet.

(** [Mover.separate_rotated(a, b)] *)
Definition separate (a b : Ship) : outcome (Ship * Ship) :=
  let '(pa, pb) := separate_rotated (hull a) (hull b) in
  Normal (map_hull (fun u => with_pos u pa) a, map_hull (fun u => with_pos u pb) b).

(** Player-player separation: light crafts push each other, larger ships
    push each other. *)
Definition separate_same_size (a b : Ship) : outcome (Ship * Ship) :=
  if is_light a && is_light b then separate a b
  else if negb (is_light a) && negb (is_light b) then separate a b
  else Normal (a, b).

Definition separation_pass (fleets : list Ship * list Ship)
  : outcome (list Ship * list Ship) :=
  let '(player_fleet, enemy_fleet) := fleets in
  player_fleet <- pair_within separate_same_size player_fleet ;;
  enemy_fleet <- pair_within separate enemy_fleet ;;
  pair_cross separate player_fleet enemy_fleet.

Fixpoint repeat_pass (n : nat) (fleets : list Ship * list Ship)
  : outcome (list Ship * list Ship) :=
  match n with
  | O => Normal fleets
  | S n' => fleets' <- separation_pass fleets ;; repeat_pass n' fleets'
  end.

(** The body of the damage loop for the pair [(p, e)]. *)
Definition collision_damage_pair (dt : R) (p e : Ship) : outcome (Ship * Ship) :=
  if collides_with (hull p) (hull e) then
    let dmg := COLLISION_DPS * dt in
    p' <- completed (Utils.route_damage p dmg dmg) ;;
    e' <- completed (Utils.route_damage e dmg dmg) ;;
    Normal (p', e')
  else Normal (p, e).

Definition handle_collisions (player_fleet enemy_fleet : list Ship) (dt : R)
  : outcome (list Ship * list Ship) :=
  fleets <- repeat_pass SEPARATION_ITER (player_fleet, enemy_fleet) ;;
  pair_cross (collision_damage_pair dt) (fst fleets) (snd fleets).

(** *** Healing of the player fleet at a station (in [run_game]) *)

Definition station_heal_ship (dt : R) (ship : Ship) : Ship :=
  let healing_rate := STATION_HEALING_RATE in
  let ship :=
    if Rltb (health (hull ship)) (max_health (hull ship))
    then Fleet.heal ship (healing_rate * dt) else ship in
  if Rltb (armor (hull ship)) (max_armor (hull ship))
  then Fleet.set_armor ship (armor (hull ship) + healing_rate * dt) else ship.

Definition station_heal (dt : R) (player_fleet : list Ship) : list Ship :=
  map (station_heal_ship dt) player_fleet.

(** *** One frame of [run_game]

    The combat phases of the loop body, in the order of the source:
    cooldowns, movement, enemy steering, auto-fire, projectiles, projectile
    hits, report of the dead light crafts, pruning, end of the game,
    residual collisions.  Left out: the phases that run collaborators which
    are missing (fabrication, inventory notifications, docking
    of recalled crafts in the hangar, random enemy waves, sprites, sounds)
    and the per-collector updates: [Collector] models the methods on their
    own and [update_collectors] the loop that calls them. *)

(** [hangar]: [None] when [main_player] has no inventory manager or hangar;
    otherwise the crafts reported to [on_interceptor_dead], by [uid]. *)
Record World : Type := mkWorld {
  player_fleet : list Ship;
  enemy_fleet : list Ship;
  projectile_group : list Proj.Projectile;
  main_player : nat;
  hangar : option (list nat)
}.

Inductive frame_result : Type :=
| Running (w : World)
| Returned (r : string).

Definition update_cooldowns (w : World) (dt : R) : World :=
  let tick := map (map_hull (fun u => update_cooldown u dt)) in
  mkWorld (tick (player_fleet w)) (tick (enemy_fleet w)) (projectile_group w)
    (main_player w) (hangar w).

(** [s.mover.update(dt)] *)
Definition move (dt : R) (s : Ship) : Ship :=
  map_hull (fun u => with_pos u (mover_update u dt)) s.

Definition move_players (w : World) (dt : R) : World :=
  mkWorld (map (move dt) (player_fleet w)) (enemy_fleet w) (projectile_group w)
    (main_player w) (hangar w).

(** Enemies: approach to within range, then hold. *)
Definition steer_enemy (player_fleet : list Ship) (dt : R) (e : Ship) : Ship :=
  let e :=
    match Utils.nearest (hull e) player_fleet with
    | Some closest =>
        let dist := vlength (vsub (pos (hull closest)) (pos (hull e))) in
        if Rltb (fire_range (hull e) * (95 / 100)) dist
        then map_hull (fun u => set_target u (pos (hull closest))) e
        else map_hull (fun u => set_target u (pos u)) e
    | None => e
    end in
  move dt e.

Definition steer_enemies (w : World) (dt : R) : World :=
  mkWorld (player_fleet w) (map (steer_enemy (player_fleet w) dt) (enemy_fleet w))
    (projectile_group w) (main_player w) (hangar w).

Definition auto_fire (w : World) : World :=
  let '(player_fleet, group) :=
    Utils.handle_auto_fire (player_fleet w) (enemy_fleet w) (projectile_group w)
      false 1 in
  let '(enemy_fleet, group) :=
    Utils.handle_auto_fire (enemy_fleet w) player_fleet group true (9 / 10) in
  mkWorld player_fleet enemy_fleet group (main_player w) (hangar w).

Definition advance_projectiles (w : World) (dt : R) : World :=
  mkWorld (player_fleet w) (enemy_fleet w)
    (Proj.group_update (projectile_group w) dt) (main_player w) (hangar w).

Definition resolve_hits (w : World) : outcome World :=
  '(group, player_fleet, enemy_fleet) <-
    Utils.handle_projectile_collisions (projectile_group w) (player_fleet w)
      (enemy_fleet w) ;;
  Normal (mkWorld player_fleet enemy_fleet group (main_player w) (hangar w)).

(** The world when the pruning phase starts. *)
Definition simulate (w : World) (dt : R) : outcome World :=
  let w := update_cooldowns w dt in
  let w := move_players w dt in
  let w := steer_enemies w dt in
  let w := auto_fire w in
  let w := advance_projectiles w dt in
  resolve_hits w.

(** [for craft in dead_crafts: ... inv.hangar.on_interceptor_dead(craft)],
    with the [RuntimeError] that the loop raises when there is no hangar. *)
Fixpoint for_each_craft (dead_crafts : list Ship) (hangar : option (list nat))
  : outcome (option (list nat)) :=
  match dead_crafts with
  | [] => Normal hangar
  | craft :: rest =>
      match hangar with
      | None =>
          Raised "Hangar/InventoryManager not available on main_player; migration required"
      | Some reported => for_each_craft rest (Some (reported ++ [uid (hull craft)]))
      end
  end.

Definition is_dead (s : Ship) : bool := Rleb (health (hull s)) 0.
Definition is_alive (s : Ship) : bool := Rltb 0 (health (hull s)).

(** Update hangar state for any light crafts that died this frame. *)
Definition report_dead_crafts (w : World) : outcome World :=
  let dead_crafts := filter (fun s => is_light s && is_dead s) (player_fleet w) in
  hangar' <-
    for_each_craft dead_crafts (hangar w) ;;
  Normal (mkWorld (player_fleet w) (enemy_fleet w) (projectile_group w)
            (main_player w) hangar').

Definition prune (w : World) : World :=
  mkWorld (filter is_alive (player_fleet w)) (filter is_alive (enemy_fleet w))
    (projectile_group w) (main_player w) (hangar w).

(** [main_player.health <= 0], on the object that the fleet holds. *)
Definition main_player_dead (w : World) : bool :=
  existsb (fun s => Nat.eqb (uid (hull s)) (main_player w) && is_dead s)
    (player_fleet w).

Definition residual_collisions (w : World) (dt : R) : outcome World :=
  '(player_fleet, enemy_fleet) <-
    handle_collisions (player_fleet w) (enemy_fleet w) dt ;;
  Normal (mkWorld player_fleet enemy_fleet (projectile_group w) (main_player w)
            (hangar w)).


Definition frame (w : World) (dt : R) : outcome frame_result :=
  w1 <- simulate w dt ;;
  w2 <- report_dead_crafts w1 ;;
  let w3 := prune w2 in
  if main_player_dead w2 then Normal (Returned "end")
  else
    w4 <- residual_collisions w3 dt ;;
    Normal (Running w4).

(** *** Mouse events of [run_game]: selection and the group move *)

(** [pygame.Rect], with integer coordinates. *)
Record Rect : Type := mkRect {
  rx : Z;
  ry : Z;
  width : Z;
  height : Z
}.

(** [Rect.normalize()]: a negative size is flipped. *)
Definition rect_normalize (r : Rect) : Rect :=
  let '(x, w) := if (width r <? 0)%Z then ((rx r + width r)%Z, (- width r)%Z)
                 else (rx r, width r) in
  let '(y, h) := if (height r <? 0)%Z then ((ry r + height r)%Z, (- height r)%Z)
                 else (ry r, height r) in
  mkRect x y w h.

(** [Rect.collidepoint(p)]: a point of the right or of the bottom edge is
    not inside. *)
Definition collidepoint (r : Rect) (p : Vector2) : bool :=
  Rleb (IZR (rx r)) (vx p) && Rltb (vx p) (IZR (rx r + width r))
  && Rleb (IZR (ry r)) (vy p) && Rltb (vy p) (IZR (ry r + height r)).

(** [Vector2(event.pos)] *)
Definition point (pos : Z * Z) : Vector2 := V2 (IZR (fst pos)) (IZR (snd pos)).

Record Controls : Type := mkControls {
  is_selecting : bool;
  selection_start : Z * Z;
  selection_rect : Rect
}.

(** The state that the mouse handlers read and write. *)
Record Screen : Type := mkScreen {
  fleet : list Ship;
  asteroids : list Asteroid;
  controls : Controls
}.

(** [clicked_ui] of a left press is what the buttons, the HUD icons and the
    hangar interface (missing) have made of the click before
    the collectors and the selection see it. *)
Inductive Event : Type :=
| LeftDown (pos : Z * Z) (clicked_ui : bool)
| Motion (pos : Z * Z)
| LeftUp
| RightDown (pos : Z * Z).

Definition is_selected_collector (s : Ship) : bool :=
  is_collector s && selected (hull s).

(** [for collector in selected_collectors: collector.m(...)] *)
Definition on_selected_collectors
    (m : Collector.ResourceCollector -> Collector.ResourceCollector)
    (player_fleet : list Ship) : list Ship :=
  map (fun s =>
         match s with
         | CollectorShip c =>
             if selected (Collector.base c) then CollectorShip (m c) else s
         | Craft _ => s
         end) player_fleet.

(** Click-to-mine and click-to-heal with the selected collectors: the fleet
    and the new value of [clicked_ui]. *)
Definition click_collectors (pos : Z * Z) (player_fleet : list Ship)
    (asteroids : list Asteroid) : list Ship * bool :=
  match filter is_selected_collector player_fleet with
  | [] => (player_fleet, false)
  | _ :: _ =>
      match find (fun a => Asteroids.point_inside a (point pos)) asteroids with
      | Some clicked_asteroid =>
          (on_selected_collectors
             (fun c => Collector.start_mining c clicked_asteroid) player_fleet,
           true)
      | None =>
          match find (fun ship => negb (is_selected_collector ship)
                                  && point_inside (hull ship) (point pos))
                  player_fleet with
          | Some target_ship =>
              (on_selected_collectors
                 (fun c => Collector.start_healing c (hull target_ship))
                 player_fleet,
               true)
          | None => (player_fleet, false)
          end
      end
  end.

Definition left_down (pos : Z * Z) (clicked_ui : bool) (st : Screen) : Screen :=
  let '(player_fleet, clicked_ui) :=
    if negb clicked_ui then click_collectors pos (fleet st) (asteroids st)
    else (fleet st, clicked_ui) in
  (* Start selection if clicked elsewhere *)
  if negb clicked_ui then
    mkScreen
      (map (fun spaceship =>
              map_hull (fun u => with_selected u (point_inside u (point pos)))
                spaceship) player_fleet)
      (asteroids st)
      (mkControls true pos (mkRect (fst pos) (snd pos) 0 0))
  else mkScreen player_fleet (asteroids st) (controls st).

Definition motion (pos : Z * Z) (st : Screen) : Screen :=
  if is_selecting (controls st) then
    let '(mx, my) := pos in
    let '(sx, sy) := selection_start (controls st) in
    let r := selection_rect (controls st) in
    mkScreen (fleet st) (asteroids st)
      (mkControls true (selection_start (controls st))
         (mkRect (rx r) (ry r) (mx - sx)%Z (my - sy)%Z))
  else st.

Definition left_up (st : Screen) : Screen :=
  let c := mkControls false (selection_start (controls st))
             (selection_rect (controls st)) in
  let rect := rect_normalize (selection_rect (controls st)) in
  if (SELECTION_MIN_PIXELS <? width rect)%Z && (SELECTION_MIN_PIXELS <? height rect)%Z
  then
    mkScreen
      (map (fun spaceship =>
              map_hull (fun u => with_selected u (collidepoint rect (pos u)))
                spaceship) (fleet st))
      (asteroids st) c
  else mkScreen (fleet st) (asteroids st) c.

(** [s.selected and not getattr(s, "recalling", False)] *)
Definition is_selected_shape (s : Ship) : bool :=
  selected (hull s) && negb (recalling (hull s)).

(** [for s in selected_shapes: body(s)], on the objects of the fleet. *)
Definition on_selected_shapes (body : Ship -> Ship) (player_fleet : list Ship)
  : list Ship :=
  map (fun s => if is_selected_shape s then body s else s) player_fleet.

(** A selected collector stops healing, aborts mining and loses its fill. *)
Definition cancel_orders (s : Ship) : Ship :=
  match s with
  | CollectorShip c =>
      CollectorShip (Collector.stop_and_dump (Collector.cancel_healing c))
  | Craft _ => s
  end.

(** [sum((s.pos for s in shapes), Vector2(0, 0)) / len(shapes)] *)
Definition formation_center (shapes : list Ship) : Vector2 :=
  vdiv (fold_left vadd (map (fun s => pos (hull s)) shapes) vzero)
    (INR (List.length shapes)).

(** The right click: the group move order. *)
Definition right_down (pos : Z * Z) (st : Screen) : Screen :=
  let selected_shapes := filter is_selected_shape (fleet st) in
  match selected_shapes with
  | [] => st
  | _ :: _ =>
      let player_fleet := on_selected_shapes cancel_orders (fleet st) in
      let center := formation_center selected_shapes in
      let player_fleet :=
        on_selected_shapes
          (map_hull (fun u => with_formation_offset u (vsub (FleetUnit.pos u) center)))
          player_fleet in
      let center_target := point pos in
      let player_fleet :=
        on_selected_shapes
          (map_hull (fun u => set_target u (vadd center_target (formation_offset u))))
          player_fleet in
      mkScreen player_fleet (asteroids st) (controls st)
  end.

Definition handle_event (ev : Event) (st : Screen) : Screen :=
  match ev with
  | LeftDown pos clicked_ui => left_down pos clicked_ui st
  | Motion pos => motion pos st
  | LeftUp => left_up st
  | RightDown pos => right_down pos st
  end.

Definition handle_events (evs : list Event) (st : Screen) : Screen :=
  fold_left (fun st ev => handle_event ev st) evs st.

(** The selection: the [uid]s of the selected ships, in fleet order. *)
Definition selection (player_fleet : list Ship) : list nat :=
  map (fun s => uid (hull s)) (filter (fun s => selected (hull s)) player_fleet).

End WithCollaborators.

End GameScreen.

(** ** Statements about healing *)

Module Healing.

(** Health and armour of a unit are within their maxima. *)
Definition within_max (u : SpaceUnit) : Prop :=
  health u <= max_health u /\ armor u <= max_armor u.

(** The operations of the core that raise health or armour of a ship: a
    collector that heals it for a frame of [dt] seconds, and the healing of
    the player fleet at a station for a frame of [dt] seconds. *)
Inductive raise_op : Type :=
| CollectorHeals (dt : R)
| StationHeals (dt : R).

Definition apply_op {cfg : Config} (s : Ship) (op : raise_op) : Ship :=
  match op with
  | CollectorHeals dt => map_hull (fun u => Collector._apply_healing u dt) s
  | StationHeals dt => GameScreen.station_heal_ship dt s
  end.

(** The ship after each operation of a sequence. *)
Fixpoint states_after {cfg : Config} (s : Ship) (ops : list raise_op) : list Ship :=
  match ops with
  | [] => []
  | op :: ops' => apply_op s op :: states_after (apply_op s op) ops'
  end.

End Healing.

(** ** Statements about damage *)

Module Damage.

(** The hit on [u] went to one pool in full.  When the maximal armour and
    the armour of [u] are positive, [u'] is [u] after [take_armor_damage]
    with the armour amount and the health is as it was; when one of them is
    not positive, [u'] is [u] after [take_damage] with the hull amount and
    the armour is as it was. *)
Definition entire_hit (u u' : Ship) (armor_amount hull_amount : R) : Prop :=
  (0 < max_armor (hull u) /\ 0 < armor (hull u) ->
   u' = Fleet.take_armor_damage u armor_amount
   /\ health (hull u') = health (hull u)) /\
  (max_armor (hull u) <= 0 \/ armor (hull u) <= 0 ->
   u' = Fleet.take_damage u hull_amount
   /\ armor (hull u') = armor (hull u)).

End Damage.

(** The message of the [RuntimeError] of the death bookkeeping. *)
Definition hangar_error : string :=
  "Hangar/InventoryManager not available on main_player; migration required".

(** ** Statements about the frame *)

Module Frames.

Section WithCollaborators.
Context {cfg : Config} {methods : Methods} {engine : Engine}.

Definition uids (fleet : list Ship) : list nat :=
  map (fun s => uid (hull s)) fleet.

(** The fleets that the residual [handle_collisions] of the frame receives,
    when the frame comes that far. *)
Definition fleets_at_residual (w : GameScreen.World) (dt : R)
  : option (list Ship * list Ship) :=
  match GameScreen.simulate w dt with
  | Normal w1 =>
      match GameScreen.report_dead_crafts w1 with
      | Normal w2 =>
          Some (GameScreen.player_fleet (GameScreen.prune w2),
                GameScreen.enemy_fleet (GameScreen.prune w2))
      | Raised _ => None
      end
  | Raised _ => None
  end.

(** The units that the sources of [source_fleet] fire upon in one call of
    [handle_auto_fire], by [uid]. *)
Definition auto_fire_targets (source_fleet target_fleet : list Ship)
    (owner_is_enemy : bool) (speed_factor : R) : list nat :=
  flat_map
    (fun s =>
       match Utils.auto_fire_one s target_fleet owner_is_enemy speed_factor with
       | (_, Some _) =>
           match Utils.nearest (hull s) target_fleet with
           | Some t => [uid (hull t)]
           | None => []
           end
       | (_, None) => []
       end) source_fleet.

(** The units that the enemies select as [closest], by [uid]. *)
Definition enemy_ai_targets (player_fleet enemy_fleet : list Ship) : list nat :=
  flat_map
    (fun e =>
       match Utils.nearest (hull e) player_fleet with
       | Some closest => [uid (hull closest)]
       | None => []
       end) enemy_fleet.

(** The world of the frame that starts in [w] when its auto-fire runs. *)
Definition world_at_auto_fire (w : GameScreen.World) (dt : R) : GameScreen.World :=
  let w := GameScreen.update_cooldowns w dt in
  let w := GameScreen.move_players w dt in
  GameScreen.steer_enemies w dt.

(** The units fired upon by auto-fire in the frame that starts in [w]. *)
Definition fired_upon_in_frame (w : GameScreen.World) (dt : R) : list nat :=
  let w := world_at_auto_fire w dt in
  let player_fleet :=
    fst (Utils.handle_auto_fire (GameScreen.player_fleet w) (GameScreen.enemy_fleet w)
           (GameScreen.projectile_group w) false 1) in
  auto_fire_targets (GameScreen.player_fleet w) (GameScreen.enemy_fleet w) false 1
  ++ auto_fire_targets (GameScreen.enemy_fleet w) player_fleet true (9 / 10).

(** The units selected as a target, by the enemy steering or by auto-fire, in
    the frame that starts in the world [w]. *)
Definition targets_in_frame (w : GameScreen.World) (dt : R) : list nat :=
  let w1 := GameScreen.move_players (GameScreen.update_cooldowns w dt) dt in
  enemy_ai_targets (GameScreen.player_fleet w1) (GameScreen.enemy_fleet w1)
  ++ fired_upon_in_frame w dt.

(** The frames for the frame times [dts], one after the other, from the
    world [w]: the world after the last one, when the game has not ended and
    nothing was raised. *)
Fixpoint frames (w : GameScreen.World) (dts : list R) : option GameScreen.World :=
  match dts with
  | [] => Some w
  | dt :: dts' =>
      match GameScreen.frame w dt with
      | Normal (GameScreen.Running w') => frames w' dts'
      | _ => None
      end
  end.

(** The ships of both fleets. *)
Definition ships (w : GameScreen.World) : list Ship :=
  GameScreen.player_fleet w ++ GameScreen.enemy_fleet w.

(** The two worlds have the same units in their fleets, in the same order. *)
Definition same_units (w w' : GameScreen.World) : Prop :=
  uids (GameScreen.player_fleet w') = uids (GameScreen.player_fleet w) /\
  uids (GameScreen.enemy_fleet w') = uids (GameScreen.enemy_fleet w).

(** A loop body over a pair of ships that keeps the identity of both. *)
Definition keeps_uids (body : Ship -> Ship -> outcome (Ship * Ship)) : Prop :=
  forall a b a' b', body a b = Normal (a', b') ->
    uid (hull a') = uid (hull a) /\ uid (hull b') = uid (hull b).

End WithCollaborators.

End Frames.

(** ** Statements about the mouse commands *)

Module Commands.

Section WithCollaborators.
Context {cfg : Config} {engine : Engine}.

(** The selection rectangle of a drag that starts at [press] and moves
    through [moves]: from the press to the last point, not normalized. *)
Definition drag_rect (press : Z * Z) (moves : list (Z * Z)) : GameScreen.Rect :=
  let q := last moves press in
  GameScreen.mkRect (fst press) (snd press)
    (fst q - fst press)%Z (snd q - snd press)%Z.

(** The events of the drag: the press, the motions, the release. *)
Definition drag (press : Z * Z) (clicked_ui : bool) (moves : list (Z * Z))
  : list GameScreen.Event :=
  GameScreen.LeftDown press clicked_ui :: map GameScreen.Motion moves
  ++ [GameScreen.LeftUp].

(** The rectangle exceeds the minimum size in both dimensions. *)
Definition exceeds_minimum (r : GameScreen.Rect) : bool :=
  (SELECTION_MIN_PIXELS <? GameScreen.width r)%Z
  && (SELECTION_MIN_PIXELS <? GameScreen.height r)%Z.

(** The formation offsets of the selected, non-recalling ships of a fleet. *)
Definition offsets (player_fleet : list Ship) : list Vector2 :=
  map (fun s => formation_offset (hull s))
    (filter GameScreen.is_selected_shape player_fleet).

End WithCollaborators.

End Commands.

(** ** Examples of units, used where a statement is shown on an input *)

Module Examples.

Definition origin : Vector2 := V2 0 0.

(** A unit at [p] with full health [h], no armour, a weapon of damage [d]. *)
Definition unit_at (id : nat) (c : UnitClass) (p : Vector2) (h d : R) : SpaceUnit :=
  mkUnit id c p p vzero h h 0 0 d 0 200 0 1 false false.

Definition flagship : SpaceUnit := unit_at 0 ExpeditionShip (V2 400 300) 1000 10.

Definition collector0 : Collector.ResourceCollector :=
  Collector.init (unit_at 7 ResourceCollector (V2 400 300) 100 0).

Definition rock : Asteroid := MineableAsteroidA (V2 0 0) 0 (1 / 2).

Definition depot : Mothership := mkMothership (V2 400 300) true (fun _ => 0%Z).

(** A collector sent to mine [rock] from beside the depot, and three frames
    of its trip: still 500 away from the rock; at the rock for 15 seconds;
    back at the depot for 2 seconds. *)
Definition miner : Collector.ResourceCollector :=
  Collector.start_mining collector0 rock.

(** Values for the constants of [config.py]. *)
Definition config : Config := {|
  PROJECTILE_SPEED := 400;
  PROJECTILE_RADIUS := 3;
  PROJECTILE_LIFETIME := 2;
  PROJECTILE_DEFAULT_HULL := 10;
  PROJECTILE_DEFAULT_ARMOR := 5;
  COLLISION_DPS := 20;
  SEPARATION_ITER := 2;
  STATION_HEALING_RATE := 25;
  SELECTION_MIN_PIXELS := 5
|}.

(** A simple engine: a ship is a disc of radius 20, movers hold their
    position and separation pushes nobody. *)
Definition engine : Engine := {|
  collides_with_shape := fun proj u => Rleb (vlength (vsub (Proj.pos proj) (pos u))) 20;
  collides_with := fun a b => Rleb (vlength (vsub (pos a) (pos b))) 40;
  point_inside := fun u p => Rleb (vlength (vsub p (pos u))) 20;
  mover_update := fun u dt => pos u;
  separate_rotated := fun a b => (pos a, pos b)
|}.



(** An interceptor with 1 of 100 health left, and a pirate that touches it
    and will be ready to fire in 0.15 seconds. *)
Definition scout : SpaceUnit :=
  with_health (unit_at 1 Interceptor (V2 100 100) 100 0) 1.

Definition pirate : SpaceUnit :=
  mkUnit 2 PirateFrigate (V2 110 100) (V2 110 100) vzero 100 100 0 0 10 0 200
    (15 / 100) 1 false false.

(** An enemy shot of 50 hull damage that reaches the scout in 0.1 seconds. *)
Definition shot_at_scout : Proj.Projectile :=
  Proj.mkProjectile (V2 64 100) (V2 1 0) 360 3 50 0 2 true.

(** The flagship far away, the scout and the pirate in touch. *)
Definition skirmish : GameScreen.World :=
  GameScreen.mkWorld [Craft flagship; Craft scout] [Craft pirate] [] 0 (Some []).

(** The same, with the shot under way. *)
Definition skirmish_under_fire : GameScreen.World :=
  GameScreen.mkWorld [Craft flagship; Craft scout] [Craft pirate] [shot_at_scout]
    0 (Some []).


(** The flagship selected and the scout not, nothing being dragged. *)
Definition bridge : GameScreen.Screen :=
  GameScreen.mkScreen [Craft (with_selected flagship true); Craft scout] []
    (GameScreen.mkControls false (0%Z, 0%Z) (GameScreen.mkRect 0 0 0 0)).

(** Flagship and scout selected. *)
Definition bridge_all_selected : GameScreen.Screen :=
  GameScreen.mkScreen
    [Craft (with_selected flagship true); Craft (with_selected scout true)] []
    (GameScreen.mkControls false (0%Z, 0%Z) (GameScreen.mkRect 0 0 0 0)).





(** An enemy shot of 50 hull damage and no armour damage, on the flagship. *)
Definition shot : Proj.Projectile :=
  Proj.mkProjectile (V2 400 300) (V2 1 0) 360 3 50 0 2 true.

(** A frigate with 40 of 50 armour and full health, in touch with the
    pirate; the same frigate with its armour used up. *)
Definition escort : SpaceUnit :=
  mkUnit 4 Frigate (V2 120 100) (V2 120 100) vzero 200 200 40 50 10 0 200 0 1
    false false.

Definition stripped : SpaceUnit := with_armor escort 0.

(** An enemy shot of 50 hull damage and 15 armour damage, on the frigate
    and clear of the scout. *)
Definition piercing_shot : Proj.Projectile :=
  Proj.mkProjectile (V2 125 100) (V2 1 0) 360 3 50 15 2 true.

End Examples.

(** ** Statements about runs of frames *)

Module Clock.

(** The time that the frames of times [dts] take together. *)
Definition elapsed (dts : list R) : R := fold_right Rplus 0 dts.

(** [projectile_group.update(dt)] for the frame times [dts], one after the
    other. *)
Definition group_updates (group : list Proj.Projectile) (dts : list R)
  : list Proj.Projectile :=
  fold_left Proj.group_update dts group.

End Clock.

(** ** Statements about the trips of a collector *)

Module Trips.

(** The time of a run of frames. *)
Definition run_time (fs : list Collector.mining_frame) : R :=
  Clock.elapsed (map Collector.f_dt fs).

(** A frame at the asteroid [a]: the collector is within the mining range of
    [a] and farther from the mothership than the dock radius. *)
Definition at_asteroid (a : Asteroid) (f : Collector.mining_frame) : Prop :=
  0 <= Collector.f_dt f /\
  vlength (vsub (a_pos a) (Collector.at_pos f)) <= Collector.MINE_RANGE /\
  60 < vlength (vsub (Collector.ms_at f) (Collector.at_pos f)).

(** A frame at the mothership: the collector is within the dock radius and
    out of the mining range of [a]. *)
Definition at_mothership (a : Asteroid) (f : Collector.mining_frame) : Prop :=
  0 <= Collector.f_dt f /\
  vlength (vsub (Collector.ms_at f) (Collector.at_pos f)) <= 60 /\
  Collector.MINE_RANGE < vlength (vsub (a_pos a) (Collector.at_pos f)).

End Trips.

(** ** Statements about the separation of ships *)

Module Contact.

(** [a'] is the ship [a] at another position, and nothing else of it has
    changed. *)
Definition moved (a a' : Ship) : Prop :=
  exists p, a' = map_hull (fun u => with_pos u p) a.

(** A loop body over a pair of ships that returns and only moves the two. *)
Definition pushes (body : Ship -> Ship -> outcome (Ship * Ship)) : Prop :=
  forall a b, exists a' b',
    body a b = Normal (a', b') /\ moved a a' /\ moved b b'.

End Contact.

(** ** Statements about the calls of a collector *)

Module Calls.

(** [update_mining(dt)] for the frame times [dts], one after the other,
    with the mothership as the calls leave it. *)
Definition mining_calls (st : Collector.ResourceCollector * option Mothership)
    (dts : list R) : Collector.ResourceCollector * option Mothership :=
  fold_left (fun st dt => Collector.update_mining (fst st) (snd st) dt) dts st.

End Calls.

(** ** Statements about stations *)

Module Stations.

(** A station of the fleet is the same ship in the fleet afterwards. *)
Definition stations_kept (fleet fleet' : list Ship) : Prop :=
  Forall2 (fun s s' => class_of s = SpaceStation -> s' = s) fleet fleet'.

End Stations.

(** ** The pace of [run_game]: frame time and enemy waves
    ([spacegame/screens/game_screen.py], [spacegame/core/utils.py])

    [MAX_DT], [ENEMY_SPAWN_INTERVAL] and [ENEMY_SPAWN_COUNT] are constants of
    [config.py], which is missing; their values are parameters. *)

Class Schedule : Type := {
  MAX_DT : R;
  ENEMY_SPAWN_INTERVAL : R;
  ENEMY_SPAWN_COUNT : Z
}.

Module Pacing.

Section WithSchedule.
Context {schedule : Schedule}.

(** [dt = clock.tick(FPS) / 1000.0], a spike counted as a paused frame;
    [tick] is the time in milliseconds that [clock.tick] returns. *)
Definition frame_dt (tick : Z) : R :=
  let dt := IZR tick / 1000 in
  if Rltb MAX_DT dt then 0 else dt.

(** Enemy spawning (timed waves): the timer after the frame, and whether
    [spawn_enemy_wave] is called.  [at_asteroids] is
    [location_data and location_data.get('type') == 'Asteroids']. *)
Definition spawn_clock (spawn_timer : R) (dt : R) (at_asteroids : bool) : R * bool :=
  if Rltb 0 ENEMY_SPAWN_INTERVAL then
    let spawn_timer := spawn_timer - dt in
    if Rleb spawn_timer 0 then (ENEMY_SPAWN_INTERVAL, at_asteroids)
    else (spawn_timer, false)
  else (spawn_timer, false).

(** The frames of times [dts] at a location of asteroids: the timer after
    them and, for each frame, whether a wave was spawned. *)
Fixpoint spawn_clocks (spawn_timer : R) (dts : list R) : R * list bool :=
  match dts with
  | [] => (spawn_timer, [])
  | dt :: dts' =>
      let '(spawn_timer, wave) := spawn_clock spawn_timer dt true in
      let '(spawn_timer, waves) := spawn_clocks spawn_timer dts' in
      (spawn_timer, wave :: waves)
  end.

End WithSchedule.

(** The random numbers of Python's [random] module, in the order in which
    they are drawn: the results of [randrange(4)] and of [random()], and how
    many of each were drawn. *)
Record Rng : Type := mkRng {
  ints : nat -> Z;
  floats : nat -> R;
  ints_drawn : nat;
  floats_drawn : nat
}.

Definition randrange4 (g : Rng) : Z * Rng :=
  (ints g (ints_drawn g),
   mkRng (ints g) (floats g) (S (ints_drawn g)) (floats_drawn g)).

Definition random (g : Rng) : R * Rng :=
  (floats g (floats_drawn g),
   mkRng (ints g) (floats g) (ints_drawn g) (S (floats_drawn g))).

(** [random.uniform(a, b)], which is [a + (b - a) * random()]. *)
Definition uniform (a b : R) (g : Rng) : R * Rng :=
  let '(r, g) := random g in (a + (b - a) * r, g).

(** The body of the loop of [spawn_enemy_wave]: the point at which the new
    enemy is built. *)
Definition spawn_point (width height : R) (g : Rng) : Vector2 * Rng :=
  let margin := 40 in
  let '(edge, g) := randrange4 g in
  if (edge =? 0)%Z then
    let '(x, g) := uniform margin (width - margin) g in
    let '(u, g) := uniform 20 120 g in
    (V2 x (- u), g)
  else if (edge =? 1)%Z then
    let '(u, g) := uniform 20 120 g in
    let '(y, g) := uniform margin (height - margin) g in
    (V2 (width + u) y, g)
  else if (edge =? 2)%Z then
    let '(x, g) := uniform margin (width - margin) g in
    let '(u, g) := uniform 20 120 g in
    (V2 x (height + u), g)
  else
    let '(u, g) := uniform 20 120 g in
    let '(y, g) := uniform margin (height - margin) g in
    (V2 (- u) y, g).

Fixpoint spawn_points (n : nat) (width height : R) (g : Rng) : list Vector2 * Rng :=
  match n with
  | O => ([], g)
  | S n' =>
      let '(p, g) := spawn_point width height g in
      let '(ps, g) := spawn_points n' width height g in
      (p :: ps, g)
  end.

(** [spawn_enemy_wave(width, height, location_data, enemy_group, enemy_fleet,
    count)]; [PirateFrigate] is the constructor of the enemy, whose class is
    missing. *)
Definition spawn_enemy_wave (PirateFrigate : Vector2 -> Ship) (width height : R)
    (enemy_fleet : list Ship) (count : Z) (g : Rng) : list Ship * Rng :=
  let '(points, g) := spawn_points (Z.to_nat (Z.max 1 count)) width height g in
  (enemy_fleet ++ map PirateFrigate points, g).

(** The random numbers are as the [random] module gives them. *)
Definition fair (g : Rng) : Prop :=
  (forall k, (0 <= ints g k < 4)%Z) /\ (forall k, 0 <= floats g k < 1).

(** The point is beyond an edge of the screen, 20 to 120 away from it, and
    between the margins along that edge. *)
Definition beyond_an_edge (width height : R) (p : Vector2) : Prop :=
  (40 <= vx p <= width - 40 /\ (-120 < vy p <= -20 \/ height + 20 <= vy p < height + 120))
  \/
  (40 <= vy p <= height - 40 /\ (-120 < vx p <= -20 \/ width + 20 <= vx p < width + 120)).

End Pacing.

(** ** Recalled crafts fly back to the main ship and dock (in [run_game]) *)

Module Docking.

(** [isinstance(spaceship, (Interceptor, ResourceCollector, PlasmaBomber))
    and getattr(spaceship, "recalling", False)] *)
Definition is_recalled (s : Ship) : bool :=
  is_light s && recalling (hull s).

(** The first loop, for one ship: a recalled craft is steered to the main
    ship. *)
Definition steer_home (main_pos : Vector2) (s : Ship) : Ship :=
  if is_recalled s then map_hull (fun u => set_target u main_pos) s else s.

(** When close enough, mark for docking. *)
Definition docks (main_pos : Vector2) (s : Ship) : bool :=
  is_recalled s && Rltb (vlength (vsub (pos (hull s)) main_pos)) 50.

(** [if craft in player_fleet: player_fleet.remove(craft)]: the first
    occurrence of the object leaves the list. *)
Fixpoint remove_craft (craft : nat) (player_fleet : list Ship) : list Ship :=
  match player_fleet with
  | [] => []
  | s :: rest =>
      if Nat.eqb (uid (hull s)) craft then rest else s :: remove_craft craft rest
  end.

(** [for craft in recalled_done: ...]; [hangar] is [None] when the main
    player has no inventory manager or no hangar, and otherwise holds the
    crafts reported to [on_recalled], by [uid]. *)
Fixpoint dock_each (recalled_done : list Ship) (player_fleet : list Ship)
    (hangar : option (list nat)) : outcome (list Ship * option (list nat)) :=
  match recalled_done with
  | [] => Normal (player_fleet, hangar)
  | craft :: rest =>
      let player_fleet := remove_craft (uid (hull craft)) player_fleet in
      match hangar with
      | None =>
          Raised "Hangar/InventoryManager not available on main_player; migration required"
      | Some docked => dock_each rest player_fleet (Some (docked ++ [uid (hull craft)]))
      end
  end.

(** Handle recalled fighters: fly back to main ship and re-dock.
    [main_pos] is [main_player.pos]. *)
Definition recall_phase (main_pos : Vector2) (player_fleet : list Ship)
    (hangar : option (list nat)) : outcome (list Ship * option (list nat)) :=
  let player_fleet := map (steer_home main_pos) player_fleet in
  let recalled_done := filter (docks main_pos) player_fleet in
  dock_each recalled_done player_fleet hangar.

End Docking.

(** ** What a location holds: asteroids or a station
    ([spawn_asteroids_for_location] and [spawn_station_for_location] of
    [spacegame/screens/game_screen.py])

    [SCREEN_WIDTH] and [SCREEN_HEIGHT] are constants of [config.py], and the
    classes [MineableAsteroidB], [MineableAsteroidC] and [MineableAsteroidM]
    are missing like it: they are parameters. *)

Class Display : Type := {
  SCREEN_WIDTH : Z;
  SCREEN_HEIGHT : Z
}.

Class Rocks : Type := {
  MineableAsteroidB : Vector2 -> Z -> R -> Asteroid;
  MineableAsteroidC : Vector2 -> Z -> R -> Asteroid;
  MineableAsteroidM : Vector2 -> Z -> R -> Asteroid
}.

Module Locations.

(** An entry of [visitables] in [star_systems.json], as the two functions
    read it: a key that is absent is [None]. *)
Record Location : Type := mkLocation {
  loc_type : option string;
  loc_tier : option Z;
  loc_ore : option string;
  loc_position : option (list Z)
}.

(** [location_data.get('type') == name] *)
Definition has_type (loc : Location) (name : string) : bool :=
  match loc_type loc with
  | Some t => String.eqb t name
  | None => false
  end.

(** The random numbers of Python's [random] module for [randint], [choice]
    and [shuffle]: the result of the k-th [randint(a, b)], the index that
    the k-th [choice] takes, what [shuffle] makes of a list, and how many of
    the first two were drawn. *)
Record Dice : Type := mkDice {
  randints : nat -> Z -> Z -> Z;
  choices : nat -> nat;
  shuffled : list string -> list string;
  randints_drawn : nat;
  choices_drawn : nat
}.

Definition randint (a b : Z) (d : Dice) : Z * Dice :=
  (randints d (randints_drawn d) a b,
   mkDice (randints d) (choices d) (shuffled d) (S (randints_drawn d))
     (choices_drawn d)).

(** [random.choice(seq)] *)
Definition choice (seq : list string) (d : Dice) : string * Dice :=
  (nth (choices d (choices_drawn d)) seq EmptyString,
   mkDice (randints d) (choices d) (shuffled d) (randints_drawn d)
     (S (choices_drawn d))).

Section WithCollaborators.
Context {display : Display} {rocks : Rocks}.

(** [pos = (random.randint(min_x, max_x), random.randint(min_y, max_y))] *)
Definition random_pos (d : Dice) : Vector2 * Dice :=
  let spawn_margin := 100%Z in
  let max_x := (SCREEN_WIDTH - spawn_margin)%Z in
  let max_y := (SCREEN_HEIGHT - spawn_margin)%Z in
  let min_x := spawn_margin in
  let min_y := spawn_margin in
  let '(x, d) := randint min_x max_x d in
  let '(y, d) := randint min_y max_y d in
  (GameScreen.point (x, y), d).

(** [for _ in range(count): ... asteroids.append(MineableAsteroidM(pos,
    tier=tier, purity=0.5))] *)
Fixpoint spawn_m (count : nat) (tier : Z) (d : Dice) : list Asteroid * Dice :=
  match count with
  | O => ([], d)
  | S n =>
      let '(pos, d) := random_pos d in
      let '(rest, d) := spawn_m n tier d in
      (MineableAsteroidM pos tier (1 / 2) :: rest, d)
  end.

(** [[random.choice(['A', 'B', 'C']) for _ in range(n)]] *)
Fixpoint random_choices (n : nat) (d : Dice) : list string * Dice :=
  match n with
  | O => ([], d)
  | S n' =>
      let '(k, d) := choice ["A"%string; "B"%string; "C"%string] d in
      let '(ks, d) := random_choices n' d in
      (k :: ks, d)
  end.

(** [asteroid_map[ore_key]], a key that is not in the dict raising
    [KeyError]. *)
Definition asteroid_map (ore_key : string)
  : outcome (Vector2 -> Z -> R -> Asteroid) :=
  if String.eqb ore_key "A" then Normal MineableAsteroidA
  else if String.eqb ore_key "B" then Normal MineableAsteroidB
  else if String.eqb ore_key "C" then Normal MineableAsteroidC
  else Raised "KeyError".

(** [ore_purities.get(ore_key, low_purity)] *)
Definition ore_purity (ore_type ore_key : string) : R :=
  let high_purity := 1 / 2 in
  let low_purity := 13 / 100 in
  if String.eqb ore_key "A" then
    if String.eqb ore_type "A" then high_purity else low_purity
  else if String.eqb ore_key "B" then
    if String.eqb ore_type "B" then high_purity else low_purity
  else if String.eqb ore_key "C" then
    if String.eqb ore_type "C" then high_purity else low_purity
  else low_purity.

(** [for ore_key in ore_choices: ...] *)
Fixpoint spawn_abc (ore_choices : list string) (ore_type : string) (tier : Z)
    (d : Dice) : outcome (list Asteroid * Dice) :=
  match ore_choices with
  | [] => Normal ([], d)
  | ore_key :: rest =>
      let '(pos, d) := random_pos d in
      asteroid_class <- asteroid_map ore_key ;;
      let purity_val := ore_purity ore_type ore_key in
      ' (asteroids, d) <- spawn_abc rest ore_type tier d ;;
      Normal (asteroid_class pos tier purity_val :: asteroids, d)
  end.

Definition spawn_asteroids_for_location (location_data : option Location) (d : Dice)
  : outcome (list Asteroid * Dice) :=
  match location_data with
  | None => Normal ([], d)
  | Some loc =>
      if has_type loc "Asteroids" then
          let tier := match loc_tier loc with Some t => t | None => 0%Z end in
          let ore_type := match loc_ore loc with Some o => o | None => "M"%string end in
          let '(count, d) :=
            if String.eqb ore_type "M" then randint 4 10 d else randint 5 10 d in
          if String.eqb ore_type "M" then Normal (spawn_m (Z.to_nat count) tier d)
          else
            let '(more, d) :=
              if (3 <? count)%Z then random_choices (Z.to_nat (count - 3)) d
              else ([], d) in
            let ore_choices := ["A"%string; "B"%string; "C"%string] ++ more in
            let ore_choices := shuffled d ore_choices in
            spawn_abc ore_choices ore_type tier d
      else Normal ([], d)
  end.

(** [spawn_station_for_location]: the point at which the [SpaceStation] is
    built, [None] when there is no station; a [position] of one coordinate
    only raises [IndexError]. *)
Definition spawn_station_for_location (location_data : option Location)
  : outcome (option (Z * Z)) :=
  match location_data with
  | None => Normal None
  | Some loc =>
      if has_type loc "Station" then
          match loc_position loc with
          | Some (x :: y :: _) =>
              Normal (Some ((SCREEN_WIDTH / 2 + x - 300)%Z, (SCREEN_HEIGHT / 2 + y)%Z))
          | Some [_] => Raised "IndexError"
          | Some [] | None =>
              Normal (Some ((SCREEN_WIDTH / 2)%Z, (SCREEN_HEIGHT / 2)%Z))
          end
      else Normal None
  end.

End WithCollaborators.

(** The random numbers are as the [random] module gives them. *)
Definition fair (d : Dice) : Prop :=
  (forall k a b, (a <= b)%Z -> (a <= randints d k a b <= b)%Z) /\
  (forall k, (choices d k < 3)%nat) /\
  (forall l, Permutation l (shuffled d l)).

(** The asteroid lies in the spawn area, 100 inside the screen. *)
Definition in_spawn_area {display : Display} (p : Vector2) : Prop :=
  100 <= vx p <= IZR (SCREEN_WIDTH - 100) /\ 100 <= vy p <= IZR (SCREEN_HEIGHT - 100).

(** What a run of draws leaves of the dice: the same numbers, more of them
    drawn. *)
Definition later (d d' : Dice) : Prop :=
  randints d' = randints d /\ choices d' = choices d /\ shuffled d' = shuffled d.

(** The ore is one of A, B and C. *)
Definition abc (ore_key : string) : Prop :=
  ore_key = "A"%string \/ ore_key = "B"%string \/ ore_key = "C"%string.

(** The asteroid that the location of ore [ore_type] and tier [tier] gets
    for the ore [ore_key] at [pos]. *)
Definition build {rocks : Rocks} (ore_type : string) (tier : Z)
    (order : string * Vector2) : Asteroid :=
  let '(ore_key, pos) := order in
  if String.eqb ore_type "M" then MineableAsteroidM pos tier (1 / 2)
  else
    (if String.eqb ore_key "A" then MineableAsteroidA
     else if String.eqb ore_key "B" then MineableAsteroidB
     else MineableAsteroidC) pos tier (if String.eqb ore_key ore_type then 1 / 2
                                       else 13 / 100).

End Locations.

(** ** The hangar interface ([hangar_ui.py])

    [ExpeditionShip] is missing.  The interface reads [hangar] (a slot is
    true while its craft is in the hangar) and [hangar_ships] (the craft
    linked to a slot) of the main player, and calls its methods [can_deploy]
    and [deploy], which are parameters. *)

Module Hud.

Record Carrier : Type := mkCarrier {
  hangar : list bool;
  hangar_ships : option (list (option nat))
}.

Class Bay : Type := {
  can_deploy : Carrier -> nat -> bool;
  deploy : Carrier -> nat -> Carrier * option Ship
}.

Record Slot : Type := mkSlot {
  preview_position : Z * Z;
  show_button : bool;
  button_rect : GameScreen.Rect
}.

(** [HangarUI.__init__]: the three slots of the interceptors. *)
Definition hangar_slots : list Slot :=
  [mkSlot (260, 565)%Z false (GameScreen.mkRect 0 0 80 25);
   mkSlot (360, 565)%Z false (GameScreen.mkRect 0 0 80 25);
   mkSlot (460, 565)%Z false (GameScreen.mkRect 0 0 80 25)].

Definition with_show_button (slot : Slot) (b : bool) : Slot :=
  mkSlot (preview_position slot) b (button_rect slot).

(** [fighter_ship.recalling = True; fighter_ship.selected = False] *)
Definition recall_unit (u : SpaceUnit) : SpaceUnit :=
  mkUnit (uid u) (cls u) (pos u) (mover_target u) (formation_offset u)
    (health u) (max_health u) (armor u) (max_armor u) (bullet_damage u)
    (FleetUnit.armor_damage u) (fire_range u) (cooldown_timer u) (fire_cooldown u)
    false true.

(** [icpts[i] if i < len(icpts) else None], with the default of [getattr]. *)
Definition linked_craft (main_player : Carrier) (i : nat) : option nat :=
  let icpts :=
    match hangar_ships main_player with
    | Some l => l
    | None => [None; None; None]
    end in
  match nth_error icpts i with
  | Some craft => craft
  | None => None
  end.

(** The RECALL branch: the craft of the slot, when it is in the fleet with a
    positive health, is recalled and no longer selected. *)
Definition recall (fighter_ship : option nat) (player_shapes : list Ship) : list Ship :=
  match fighter_ship with
  | None => player_shapes
  | Some craft =>
      map (fun s =>
             if Nat.eqb (uid (hull s)) craft && Rltb 0 (health (hull s))
             then map_hull recall_unit s else s) player_shapes
  end.

Section WithBay.
Context {bay : Bay}.

(** What a click on the button of slot [i] does to the main player and to
    the fleet. *)
Definition press_button (i : nat) (main_player : Carrier) (player_shapes : list Ship)
  : outcome (Carrier * list Ship) :=
  match nth_error (hangar main_player) i with
  | None => Raised "IndexError"
  | Some true =>
      (* DEPLOY *)
      if can_deploy main_player i then
        let '(main_player, new_fighter) := deploy main_player i in
        match new_fighter with
        | Some f => Normal (main_player, player_shapes ++ [f])
        | None => Normal (main_player, player_shapes)
        end
      else Normal (main_player, player_shapes)
  | Some false =>
      (* RECALL *)
      Normal (main_player, recall (linked_craft main_player i) player_shapes)
  end.

(** Check deploy / recall buttons: the first slot from index [i] on whose
    button is shown and under the mouse; [None] when there is none. *)
Fixpoint check_buttons (i : nat) (slots : list Slot) (mouse_pos : Z * Z)
    (main_player : Carrier) (player_shapes : list Ship)
  : outcome (option (list Slot * Carrier * list Ship)) :=
  match slots with
  | [] => Normal None
  | hangar_slot :: rest =>
      if show_button hangar_slot
         && GameScreen.collidepoint (button_rect hangar_slot) (GameScreen.point mouse_pos)
      then
        ' (main_player, player_shapes) <- press_button i main_player player_shapes ;;
        Normal (Some (with_show_button hangar_slot false :: rest, main_player,
                      player_shapes))
      else
        r <- check_buttons (S i) rest mouse_pos main_player player_shapes ;;
        Normal (match r with
                | Some (rest', main_player', player_shapes') =>
                    Some (hangar_slot :: rest', main_player', player_shapes')
                | None => None
                end)
  end.

End WithBay.

(** Check mini previews: the button of the first slot whose preview is
    under the mouse is toggled. *)
Fixpoint check_previews (preview_size : Z) (slots : list Slot) (mouse_pos : Z * Z)
  : option (list Slot) :=
  match slots with
  | [] => None
  | hangar_slot :: rest =>
      let preview_rect :=
        GameScreen.mkRect (fst (preview_position hangar_slot) - preview_size / 2)
          (snd (preview_position hangar_slot) - preview_size / 2)
          preview_size preview_size in
      if GameScreen.collidepoint preview_rect (GameScreen.point mouse_pos)
      then Some (with_show_button hangar_slot (negb (show_button hangar_slot)) :: rest)
      else
        match check_previews preview_size rest mouse_pos with
        | Some rest' => Some (hangar_slot :: rest')
        | None => None
        end
  end.

(** [handle_mouse_button_down]: whether the click was consumed, and the
    slots, the main player and the fleet after it. *)
Definition handle_mouse_button_down {bay : Bay} (preview_size : Z) (slots : list Slot)
    (mouse_pos : Z * Z) (main_player : Carrier) (player_shapes : list Ship)
  : outcome (bool * list Slot * Carrier * list Ship) :=
  r <- check_buttons 0 slots mouse_pos main_player player_shapes ;;
  match r with
  | Some (slots, main_player, player_shapes) =>
      Normal (true, slots, main_player, player_shapes)
  | None =>
      match check_previews preview_size slots mouse_pos with
      | Some slots => Normal (true, slots, main_player, player_shapes)
      | None => Normal (false, slots, main_player, player_shapes)
      end
  end.

Definition close_all_previews (slots : list Slot) : list Slot :=
  map (fun slot => with_show_button slot false) slots.

(** The slots differ in the button of one slot at most. *)
Definition one_button_changed (slots slots' : list Slot) : Prop :=
  slots' = slots \/
  exists before slot after b,
    slots = before ++ slot :: after /\
    slots' = before ++ with_show_button slot b :: after.

End Hud.

(** ** Particles ([spacegame/core/effects.py]) *)

Module Effects.

(** [int(x)] on a float: the fraction is cut off. *)
Definition py_int (x : R) : Z :=
  if Rle_dec 0 x then Int_part x else (- Int_part (- x))%Z.

(** The attributes of a [Particle] that [update] reads and writes; [alpha]
    is the alpha value of its image, [None] until [set_alpha] was called. *)
Record Particle : Type := mkParticle {
  pos : Vector2;
  vel : Vector2;
  radius : Z;
  lifetime : R;
  max_life : R;
  alpha : option Z
}.

(** [Particle(pos, vel, color, radius, lifetime)] *)
Definition init (pos vel : Vector2) (radius : Z) (lifetime : R) : Particle :=
  mkParticle pos vel radius lifetime lifetime None.

(** [update(dt)]: the particle after the call, and whether it killed
    itself. *)
Definition update (p : Particle) (dt : R) : Particle * bool :=
  let pos := vadd (pos p) (vscale (vel p) dt) in
  let lifetime := lifetime p - dt in
  (* simple damping so particles slow and don't travel too far *)
  let vel := vscale (vel p) (Rmax 0 (1 - 3 * dt)) in
  (* fade out *)
  let alpha :=
    if Rltb 0 (max_life p)
    then Some (py_int (255 * Rmax 0 (Rmin 1 (lifetime / max_life p))))
    else alpha p in
  (mkParticle pos vel (radius p) lifetime (max_life p) alpha, Rleb lifetime 0).

End Effects.

(** ** Statements about the hangar interface *)

Module Clicks.

(** The button of the slot is shown and the mouse is on it. *)
Definition on_button (mouse_pos : Z * Z) (slot : Hud.Slot) : bool :=
  Hud.show_button slot
  && GameScreen.collidepoint (Hud.button_rect slot) (GameScreen.point mouse_pos).

(** The mouse is on the preview of the slot. *)
Definition on_preview (preview_size : Z) (mouse_pos : Z * Z) (slot : Hud.Slot) : bool :=
  GameScreen.collidepoint
    (GameScreen.mkRect (fst (Hud.preview_position slot) - preview_size / 2)
       (snd (Hud.preview_position slot) - preview_size / 2)
       preview_size preview_size)
    (GameScreen.point mouse_pos).

End Clicks.

(** ** Further examples *)

Module Scenes.

(** The bridge after a drag from (50, 50) to (150, 150) has ended: the
    flagship is selected (by a later click), the rectangle of the drag is
    still stored. *)
Definition bridge_after_drag : GameScreen.Screen :=
  GameScreen.mkScreen
    [Craft (with_selected Examples.flagship true); Craft Examples.scout] []
    (GameScreen.mkControls false (50%Z, 50%Z) (GameScreen.mkRect 50 50 100 100)).

(** A shot with one second left to live. *)
Definition short_shot : Proj.Projectile :=
  Proj.mkProjectile (V2 0 0) (V2 0 1) 360 3 50 0 1 false.

(** [Examples.collector0], selected. *)
Definition picked_collector : Collector.ResourceCollector :=
  Collector.with_base Examples.collector0
    (with_selected (Collector.base Examples.collector0) true).

(** The selected collector and the flagship, both at (400, 300), and the
    rock at (0, 0). *)
Definition yard : GameScreen.Screen :=
  GameScreen.mkScreen [CollectorShip picked_collector; Craft Examples.flagship]
    [Examples.rock]
    (GameScreen.mkControls false (0%Z, 0%Z) (GameScreen.mkRect 0 0 0 0)).

(** The same without the rock. *)
Definition dock : GameScreen.Screen :=
  GameScreen.mkScreen [CollectorShip picked_collector; Craft Examples.flagship] []
    (GameScreen.mkControls false (0%Z, 0%Z) (GameScreen.mkRect 0 0 0 0)).

End Scenes.

Module Yard.

(** A frame of [dt] seconds of [Examples.miner] at the rock, 500 away from
    the depot. *)
Definition frame_mining (dt : R) : Collector.mining_frame :=
  Collector.mkFrame dt (V2 0 0) (V2 400 300).

(** A frame of [dt] seconds at the depot. *)
Definition frame_docked (dt : R) : Collector.mining_frame :=
  Collector.mkFrame dt (V2 400 300) (V2 400 300).

(** The miner with a full hold, on its way back. *)
Definition loaded_miner : Collector.ResourceCollector :=
  Collector.with_returning (Collector.with_mining_fill Examples.miner 150) true.

(** A unit with 40 of 50 armour and 50 of 100 health. *)
Definition damaged : SpaceUnit :=
  mkUnit 3 Frigate (V2 0 0) (V2 0 0) vzero 50 100 40 50 10 0 200 0 1 false false.

(** Random numbers that are always the right edge and the middle. *)
Definition steady : Pacing.Rng := Pacing.mkRng (fun _ => 1%Z) (fun _ => 1 / 2) 0 0.

(** A pirate built at [p]. *)
Definition pirate_at (p : Vector2) : Ship :=
  Craft (Examples.unit_at 9 PirateFrigate p 100 10).

(** Spikes over a quarter of a second are paused; a wave of two pirates
    every 10 seconds. *)
Definition schedule : Schedule := {|
  MAX_DT := 1 / 4;
  ENEMY_SPAWN_INTERVAL := 10;
  ENEMY_SPAWN_COUNT := 2
|}.

(** The scout, recalled, at 30 from the flagship; an interceptor, recalled,
    far away; and the flagship. *)
Definition homecoming : list Ship :=
  [Craft Examples.flagship;
   Craft (mkUnit 1 Interceptor (V2 400 330) (V2 0 0) vzero 100 100 0 0 10 0 200 0 1
            false true);
   Craft (mkUnit 4 Interceptor (V2 0 0) (V2 0 0) vzero 100 100 0 0 10 0 200 0 1
            false true)].

(** A screen of 800 by 600. *)
Definition display : Display := {| SCREEN_WIDTH := 800; SCREEN_HEIGHT := 600 |}.

(** Asteroids of the classes B, C and M, of radius 34 like those of class A. *)
Definition rocks : Rocks := {|
  MineableAsteroidB := fun p t pur => mkAsteroid p t "B" pur 34;
  MineableAsteroidC := fun p t pur => mkAsteroid p t "C" pur 34;
  MineableAsteroidM := fun p t pur => mkAsteroid p t "M" pur 34
|}.

(** Dice that always give the least number and the first choice, and a
    shuffle that leaves the list as it is. *)
Definition low_dice : Locations.Dice :=
  Locations.mkDice (fun _ a _ => a) (fun _ => 0%nat) (fun l => l) 0 0.

(** A field of asteroids of tier 1 with the ore B. *)
Definition field_b : Locations.Location :=
  Locations.mkLocation (Some "Asteroids"%string) (Some 1%Z) (Some "B"%string) None.

(** A particle that flies to the right at 100 per second and lives for 0.8
    seconds. *)
Definition spark : Effects.Particle := Effects.init (V2 0 0) (V2 100 0) 1 (8 / 10).

(** A main player whose first craft, the scout, is out and whose other two
    crafts are in the hangar; a bay that deploys an interceptor from a
    slot; and the slots with the button of the first one shown. *)
Definition carrier : Hud.Carrier :=
  Hud.mkCarrier [false; true; true] (Some [Some 1%nat; None; None]).

Definition bay : Hud.Bay := {|
  Hud.can_deploy := fun _ _ => true;
  Hud.deploy := fun main_player i =>
    (main_player,
     Some (Craft (Examples.unit_at (10 + i) Interceptor (V2 400 300) 100 5)))
|}.

Definition slots_open : list Hud.Slot :=
  [Hud.mkSlot (260, 565)%Z true (GameScreen.mkRect 0 0 80 25);
   Hud.mkSlot (360, 565)%Z false (GameScreen.mkRect 0 0 80 25);
   Hud.mkSlot (460, 565)%Z false (GameScreen.mkRect 0 0 80 25)].

End Yard.

(** * Properties *)

(** ** Arithmetic and vectors *)

Lemma Rleb_true x y : Rleb x y = true <-> x <= y.
Proof. unfold Rleb; destruct (Rle_dec x y); split; intros; try easy; lra. Qed.

Lemma Rleb_false x y : Rleb x y = false <-> y < x.
Proof. unfold Rleb; destruct (Rle_dec x y); split; intros; try easy; lra. Qed.

Lemma Rltb_true x y : Rltb x y = true <-> x < y.
Proof. unfold Rltb; destruct (Rlt_dec x y); split; intros; try easy; lra. Qed.

Lemma Rltb_false x y : Rltb x y = false <-> y <= x.
Proof. unfold Rltb; destruct (Rlt_dec x y); split; intros; try easy; lra. Qed.

Lemma Int_part_IZR (z : Z) : Int_part (IZR z) = z.
Proof.
  symmetry; apply Int_part_spec; split; lra.
Qed.

Lemma py_round_IZR (z : Z) : py_round (IZR z) = z.
Proof.
  unfold py_round; rewrite Int_part_IZR.
  destruct (Rlt_dec (IZR z - IZR z) (1 / 2)); [reflexivity | lra].
Qed.

Lemma length_squared_nonneg a : 0 <= length_squared a.
Proof. unfold length_squared; nra. Qed.

Lemma vlength_le_iff a r : 0 <= r -> (vlength a <= r <-> length_squared a <= r * r).
Proof.
  intros Hr; unfold vlength; split; intros H.
  - pose proof (length_squared_nonneg a) as Hs.
    rewrite <- (sqrt_sqrt _ Hs).
    pose proof (sqrt_pos (length_squared a)). nra.
  - rewrite <- (sqrt_square r Hr). apply sqrt_le_1_alt; exact H.
Qed.

Lemma vlength_gt_iff a r : 0 <= r -> (r < vlength a <-> r * r < length_squared a).
Proof.
  intros Hr. pose proof (vlength_le_iff a r Hr) as [H1 H2]. split; intros H.
  - destruct (Rle_dec (length_squared a) (r * r)); [specialize (H2 r0); lra | lra].
  - destruct (Rle_dec (vlength a) r); [specialize (H1 r0); lra | lra].
Qed.

(** ** Mining and healing are exclusive (C1) *)

(** A collector with a target asteroid and 10 units on board is told to
    heal: it still reports that it mines. *)
Lemma start_healing_still_mining :
  let c := Collector.with_mining_fill
             (Collector.start_mining Examples.collector0 Examples.rock) 10 in
  Collector.mining_target c = Some Examples.rock /\
  Collector.is_mining (Collector.start_healing c Examples.flagship) = true.
Proof.
  split; [reflexivity |].
  unfold Collector.is_mining; simpl. rbool; try reflexivity.
Qed.

(** C1, amended.  [start_healing] clears the mining target and the returning
    flag and sets the heal target, and keeps the fill: afterwards
    [is_mining()] is true exactly when the fill is positive.  [start_mining] clears the heal target and sets the
    mining target: afterwards [is_healing()] is false, from every state. *)
Theorem mining_healing_exclusive :
  forall (c : Collector.ResourceCollector) (target : SpaceUnit) (asteroid : Asteroid),
    (Collector.mining_target (Collector.start_healing c target) = None /\
     Collector.returning_to_ship (Collector.start_healing c target) = false /\
     Collector.healing_target (Collector.start_healing c target) = Some (uid target) /\
     Collector.mining_fill (Collector.start_healing c target) = Collector.mining_fill c /\
     Collector.is_mining (Collector.start_healing c target)
       = Rltb 0 (Collector.mining_fill c)) /\
    (Collector.healing_target (Collector.start_mining c asteroid) = None /\
     Collector.mining_target (Collector.start_mining c asteroid) = Some asteroid /\
     Collector.is_healing (Collector.start_mining c asteroid) = false).
Proof.
  intros c target asteroid. repeat split.
Qed.

(** ** Health and armour stay within their maxima (C6) *)

Lemma hull_map_hull f s : hull (map_hull f s) = f (hull s).
Proof. destruct s; reflexivity. Qed.

Lemma apply_healing_within_max (target : SpaceUnit) (dt : R) :
  Healing.within_max target -> Healing.within_max (Collector._apply_healing target dt).
Proof.
  unfold Healing.within_max, Collector._apply_healing. intros [Hh Ha].
  destruct (Rltb 0 (max_armor target)) eqn:E1;
    [destruct (Rltb 0 (max_armor target - armor target)) eqn:E2 |].
  all: match goal with
       | |- context [Rltb 0 ?x] => destruct (Rltb 0 x) eqn:E3
       end.
  all: try match goal with
       | |- context [Rltb 0 ?x] => destruct (Rltb 0 x) eqn:E4
       end.
  all: simpl; unfold Rmin; rcase; simpl in *; split; try lra.
  all: apply Rltb_true in E2; lra.
Qed.

Lemma heal_within_max (u : SpaceUnit) (amount : R) :
  Healing.within_max u -> Healing.within_max (FleetUnit.heal u amount).
Proof.
  unfold Healing.within_max, FleetUnit.heal. intros [Hh Ha]; simpl.
  unfold Rmin; rcase; split; lra.
Qed.

Lemma set_armor_within_max (u : SpaceUnit) (value : R) :
  Healing.within_max u -> Healing.within_max (FleetUnit.set_armor u value).
Proof.
  unfold Healing.within_max, FleetUnit.set_armor. intros [Hh Ha]; simpl.
  unfold Rmin, Rmax; rcase; split; lra.
Qed.

Lemma ship_heal_within_max (s : Ship) (amount : R) :
  Healing.within_max (hull s) -> Healing.within_max (hull (Fleet.heal s amount)).
Proof.
  intros H. unfold Fleet.heal.
  destruct (class_of s); rewrite hull_map_hull;
    solve [apply heal_within_max; exact H | exact H].
Qed.

Lemma station_heal_ship_within_max {cfg : Config} (dt : R) (s : Ship) :
  Healing.within_max (hull s) ->
  Healing.within_max (hull (GameScreen.station_heal_ship dt s)).
Proof.
  intros H. unfold GameScreen.station_heal_ship.
  destruct (Rltb (health (hull s)) (max_health (hull s))).
  - apply (ship_heal_within_max s (STATION_HEALING_RATE * dt)) in H.
    destruct (Rltb _ _); [| exact H].
    unfold Fleet.set_armor; rewrite hull_map_hull.
    apply set_armor_within_max; exact H.
  - destruct (Rltb _ _); [| exact H].
    unfold Fleet.set_armor; rewrite hull_map_hull.
    apply set_armor_within_max; exact H.
Qed.

Lemma apply_op_within_max {cfg : Config} (s : Ship) (op : Healing.raise_op) :
  Healing.within_max (hull s) -> Healing.within_max (hull (Healing.apply_op s op)).
Proof.
  intros H. destruct op as [dt | dt]; simpl.
  - rewrite hull_map_hull. apply apply_healing_within_max; exact H.
  - apply station_heal_ship_within_max; exact H.
Qed.

(** C6.  A ship whose health and armour are within their maxima keeps them
    so after each operation of any sequence of collector healing
    ([_apply_healing]) and station healing, for every frame time and every
    healing rate. *)
Theorem healing_never_exceeds_max :
  forall (cfg : Config) (s : Ship) (ops : list Healing.raise_op),
    Healing.within_max (hull s) ->
    Forall (fun s' => Healing.within_max (hull s')) (Healing.states_after s ops).
Proof.
  intros cfg s ops; revert s.
  induction ops as [| op ops IH]; intros s H; simpl.
  - constructor.
  - constructor.
    + apply apply_op_within_max; exact H.
    + apply IH. apply apply_op_within_max; exact H.
Qed.

(** The flagship, damaged to 990 of 1000, healed by a collector for a second
    and then at a station for a second. *)
Lemma healing_never_exceeds_max_witness :
  let s := Craft (with_health Examples.flagship 990) in
  let ops := [Healing.CollectorHeals 1; Healing.StationHeals 1] in
  Healing.within_max (hull s) /\
  Forall (fun s' => Healing.within_max (hull s'))
    (@Healing.states_after Examples.config s ops).
Proof.
  assert (H : Healing.within_max (hull (Craft (with_health Examples.flagship 990)))).
  { unfold Healing.within_max; simpl; lra. }
  split; [exact H |].
  apply (healing_never_exceeds_max Examples.config _ _ H).
Defined.

(** ** Mining conservation (C2) *)

Ltac split_if :=
  match goal with
  | |- context [if ?b then _ else _] => destruct b eqn:?
  end.

Ltac to_R :=
  repeat match goal with
    | H : Rleb _ _ = true |- _ => apply Rleb_true in H
    | H : Rleb _ _ = false |- _ => apply Rleb_false in H
    | H : Rltb _ _ = true |- _ => apply Rltb_true in H
    | H : Rltb _ _ = false |- _ => apply Rltb_false in H
    end.

Ltac mining_cases c Ht :=
  unfold Collector.mining_step, Collector.update_mining;
  destruct (Collector.mining_target c) eqn:Ht; simpl; rewrite ?Ht; simpl;
  repeat (split_if; simpl; rewrite ?Ht; simpl).

Lemma mining_step_kept (c : Collector.ResourceCollector) (ms : Mothership)
    (f : Collector.mining_frame) :
  Collector.mining_target (fst (Collector.mining_step (c, ms) f))
    = Collector.mining_target c /\
  Collector.mining_capacity (fst (Collector.mining_step (c, ms) f))
    = Collector.mining_capacity c /\
  has_add_resource (snd (Collector.mining_step (c, ms) f)) = has_add_resource ms.
Proof. mining_cases c Ht; auto. Qed.





Lemma mining_run_cons st f fs :
  Collector.mining_run st (f :: fs) = Collector.mining_run (Collector.mining_step st f) fs.
Proof. reflexivity. Qed.

Lemma mining_run_nil st : Collector.mining_run st [] = st.
Proof. reflexivity. Qed.




(** Evaluation of a run on given numbers: each comparison is decided. *)
Ltac prove_cmp :=
  first [ lra
        | apply vlength_le_iff; [lra | unfold length_squared; cbn [vx vy]; lra]
        | apply vlength_gt_iff; [lra | unfold length_squared; cbn [vx vy]; lra]
        | unfold Rmin, Rmax; rcase; lra ].

Ltac step_cmp :=
  match goal with
  | |- context [Rleb ?a ?b] =>
      first [ rewrite (proj2 (Rleb_true a b)) by prove_cmp
            | rewrite (proj2 (Rleb_false a b)) by prove_cmp ]
  | |- context [Rltb ?a ?b] =>
      first [ rewrite (proj2 (Rltb_true a b)) by prove_cmp
            | rewrite (proj2 (Rltb_false a b)) by prove_cmp ]
  end; cbv beta iota.

Ltac run_R :=
  cbv -[Rleb Rltb Reqb Rmin Rmax vlength sqrt Rplus Rminus Rmult Rdiv Rinv Ropp
        IZR INR Rle Rlt Rge Rgt py_round];
  repeat step_cmp.

Lemma py_round_75 : py_round (150 * (1 / 2)) = 75%Z.
Proof.
  replace (150 * (1 / 2)) with (IZR 75) by lra. apply py_round_IZR.
Qed.


(** ** The direction of a projectile is a unit vector (C10) *)

Lemma length_squared_vscale d k : length_squared (vscale d k) = k * k * length_squared d.
Proof. unfold length_squared, vscale; simpl; ring. Qed.

Lemma vlength_vscale d k : vlength (vscale d k) = Rabs k * vlength d.
Proof.
  unfold vlength. rewrite length_squared_vscale.
  rewrite sqrt_mult_alt by nra.
  fold (Rsqr k). rewrite sqrt_Rsqr_abs. reflexivity.
Qed.

Lemma vlength_pos d : length_squared d <> 0 -> 0 < vlength d.
Proof.
  intros H. pose proof (length_squared_nonneg d).
  apply sqrt_lt_R0. lra.
Qed.

Lemma normalize_unit d : length_squared d <> 0 -> vlength (normalize d) = 1.
Proof.
  intros H. pose proof (vlength_pos d H) as Hl.
  unfold normalize. 
  replace (vdiv d (vlength d)) with (vscale d (/ vlength d))
    by (unfold vdiv, vscale; reflexivity).
  rewrite vlength_vscale. rewrite Rabs_right.
  - field; lra.
  - apply Rle_ge. left. apply Rinv_0_lt_compat; exact Hl.
Qed.

Lemma normalize_vscale d k : 0 < k -> length_squared d <> 0 ->
  normalize (vscale d k) = normalize d.
Proof.
  intros Hk H. pose proof (vlength_pos d H) as Hl.
  unfold normalize. rewrite vlength_vscale, Rabs_right by lra.
  unfold vdiv, vscale; simpl. f_equal; field; lra.
Qed.

Lemma init_direction {cfg : Config} p d sp r hd ad lt o :
  Proj.direction (Proj.init p d sp r hd ad lt o)
  = if Reqb (length_squared d) 0 then V2 1 0 else normalize d.
Proof. reflexivity. Qed.

Lemma init_direction_unit {cfg : Config} p d sp r hd ad lt o :
  vlength (Proj.direction (Proj.init p d sp r hd ad lt o)) = 1.
Proof.
  rewrite init_direction. unfold Reqb.
  destruct (Req_dec_T (length_squared d) 0) as [E | E].
  - unfold vlength, length_squared; simpl.
    replace (1 * 1 + 0 * 0) with 1 by ring. apply sqrt_1.
  - apply normalize_unit; exact E.
Qed.

Lemma updates_direction q dts : Proj.direction (Proj.updates q dts) = Proj.direction q.
Proof.
  revert q; induction dts as [| dt dts IH]; intros q; simpl; [reflexivity |].
  rewrite IH. reflexivity.
Qed.

Lemma updates_speed q dts : Proj.speed (Proj.updates q dts) = Proj.speed q.
Proof.
  revert q; induction dts as [| dt dts IH]; intros q; simpl; [reflexivity |].
  rewrite IH. reflexivity.
Qed.

Lemma update_displacement q dt :
  vsub (Proj.pos (fst (Proj.update q dt))) (Proj.pos q)
  = vscale (Proj.direction q) (Proj.speed q * dt).
Proof.
  unfold Proj.update, vsub, vadd, vscale; simpl. f_equal; ring.
Qed.

(** C10.  The constructor gives a projectile the direction (1, 0) for a
    zero argument and the normalized argument otherwise; after any updates
    the direction is the one of the constructor and has length 1; an
    [update(dt)] moves the projectile by [speed * dt] times its direction, a
    step of length [|speed * dt|]; and scaling the argument of the
    constructor by a positive factor gives the same projectile. *)
Theorem projectile_direction_unit :
  forall (cfg : Config) (p d : Vector2) (sp : option R) (r : option Z)
         (hd ad lt : option R) (o : bool) (dts : list R) (dt : R),
    let p0 := Proj.init p d sp r hd ad lt o in
    let q := Proj.updates p0 dts in
    Proj.direction p0 = (if Reqb (length_squared d) 0 then V2 1 0 else normalize d) /\
    Proj.direction q = Proj.direction p0 /\
    vlength (Proj.direction q) = 1 /\
    vsub (Proj.pos (fst (Proj.update q dt))) (Proj.pos q)
      = vscale (Proj.direction q) (Proj.speed p0 * dt) /\
    vlength (vsub (Proj.pos (fst (Proj.update q dt))) (Proj.pos q))
      = Rabs (Proj.speed p0 * dt) /\
    (forall k, 0 < k ->
       Proj.init p (vscale d k) sp r hd ad lt o = p0).
Proof.
  intros cfg p d sp r hd ad lt o dts dt p0 q.
  assert (Hd : Proj.direction q = Proj.direction p0) by apply updates_direction.
  assert (Hs : Proj.speed q = Proj.speed p0) by apply updates_speed.
  assert (Hu : vlength (Proj.direction q) = 1)
    by (rewrite Hd; apply init_direction_unit).
  split; [reflexivity |]. split; [exact Hd |]. split; [exact Hu |].
  split; [rewrite update_displacement, Hs; reflexivity |].
  split.
  - rewrite update_displacement, vlength_vscale, Hu, Hs. ring.
  - intros k Hk. unfold p0, Proj.init.
    rewrite length_squared_vscale. unfold Reqb.
    destruct (Req_dec_T (length_squared d) 0) as [E | E].
    + rewrite E. destruct (Req_dec_T (k * k * 0) 0) as [_ | E']; [reflexivity | lra].
    + destruct (Req_dec_T (k * k * length_squared d) 0) as [E' | _].
      * exfalso. apply E. assert (0 < k * k) by nra. nra.
      * rewrite normalize_vscale by assumption. reflexivity.
Qed.

(** A shot along (3, 4), after two frames; the argument doubled. *)
Lemma projectile_direction_unit_witness :
  let p0 := @Proj.init Examples.config (V2 0 0) (V2 3 4) None None None None None false in
  let q := Proj.updates p0 [1 / 60; 1 / 60] in
  0 < 2 /\
  vlength (Proj.direction q) = 1 /\
  @Proj.init Examples.config (V2 0 0) (vscale (V2 3 4) 2) None None None None None false
    = p0.
Proof.
  destruct (projectile_direction_unit Examples.config (V2 0 0) (V2 3 4) None None
              None None None false [1 / 60; 1 / 60] (1 / 60))
    as (_ & _ & Hu & _ & _ & Hk).
  split; [lra |]. split; [exact Hu |]. apply Hk. lra.
Defined.

(** ** Damage routing (C3) *)

Lemma take_armor_damage_health s amount :
  health (hull (Fleet.take_armor_damage s amount)) = health (hull s).
Proof.
  unfold Fleet.take_armor_damage.
  destruct (class_of s); rewrite hull_map_hull; reflexivity.
Qed.

Lemma take_damage_armor s amount :
  armor (hull (Fleet.take_damage s amount)) = armor (hull s).
Proof.
  unfold Fleet.take_damage.
  destruct (class_of s); rewrite hull_map_hull; reflexivity.
Qed.

Lemma armored_true u :
  Utils.armored u = true <-> 0 < max_armor u /\ 0 < armor u.
Proof.
  unfold Utils.armored. rewrite andb_true_iff, !Rltb_true. tauto.
Qed.

Lemma armored_false u :
  Utils.armored u = false <-> max_armor u <= 0 \/ armor u <= 0.
Proof.
  unfold Utils.armored. rewrite andb_false_iff, !Rltb_false. tauto.
Qed.

(** The routing of a hit, by the sign of the maximal armour and of the
    armour of the unit. *)
Lemma route_damage_spec {methods : Methods} s armor_amount hull_amount :
  (0 < max_armor (hull s) /\ 0 < armor (hull s) ->
   Utils.route_damage s armor_amount hull_amount
   = call_take_armor_damage s armor_amount) /\
  (max_armor (hull s) <= 0 \/ armor (hull s) <= 0 ->
   Utils.route_damage s armor_amount hull_amount
   = call_take_damage s hull_amount).
Proof.
  unfold Utils.route_damage. split; intros H.
  - apply armored_true in H. rewrite H. reflexivity.
  - apply armored_false in H. rewrite H. reflexivity.
Qed.

Lemma route_damage_repo s armor_amount hull_amount :
  exists s', @Utils.route_damage repo_methods s armor_amount hull_amount = Returns s'
             /\ Damage.entire_hit s s' armor_amount hull_amount.
Proof.
  unfold Utils.route_damage, Damage.entire_hit.
  destruct (Utils.armored (hull s)) eqn:E; simpl; eexists; (split; [reflexivity |]).
  - split; intros H.
    + auto using take_armor_damage_health.
    + apply armored_false in H. congruence.
  - split; intros H.
    + apply armored_true in H. congruence.
    + auto using take_damage_armor.
Qed.

Lemma entire_hit_cases u u' armor_amount hull_amount :
  Damage.entire_hit u u' armor_amount hull_amount ->
  (Utils.armored (hull u) = true /\ u' = Fleet.take_armor_damage u armor_amount
   /\ health (hull u') = health (hull u)) \/
  (Utils.armored (hull u) = false /\ u' = Fleet.take_damage u hull_amount
   /\ armor (hull u') = armor (hull u)).
Proof.
  intros [Ha Hh]. destruct (Utils.armored (hull u)) eqn:E.
  - left. split; [reflexivity |]. apply Ha, armored_true, E.
  - right. split; [reflexivity |]. apply Hh, armored_false, E.
Qed.

Lemma hit_first_repo {engine : Engine} proj fleet :
  match @Utils.hit_first repo_methods engine proj fleet with
  | (fleet', Normal true) =>
      exists before p p' after,
        fleet = before ++ p :: after /\
        fleet' = before ++ p' :: after /\
        Forall (fun b => collides_with_shape proj (hull b) = false) before /\
        collides_with_shape proj (hull p) = true /\
        Damage.entire_hit p p' (Proj.armor_damage proj) (Proj.hull_damage proj)
  | (fleet', Normal false) =>
      fleet' = fleet /\
      Forall (fun b => collides_with_shape proj (hull b) = false) fleet
  | (_, Raised _) => False
  end.
Proof.
  induction fleet as [| s rest IH]; simpl.
  - split; [reflexivity | constructor].
  - destruct (collides_with_shape proj (hull s)) eqn:Hc.
    + destruct (route_damage_repo s (Proj.armor_damage proj) (Proj.hull_damage proj))
        as (s' & E & H).
      rewrite E.
      exists [], s, s', rest. auto 10.
    + destruct (Utils.hit_first proj rest) as [rest' [[|] | e]].
      * destruct IH as (before & p & p' & after & E1 & E2 & Hb & Hp & H).
        exists (s :: before), p, p', after. subst. auto 10.
      * destruct IH as [E H]. subst rest'. split; [reflexivity |].
        constructor; assumption.
      * exact IH.
Qed.

Lemma hit_first_reaches {methods : Methods} {engine : Engine}
    (proj : Proj.Projectile) (before : list Ship) (p : Ship) (after : list Ship) :
  Forall (fun b => collides_with_shape proj (hull b) = false) before ->
  collides_with_shape proj (hull p) = true ->
  Utils.hit_first proj (before ++ p :: after)
  = let c := Utils.route_damage p (Proj.armor_damage proj) (Proj.hull_damage proj) in
    (before ++ unit_after c :: after, (_ <- ending c ;; Normal true)).
Proof.
  intros Hb Hp. induction Hb as [| b before Hc _ IH]; simpl.
  - rewrite Hp.
    destruct (Utils.route_damage p (Proj.armor_damage proj) (Proj.hull_damage proj));
      reflexivity.
  - rewrite Hc, IH. reflexivity.
Qed.

(** C3.  A hit is one call, whatever the damage methods of the unit do.
    The first unit [p] of the opposing fleet that a projectile touches gets
    one call and the loop over the fleet ends with it: if [0 < max_armor]
    and [0 < armor] hold for [p], the call is [take_armor_damage] with the
    armour damage of the projectile; if [max_armor <= 0] or [armor <= 0],
    the call is [take_damage] with the hull damage of the projectile.  The
    units before [p] are not touched and the rest of the fleet is as it
    was.  Each of two units that touch in the residual collisions gets one
    call by the same rule, with the collision damage of the frame as the
    amount.  With the classes of the repository no call raises: the unit
    with positive maximal armour and armour is afterwards the result of
    [take_armor_damage] and its health is as before; the unit without is
    the result of [take_damage] and its armour is as before. *)
Theorem damage_routing :
  forall (cfg : Config) (engine : Engine),
    (forall (methods : Methods) (proj : Proj.Projectile)
            (before : list Ship) (p : Ship) (after : list Ship),
       Forall (fun b => collides_with_shape proj (hull b) = false) before ->
       collides_with_shape proj (hull p) = true ->
       (0 < max_armor (hull p) /\ 0 < armor (hull p) ->
        let c := call_take_armor_damage p (Proj.armor_damage proj) in
        Utils.hit_first proj (before ++ p :: after)
        = (before ++ unit_after c :: after, (_ <- ending c ;; Normal true))) /\
       (max_armor (hull p) <= 0 \/ armor (hull p) <= 0 ->
        let c := call_take_damage p (Proj.hull_damage proj) in
        Utils.hit_first proj (before ++ p :: after)
        = (before ++ unit_after c :: after, (_ <- ending c ;; Normal true)))) /\
    (forall (methods : Methods) (dt : R) (p e : Ship),
       collides_with (hull p) (hull e) = true ->
       exists cp ce : call,
         GameScreen.collision_damage_pair dt p e
         = (p' <- completed cp ;; e' <- completed ce ;; Normal (p', e')) /\
         (0 < max_armor (hull p) /\ 0 < armor (hull p) ->
          cp = call_take_armor_damage p (COLLISION_DPS * dt)) /\
         (max_armor (hull p) <= 0 \/ armor (hull p) <= 0 ->
          cp = call_take_damage p (COLLISION_DPS * dt)) /\
         (0 < max_armor (hull e) /\ 0 < armor (hull e) ->
          ce = call_take_armor_damage e (COLLISION_DPS * dt)) /\
         (max_armor (hull e) <= 0 \/ armor (hull e) <= 0 ->
          ce = call_take_damage e (COLLISION_DPS * dt))) /\
    (forall (proj : Proj.Projectile) (fleet : list Ship),
       match @Utils.hit_first repo_methods engine proj fleet with
       | (fleet', Normal true) =>
           exists before p p' after,
             fleet = before ++ p :: after /\
             fleet' = before ++ p' :: after /\
             Forall (fun b => collides_with_shape proj (hull b) = false) before /\
             collides_with_shape proj (hull p) = true /\
             (0 < max_armor (hull p) /\ 0 < armor (hull p) ->
              p' = Fleet.take_armor_damage p (Proj.armor_damage proj)
              /\ health (hull p') = health (hull p)) /\
             (max_armor (hull p) <= 0 \/ armor (hull p) <= 0 ->
              p' = Fleet.take_damage p (Proj.hull_damage proj)
              /\ armor (hull p') = armor (hull p))
       | (fleet', Normal false) =>
           fleet' = fleet /\
           Forall (fun b => collides_with_shape proj (hull b) = false) fleet
       | (_, Raised _) => False
       end) /\
    (forall (dt : R) (p e : Ship),
       if collides_with (hull p) (hull e)
       then exists p' e',
              @GameScreen.collision_damage_pair cfg repo_methods engine dt p e
                = Normal (p', e') /\
              Damage.entire_hit p p' (COLLISION_DPS * dt) (COLLISION_DPS * dt) /\
              Damage.entire_hit e e' (COLLISION_DPS * dt) (COLLISION_DPS * dt)
       else @GameScreen.collision_damage_pair cfg repo_methods engine dt p e
              = Normal (p, e)).
Proof.
  intros cfg engine. split; [| split; [| split]].
  - intros methods proj before p after Hb Hp.
    pose proof (hit_first_reaches proj before p after Hb Hp) as H.
    destruct (route_damage_spec p (Proj.armor_damage proj) (Proj.hull_damage proj))
      as [Ha Hh].
    split; intros Hp'; cbv zeta in *.
    + rewrite H, (Ha Hp'). reflexivity.
    + rewrite H, (Hh Hp'). reflexivity.
  - intros methods dt p e Hc. unfold GameScreen.collision_damage_pair.
    rewrite Hc.
    exists (Utils.route_damage p (COLLISION_DPS * dt) (COLLISION_DPS * dt)),
           (Utils.route_damage e (COLLISION_DPS * dt) (COLLISION_DPS * dt)).
    split; [reflexivity |].
    destruct (route_damage_spec p (COLLISION_DPS * dt) (COLLISION_DPS * dt)).
    destruct (route_damage_spec e (COLLISION_DPS * dt) (COLLISION_DPS * dt)).
    auto.
  - intros proj fleet. pose proof (hit_first_repo proj fleet) as H.
    destruct (Utils.hit_first proj fleet) as [fleet' [[|] | x]]; auto.
  - intros dt p e. unfold GameScreen.collision_damage_pair.
    destruct (collides_with (hull p) (hull e)); [| reflexivity].
    destruct (route_damage_repo p (COLLISION_DPS * dt) (COLLISION_DPS * dt))
      as (p' & Ep & Hp).
    destruct (route_damage_repo e (COLLISION_DPS * dt) (COLLISION_DPS * dt))
      as (e' & Ee & He).
    exists p', e'. rewrite Ep; simpl. rewrite Ee; simpl. auto.
Qed.

(** The four routes on units: the piercing shot passes the scout and hits
    the frigate, whose maximal armour 50 and armour 40 are positive, on the
    armour; it hits the frigate without armour left on the hull; the shot
    hits the flagship, which has no armour, on the hull; the frigate and
    the pirate in touch take the collision damage of the frame, the frigate
    on the armour and the pirate, which has no armour, on the hull. *)
Lemma damage_routing_witness :
  (@Utils.hit_first repo_methods Examples.engine Examples.piercing_shot
     ([Craft Examples.scout] ++ Craft Examples.escort :: [])
   = ([Craft Examples.scout]
      ++ Fleet.take_armor_damage (Craft Examples.escort) 15 :: [], Normal true)) /\
  (@Utils.hit_first repo_methods Examples.engine Examples.piercing_shot
     ([] ++ Craft Examples.stripped :: [Craft Examples.scout])
   = ([] ++ Fleet.take_damage (Craft Examples.stripped) 50 :: [Craft Examples.scout],
      Normal true)) /\
  (@Utils.hit_first repo_methods Examples.engine Examples.shot
     ([Craft Examples.scout] ++ Craft Examples.flagship :: [])
   = ([Craft Examples.scout] ++ Fleet.take_damage (Craft Examples.flagship) 50 :: [],
      Normal true)) /\
  (@GameScreen.collision_damage_pair Examples.config repo_methods Examples.engine
     (1 / 10) (Craft Examples.escort) (Craft Examples.pirate)
   = Normal (Fleet.take_armor_damage (Craft Examples.escort) (20 * (1 / 10)),
             Fleet.take_damage (Craft Examples.pirate) (20 * (1 / 10)))).
Proof.
  destruct (damage_routing Examples.config Examples.engine) as (Hshot & Htouch & _).
  split; [| split; [| split]].
  - refine (proj1 (Hshot repo_methods Examples.piercing_shot [Craft Examples.scout]
                     (Craft Examples.escort) [] _ _) _).
    + constructor; [| constructor]. run_R. reflexivity.
    + run_R. reflexivity.
    + simpl. lra.
  - refine (proj2 (Hshot repo_methods Examples.piercing_shot []
                     (Craft Examples.stripped) [Craft Examples.scout] _ _) _).
    + constructor.
    + run_R. reflexivity.
    + simpl. lra.
  - refine (proj2 (Hshot repo_methods Examples.shot [Craft Examples.scout]
                     (Craft Examples.flagship) [] _ _) _).
    + constructor; [| constructor]. run_R. reflexivity.
    + run_R. reflexivity.
    + simpl. lra.
  - destruct (Htouch repo_methods (1 / 10) (Craft Examples.escort)
                (Craft Examples.pirate)) as (cp & ce & E & Hpa & _ & _ & Heh).
    + run_R. reflexivity.
    + rewrite E, Hpa, Heh; [reflexivity | simpl; lra | simpl; lra].
Defined.

(** The scenario of the spec: the flagship with health 1000 and no armour is
    hit by an enemy shot of 50 hull damage; its health becomes 950 and the
    shot leaves the group. *)
Example flagship_hit :
  exists s,
    @Utils.handle_projectile_collisions repo_methods Examples.engine
      [Examples.shot] [Craft Examples.flagship] [] = Normal ([], [s], [])
    /\ health (hull s) = 950 /\ armor (hull s) = 0.
Proof.
  eexists. split.
  - unfold Utils.handle_projectile_collisions, Utils.for_each,
      Utils.resolve_projectile, Utils.resolve_body,
      Utils.try_except, Utils.hit_first, Utils.route_damage, Utils.armored.
    run_R. reflexivity.
  - run_R. split; unfold Rmax; rcase; lra.
Qed.

(** The frigate with 40 of 50 armour and health 200 is hit by an enemy shot
    of 15 armour damage and 50 hull damage: its armour becomes 25, its
    health stays 200 and the shot leaves the group.  With its armour used
    up the same shot takes 50 of its health and its armour stays 0. *)
Example escort_hit :
  (exists s,
     @Utils.handle_projectile_collisions repo_methods Examples.engine
       [Examples.piercing_shot] [Craft Examples.scout; Craft Examples.escort] []
     = Normal ([], [Craft Examples.scout; s], [])
     /\ armor (hull s) = 25 /\ health (hull s) = 200) /\
  (exists s,
     @Utils.handle_projectile_collisions repo_methods Examples.engine
       [Examples.piercing_shot] [Craft Examples.stripped] []
     = Normal ([], [s], [])
     /\ armor (hull s) = 0 /\ health (hull s) = 150).
Proof.
  split; eexists; (split; [| split]).
  - unfold Utils.handle_projectile_collisions, Utils.for_each,
      Utils.resolve_projectile, Utils.resolve_body,
      Utils.try_except, Utils.hit_first, Utils.route_damage, Utils.armored.
    run_R. reflexivity.
  - run_R. unfold Rmax; rcase; lra.
  - run_R. reflexivity.
  - unfold Utils.handle_projectile_collisions, Utils.for_each,
      Utils.resolve_projectile, Utils.resolve_body,
      Utils.try_except, Utils.hit_first, Utils.route_damage, Utils.armored.
    run_R. reflexivity.
  - run_R. reflexivity.
  - run_R. unfold Rmax; rcase; lra.
Qed.

(** ** Exceptions in the core state transitions (C9) *)


Section Exceptions.
Context {cfg : Config} {methods : Methods} {engine : Engine}.

(** One turn of the loop over the projectiles, by what the body does: the
    projectile stays in the group only when the body returns without a
    hit. *)
Lemma resolve_projectile_spec proj group pf ef :
  Utils.resolve_projectile proj (group, pf, ef)
  = let '((pf', ef'), r) := Utils.resolve_body proj (pf, ef) in
    Normal (match r with
            | Normal false => group ++ [proj]
            | _ => group
            end, pf', ef').
Proof.
  unfold Utils.resolve_projectile, Utils.try_except.
  destruct (Utils.resolve_body proj (pf, ef)) as [[pf' ef'] [[|] | e]]; reflexivity.
Qed.






End Exceptions.






(** ** The frame: pruning, residual collisions and targets (C4, C5) *)

Lemma bind_normal {A B : Type} (c : outcome A) (k : A -> outcome B) (b : B) :
  bind c k = Normal b -> exists a, c = Normal a /\ k a = Normal b.
Proof. destruct c as [a | e]; simpl; intros H; [eauto | discriminate]. Qed.

Lemma uid_map_hull (f : SpaceUnit -> SpaceUnit) (s : Ship) :
  (forall u, uid (f u) = uid u) -> uid (hull (map_hull f s)) = uid (hull s).
Proof. intros H. rewrite hull_map_hull. apply H. Qed.

Lemma uids_map (f : Ship -> Ship) (l : list Ship) :
  (forall s, uid (hull (f s)) = uid (hull s)) ->
  Frames.uids (map f l) = Frames.uids l.
Proof.
  intros H. unfold Frames.uids. rewrite map_map. apply map_ext. exact H.
Qed.

Lemma uids_app l1 l2 : Frames.uids (l1 ++ l2) = Frames.uids l1 ++ Frames.uids l2.
Proof. apply map_app. Qed.

Lemma in_uids (id : nat) (l : list Ship) :
  In id (Frames.uids l) <-> exists s, In s l /\ uid (hull s) = id.
Proof.
  unfold Frames.uids. rewrite in_map_iff. split; intros (s & H1 & H2); eauto.
Qed.

Lemma take_damage_uid s amount :
  uid (hull (Fleet.take_damage s amount)) = uid (hull s).
Proof.
  unfold Fleet.take_damage. destruct (class_of s); rewrite hull_map_hull; reflexivity.
Qed.

Lemma take_armor_damage_uid s amount :
  uid (hull (Fleet.take_armor_damage s amount)) = uid (hull s).
Proof.
  unfold Fleet.take_armor_damage.
  destruct (class_of s); rewrite hull_map_hull; reflexivity.
Qed.

Lemma route_damage_repo_uid s a h s' :
  completed (@Utils.route_damage repo_methods s a h) = Normal s' ->
  uid (hull s') = uid (hull s).
Proof.
  unfold Utils.route_damage. destruct (Utils.armored (hull s)); simpl; intros H;
    inversion H; subst; auto using take_damage_uid, take_armor_damage_uid.
Qed.

Lemma pair_row_uids body (Hbody : Frames.keeps_uids body) :
  forall bs a a' bs',
    GameScreen.pair_row body a bs = Normal (a', bs') ->
    uid (hull a') = uid (hull a) /\ Frames.uids bs' = Frames.uids bs.
Proof.
  induction bs as [| b bs IH]; intros a a' bs' H; simpl in H.
  - inversion H; subst; auto.
  - apply bind_normal in H. destruct H as ([a1 b1] & E1 & H).
    apply bind_normal in H. destruct H as ([a2 bs2] & E2 & H).
    inversion H; subst.
    destruct (Hbody _ _ _ _ E1) as [U1 U2].
    destruct (IH _ _ _ E2) as [U3 U4].
    split; [congruence |]. simpl. rewrite U2, U4. reflexivity.
Qed.

Lemma pair_cross_uids body (Hbody : Frames.keeps_uids body) :
  forall fa fb fa' fb',
    GameScreen.pair_cross body fa fb = Normal (fa', fb') ->
    Frames.uids fa' = Frames.uids fa /\ Frames.uids fb' = Frames.uids fb.
Proof.
  induction fa as [| a rest IH]; intros fb fa' fb' H; simpl in H.
  - inversion H; subst; auto.
  - apply bind_normal in H. destruct H as ([a1 fb1] & E1 & H).
    apply bind_normal in H. destruct H as ([rest2 fb2] & E2 & H).
    inversion H; subst.
    destruct (pair_row_uids body Hbody _ _ _ _ E1) as [U1 U2].
    destruct (IH _ _ _ E2) as [U3 U4].
    split; [simpl; congruence | congruence].
Qed.

Lemma pair_within_upto_uids body (Hbody : Frames.keeps_uids body) :
  forall n fleet fleet',
    GameScreen.pair_within_upto n body fleet = Normal fleet' ->
    Frames.uids fleet' = Frames.uids fleet.
Proof.
  induction n as [| n IH]; intros fleet fleet' H; simpl in H.
  - inversion H; reflexivity.
  - destruct fleet as [| a rest]; [inversion H; reflexivity |].
    apply bind_normal in H. destruct H as ([a1 rest1] & E1 & H).
    apply bind_normal in H. destruct H as (rest2 & E2 & H).
    inversion H; subst.
    destruct (pair_row_uids body Hbody _ _ _ _ E1) as [U1 U2].
    specialize (IH _ _ E2). simpl. congruence.
Qed.

Section FrameFacts.
Context {cfg : Config} {engine : Engine}.

Lemma separate_keeps_uids : Frames.keeps_uids GameScreen.separate.
Proof.
  intros a b a' b' H. unfold GameScreen.separate in H.
  destruct (separate_rotated (hull a) (hull b)) as [pa pb].
  inversion H; subst. split; apply uid_map_hull; reflexivity.
Qed.

Lemma separate_same_size_keeps_uids : Frames.keeps_uids GameScreen.separate_same_size.
Proof.
  intros a b a' b' H. unfold GameScreen.separate_same_size in H.
  destruct (is_light a && is_light b);
    [apply separate_keeps_uids in H; exact H |].
  destruct (negb (is_light a) && negb (is_light b));
    [apply separate_keeps_uids in H; exact H |].
  inversion H; subst; auto.
Qed.

Lemma collision_damage_pair_keeps_uids dt :
  Frames.keeps_uids (@GameScreen.collision_damage_pair cfg repo_methods engine dt).
Proof.
  intros a b a' b' H. unfold GameScreen.collision_damage_pair in H.
  destruct (collides_with (hull a) (hull b)); [| inversion H; subst; auto].
  apply bind_normal in H. destruct H as (a1 & E1 & H).
  apply bind_normal in H. destruct H as (b1 & E2 & H).
  inversion H; subst.
  split; eapply route_damage_repo_uid; eassumption.
Qed.

Lemma separation_pass_uids fleets fleets' :
  GameScreen.separation_pass fleets = Normal fleets' ->
  Frames.uids (fst fleets') = Frames.uids (fst fleets) /\
  Frames.uids (snd fleets') = Frames.uids (snd fleets).
Proof.
  destruct fleets as [pf ef]. unfold GameScreen.separation_pass. intros H.
  apply bind_normal in H. destruct H as (pf1 & E1 & H).
  apply bind_normal in H. destruct H as (ef1 & E2 & H).
  destruct fleets' as [pf2 ef2].
  apply (pair_cross_uids _ separate_keeps_uids) in H. destruct H as [U1 U2].
  apply (pair_within_upto_uids _ separate_same_size_keeps_uids) in E1.
  apply (pair_within_upto_uids _ separate_keeps_uids) in E2.
  simpl. split; congruence.
Qed.

Lemma repeat_pass_uids n :
  forall fleets fleets',
    GameScreen.repeat_pass n fleets = Normal fleets' ->
    Frames.uids (fst fleets') = Frames.uids (fst fleets) /\
    Frames.uids (snd fleets') = Frames.uids (snd fleets).
Proof.
  induction n as [| n IH]; intros fleets fleets' H; simpl in H.
  - inversion H; subst; auto.
  - apply bind_normal in H. destruct H as (f1 & E1 & H).
    apply separation_pass_uids in E1. apply IH in H.
    destruct E1, H. split; congruence.
Qed.

Lemma handle_collisions_uids pf ef dt pf' ef' :
  @GameScreen.handle_collisions cfg repo_methods engine pf ef dt = Normal (pf', ef') ->
  Frames.uids pf' = Frames.uids pf /\ Frames.uids ef' = Frames.uids ef.
Proof.
  unfold GameScreen.handle_collisions. intros H.
  apply bind_normal in H. destruct H as (f1 & E1 & H).
  apply repeat_pass_uids in E1. simpl in E1.
  apply (pair_cross_uids _ (collision_damage_pair_keeps_uids dt)) in H.
  destruct E1, H. split; congruence.
Qed.

End FrameFacts.

Lemma NoDup_map_in_inj {A B : Type} (f : A -> B) (l : list A) (a b : A) :
  NoDup (map f l) -> In a l -> In b l -> f a = f b -> a = b.
Proof.
  induction l as [| x l IH]; simpl; intros Hnd Ha Hb Hf; [contradiction |].
  inversion Hnd as [| ? ? Hx Hl]; subst.
  destruct Ha as [-> | Ha], Hb as [-> | Hb]; auto.
  - exfalso. apply Hx. rewrite Hf. apply in_map; exact Hb.
  - exfalso. apply Hx. rewrite <- Hf. apply in_map; exact Ha.
Qed.

Lemma min_by_in {A : Type} (key : A -> R) (l : list A) :
  forall x, In (Utils.min_by key x l) (x :: l).
Proof.
  induction l as [| y l IH]; intros x; simpl; [auto |].
  destruct (IH (if Rltb (key y) (key x) then y else x)) as [H | H].
  - destruct (Rltb (key y) (key x)); rewrite <- H; auto.
  - auto.
Qed.

Lemma nearest_in (s : SpaceUnit) (fleet : list Ship) (t : Ship) :
  Utils.nearest s fleet = Some t -> In t fleet.
Proof.
  unfold Utils.nearest. destruct fleet as [| x l]; [discriminate |].
  intros H; inversion H; subst. apply min_by_in.
Qed.

Section FrameFacts2.
Context {cfg : Config} {engine : Engine}.

Lemma auto_fire_one_uid s targets owner sf :
  uid (hull (fst (Utils.auto_fire_one s targets owner sf))) = uid (hull s).
Proof.
  unfold Utils.auto_fire_one.
  destruct (Rleb (bullet_damage (hull s)) 0); [reflexivity |].
  destruct (Utils.nearest (hull s) targets); [| reflexivity].
  destruct (is_target_in_range _ _ && ready_to_fire _); [| reflexivity].
  simpl. apply uid_map_hull. reflexivity.
Qed.

Lemma auto_fire_loop_uids targets owner sf :
  forall source group,
    Frames.uids (fst (Utils.auto_fire_loop source targets group owner sf))
    = Frames.uids source.
Proof.
  induction source as [| s rest IH]; intros group; simpl; [reflexivity |].
  pose proof (auto_fire_one_uid s targets owner sf) as U.
  destruct (Utils.auto_fire_one s targets owner sf) as [s' fired]; simpl in U.
  match goal with
  | |- context [Utils.auto_fire_loop rest targets ?g owner sf] =>
      specialize (IH g);
      destruct (Utils.auto_fire_loop rest targets g owner sf) as [rest' g']
  end.
  simpl in *. congruence.
Qed.

Lemma handle_auto_fire_uids source targets group owner sf :
  Frames.uids (fst (Utils.handle_auto_fire source targets group owner sf))
  = Frames.uids source.
Proof.
  unfold Utils.handle_auto_fire. destruct targets; [reflexivity |].
  apply auto_fire_loop_uids.
Qed.

Lemma hit_first_uids proj fleet :
  Frames.uids (fst (@Utils.hit_first repo_methods engine proj fleet))
  = Frames.uids fleet.
Proof.
  pose proof (hit_first_repo proj fleet) as R.
  destruct (Utils.hit_first proj fleet) as [fleet' [[|] | e]]; simpl.
  - destruct R as (before & p & p' & after & E1 & E2 & _ & _ & Hhit). subst.
    rewrite !uids_app. simpl. f_equal. f_equal.
    destruct (entire_hit_cases _ _ _ _ Hhit) as [(_ & -> & _) | (_ & -> & _)];
      auto using take_damage_uid, take_armor_damage_uid.
  - destruct R as [-> _]. reflexivity.
  - contradiction.
Qed.

Lemma resolve_projectile_uids proj group pf ef group' pf' ef' :
  @Utils.resolve_projectile repo_methods engine proj (group, pf, ef)
    = Normal (group', pf', ef') ->
  Frames.uids pf' = Frames.uids pf /\ Frames.uids ef' = Frames.uids ef.
Proof.
  rewrite resolve_projectile_spec. unfold Utils.resolve_body.
  destruct (Proj.owner_is_enemy proj).
  - pose proof (hit_first_uids proj pf) as U.
    destruct (Utils.hit_first proj pf) as [pf1 r]; simpl in *; intros H;
      inversion H; subst; auto.
  - pose proof (hit_first_uids proj ef) as U.
    destruct (Utils.hit_first proj ef) as [ef1 r]; simpl in *; intros H;
      inversion H; subst; auto.
Qed.

Lemma for_each_resolve_uids projs :
  forall group pf ef group' pf' ef',
    Utils.for_each projs (@Utils.resolve_projectile repo_methods engine)
      (group, pf, ef) = Normal (group', pf', ef') ->
    Frames.uids pf' = Frames.uids pf /\ Frames.uids ef' = Frames.uids ef.
Proof.
  induction projs as [| proj rest IH]; intros group pf ef group' pf' ef' H;
    simpl in H.
  - inversion H; subst; auto.
  - apply bind_normal in H. destruct H as ([[g1 pf1] ef1] & E1 & H).
    apply resolve_projectile_uids in E1. apply IH in H.
    destruct E1, H. split; congruence.
Qed.

Lemma same_units_refl w : Frames.same_units w w.
Proof. split; reflexivity. Qed.

Lemma same_units_trans w1 w2 w3 :
  Frames.same_units w1 w2 -> Frames.same_units w2 w3 -> Frames.same_units w1 w3.
Proof. intros [A B] [C D]. split; congruence. Qed.

Lemma update_cooldowns_units w dt :
  Frames.same_units w (GameScreen.update_cooldowns w dt).
Proof.
  split; simpl; apply uids_map; intros s; apply uid_map_hull; reflexivity.
Qed.

Lemma move_uid dt s : uid (hull (GameScreen.move dt s)) = uid (hull s).
Proof. apply uid_map_hull; reflexivity. Qed.

Lemma move_players_units w dt : Frames.same_units w (GameScreen.move_players w dt).
Proof. split; simpl; [apply uids_map, move_uid | reflexivity]. Qed.

Lemma steer_enemy_uid pf dt e : uid (hull (GameScreen.steer_enemy pf dt e)) = uid (hull e).
Proof.
  unfold GameScreen.steer_enemy. rewrite move_uid.
  destruct (Utils.nearest (hull e) pf); [| reflexivity].
  destruct (Rltb _ _); apply uid_map_hull; reflexivity.
Qed.

Lemma steer_enemies_units w dt : Frames.same_units w (GameScreen.steer_enemies w dt).
Proof. split; simpl; [reflexivity | apply uids_map, steer_enemy_uid]. Qed.

Lemma auto_fire_units w : Frames.same_units w (GameScreen.auto_fire w).
Proof.
  unfold GameScreen.auto_fire.
  pose proof (handle_auto_fire_uids (GameScreen.player_fleet w)
                (GameScreen.enemy_fleet w) (GameScreen.projectile_group w) false 1) as U1.
  destruct (Utils.handle_auto_fire (GameScreen.player_fleet w) _ _ false 1)
    as [pf g] eqn:E1.
  pose proof (handle_auto_fire_uids (GameScreen.enemy_fleet w) pf g true (9 / 10)) as U2.
  destruct (Utils.handle_auto_fire (GameScreen.enemy_fleet w) pf g true (9 / 10))
    as [ef g'] eqn:E2.
  split; simpl in *; assumption.
Qed.

Lemma advance_projectiles_units w dt :
  Frames.same_units w (GameScreen.advance_projectiles w dt).
Proof. split; reflexivity. Qed.

Lemma resolve_hits_units w w' :
  @GameScreen.resolve_hits repo_methods engine w = Normal w' -> Frames.same_units w w'.
Proof.
  unfold GameScreen.resolve_hits. intros H.
  apply bind_normal in H. destruct H as ([[g pf] ef] & E & H).
  inversion H; subst; clear H.
  apply for_each_resolve_uids in E. exact E.
Qed.

Lemma simulate_units w dt w1 :
  @GameScreen.simulate cfg repo_methods engine w dt = Normal w1 ->
  Frames.same_units w w1.
Proof.
  unfold GameScreen.simulate. intros H. apply resolve_hits_units in H.
  eapply same_units_trans; [| exact H].
  eapply same_units_trans; [| apply advance_projectiles_units].
  eapply same_units_trans; [| apply auto_fire_units].
  eapply same_units_trans; [| apply steer_enemies_units].
  eapply same_units_trans; [| apply move_players_units].
  apply update_cooldowns_units.
Qed.

Lemma report_dead_crafts_fleets w w2 :
  GameScreen.report_dead_crafts w = Normal w2 ->
  GameScreen.player_fleet w2 = GameScreen.player_fleet w /\
  GameScreen.enemy_fleet w2 = GameScreen.enemy_fleet w /\
  GameScreen.projectile_group w2 = GameScreen.projectile_group w /\
  GameScreen.main_player w2 = GameScreen.main_player w.
Proof.
  unfold GameScreen.report_dead_crafts. intros H.
  apply bind_normal in H. destruct H as (h & _ & H).
  inversion H; subst; simpl; auto.
Qed.

End FrameFacts2.

(** Evaluation of the phases of a frame on given worlds, one phase at a
    time. *)
Ltac eval_as t :=
  let E := fresh "E" in
  eassert (E : t = _) by (run_R; reflexivity); rewrite E; clear E.

Ltac eval_phase :=
  match goal with
  | |- context [GameScreen.update_cooldowns ?w ?dt] =>
      eval_as (GameScreen.update_cooldowns w dt)
  | |- context [@GameScreen.move_players ?e ?w ?dt] =>
      eval_as (@GameScreen.move_players e w dt)
  | |- context [@GameScreen.steer_enemies ?e ?w ?dt] =>
      eval_as (@GameScreen.steer_enemies e w dt)
  | |- context [@GameScreen.auto_fire ?c ?w] =>
      eval_as (@GameScreen.auto_fire c w)
  | |- context [GameScreen.advance_projectiles ?w ?dt] =>
      eval_as (GameScreen.advance_projectiles w dt)
  | |- context [@GameScreen.resolve_hits ?m ?e ?w] =>
      eval_as (@GameScreen.resolve_hits m e w)
  | |- context [GameScreen.report_dead_crafts ?w] =>
      eval_as (GameScreen.report_dead_crafts w)
  | |- context [GameScreen.prune ?w] =>
      eval_as (GameScreen.prune w)
  | |- context [GameScreen.main_player_dead ?w] =>
      eval_as (GameScreen.main_player_dead w)
  | |- context [@GameScreen.residual_collisions ?c ?m ?e ?w ?dt] =>
      eval_as (@GameScreen.residual_collisions c m e w dt)
  | |- context [@Utils.handle_auto_fire ?c ?s ?t ?g ?o ?f] =>
      eval_as (@Utils.handle_auto_fire c s t g o f)
  | |- context [@Frames.auto_fire_targets ?c ?s ?t ?o ?f] =>
      eval_as (@Frames.auto_fire_targets c s t o f)
  | |- context [@Frames.enemy_ai_targets ?s ?t] =>
      eval_as (@Frames.enemy_ai_targets s t)
  end; cbv beta iota zeta delta [bind].

Ltac eval_frame :=
  unfold GameScreen.frame, Frames.fleets_at_residual, Frames.targets_in_frame,
    Frames.fired_upon_in_frame, Frames.world_at_auto_fire, GameScreen.simulate;
  cbv zeta; repeat eval_phase.

(** The enemy shot kills the scout during the resolution of the hits.  The
    scout touches the pirate, yet it is not in the fleet that the residual
    [handle_collisions] of that frame receives, and the pirate ends the
    frame with its health untouched. *)
Lemma killed_by_shot_not_at_residual :
  exists w1 s e pf ef w',
    @GameScreen.simulate Examples.config repo_methods Examples.engine
      Examples.skirmish_under_fire (1 / 10) = Normal w1 /\
    In s (GameScreen.player_fleet w1) /\
    uid (hull s) = 1%nat /\ health (hull s) <= 0 /\
    In e (GameScreen.enemy_fleet w1) /\
    collides_with (Engine := Examples.engine) (hull s) (hull e) = true /\
    @Frames.fleets_at_residual Examples.config repo_methods Examples.engine
      Examples.skirmish_under_fire (1 / 10) = Some (pf, ef) /\
    ~ In 1%nat (Frames.uids pf) /\
    @GameScreen.frame Examples.config repo_methods Examples.engine
      Examples.skirmish_under_fire (1 / 10) = Normal (GameScreen.Running w') /\
    Frames.uids (GameScreen.player_fleet w') = [0%nat] /\
    Forall (fun e' => health (hull e') = 100) (GameScreen.enemy_fleet w').
Proof.
  do 6 eexists.
  split; [eval_frame; reflexivity |].
  split; [right; left; reflexivity |].
  split; [reflexivity |].
  split; [cbn; unfold Rmax; rcase; lra |].
  split; [left; reflexivity |].
  split; [run_R; reflexivity |].
  split; [eval_frame; reflexivity |].
  split; [cbn; intros [H | []]; discriminate |].
  split; [eval_frame; reflexivity |].
  split; [reflexivity |].
  repeat constructor.
Qed.

(** C4, amended.  The dead units are filtered once in a frame, after the
    projectile hits and before the residual collisions: the fleets that the
    residual [handle_collisions] receives are the fleets after the hits
    without the units of health [<= 0], so a unit that a projectile has
    killed is not among them; and the frame, when the game goes on, is that
    [handle_collisions] on those fleets. *)
Theorem pruning_precedes_residual_collisions :
  forall (cfg : Config) (methods : Methods) (engine : Engine)
         (w : GameScreen.World) (dt : R) (w1 w2 : GameScreen.World),
    GameScreen.simulate w dt = Normal w1 ->
    GameScreen.report_dead_crafts w1 = Normal w2 ->
    Frames.fleets_at_residual w dt
      = Some (filter GameScreen.is_alive (GameScreen.player_fleet w1),
              filter GameScreen.is_alive (GameScreen.enemy_fleet w1)) /\
    (forall s, In s (Frames.ships w1) -> health (hull s) <= 0 ->
       ~ In s (filter GameScreen.is_alive (GameScreen.player_fleet w1)
               ++ filter GameScreen.is_alive (GameScreen.enemy_fleet w1))) /\
    (GameScreen.main_player_dead w2 = false ->
     GameScreen.frame w dt
       = (fleets <- GameScreen.handle_collisions
                      (filter GameScreen.is_alive (GameScreen.player_fleet w1))
                      (filter GameScreen.is_alive (GameScreen.enemy_fleet w1)) dt ;;
          Normal (GameScreen.Running
                    (GameScreen.mkWorld (fst fleets) (snd fleets)
                       (GameScreen.projectile_group w1) (GameScreen.main_player w1)
                       (GameScreen.hangar w2))))).
Proof.
  intros cfg methods engine w dt w1 w2 H1 H2.
  destruct (report_dead_crafts_fleets w1 w2 H2) as (F1 & F2 & F3 & F4).
  split; [| split].
  - unfold Frames.fleets_at_residual. rewrite H1, H2. simpl. rewrite F1, F2.
    reflexivity.
  - intros s _ Hdead Hin. rewrite <- filter_app in Hin.
    apply filter_In in Hin. destruct Hin as [_ Halive].
    unfold GameScreen.is_alive in Halive. apply Rltb_true in Halive. lra.
  - intros Hmp. unfold GameScreen.frame. rewrite H1; simpl. rewrite H2; simpl.
    rewrite Hmp. unfold GameScreen.residual_collisions. simpl.
    rewrite F1, F2, F3, F4.
    destruct (GameScreen.handle_collisions _ _ dt) as [[pf ef] | e]; reflexivity.
Qed.

Lemma pruning_precedes_residual_collisions_witness :
  exists w1 w2,
    @GameScreen.simulate Examples.config repo_methods Examples.engine
      Examples.skirmish_under_fire (1 / 10) = Normal w1 /\
    GameScreen.report_dead_crafts w1 = Normal w2 /\
    @Frames.fleets_at_residual Examples.config repo_methods Examples.engine
      Examples.skirmish_under_fire (1 / 10)
      = Some (filter GameScreen.is_alive (GameScreen.player_fleet w1),
              filter GameScreen.is_alive (GameScreen.enemy_fleet w1)).
Proof.
  eassert (H1 : @GameScreen.simulate Examples.config repo_methods Examples.engine
                  Examples.skirmish_under_fire (1 / 10) = Normal _).
  { eval_frame. reflexivity. }
  match type of H1 with
  | _ = Normal ?w1 =>
      eassert (H2 : GameScreen.report_dead_crafts w1 = Normal _)
        by (eval_frame; reflexivity);
      exists w1
  end.
  match type of H2 with _ = Normal ?w2 => exists w2 end.
  split; [exact H1 |]. split; [exact H2 |].
  exact (proj1 (pruning_precedes_residual_collisions Examples.config repo_methods
                  Examples.engine _ _ _ _ H1 H2)).
Defined.

Section FrameFacts3.
Context {cfg : Config} {engine : Engine}.

Lemma uids_filter_incl (f : Ship -> bool) (l : list Ship) :
  incl (Frames.uids (filter f l)) (Frames.uids l).
Proof.
  intros id H. apply in_uids in H. destruct H as (s & Hs & <-).
  apply filter_In in Hs. apply in_uids. exists s. tauto.
Qed.

Lemma uids_ships w :
  Frames.uids (Frames.ships w)
  = Frames.uids (GameScreen.player_fleet w) ++ Frames.uids (GameScreen.enemy_fleet w).
Proof. apply uids_app. Qed.

Lemma same_units_ships w w' :
  Frames.same_units w w' -> Frames.uids (Frames.ships w') = Frames.uids (Frames.ships w).
Proof. intros [A B]. rewrite !uids_ships. congruence. Qed.

(** The fleets after a frame are the units that were alive at its pruning
    phase. *)
Lemma frame_running_units w dt w1 w' :
  @GameScreen.simulate cfg repo_methods engine w dt = Normal w1 ->
  @GameScreen.frame cfg repo_methods engine w dt = Normal (GameScreen.Running w') ->
  Frames.uids (Frames.ships w')
  = Frames.uids (filter GameScreen.is_alive (Frames.ships w1)).
Proof.
  intros H1 H. unfold GameScreen.frame in H. rewrite H1 in H; simpl in H.
  apply bind_normal in H. destruct H as (w2 & H2 & H).
  destruct (report_dead_crafts_fleets w1 w2 H2) as (F1 & F2 & _).
  destruct (GameScreen.main_player_dead w2); [discriminate |].
  apply bind_normal in H. destruct H as (w4 & H4 & H).
  inversion H; subst; clear H.
  unfold GameScreen.residual_collisions in H4.
  apply bind_normal in H4. destruct H4 as ([pf ef] & Hc & H4).
  inversion H4; subst; clear H4.
  apply handle_collisions_uids in Hc. destruct Hc as [U1 U2]. simpl in U1, U2.
  unfold Frames.ships; simpl. rewrite filter_app, !uids_app, U1, U2, F1, F2.
  reflexivity.
Qed.

Lemma frame_shrinks w dt w' :
  @GameScreen.frame cfg repo_methods engine w dt = Normal (GameScreen.Running w') ->
  incl (Frames.uids (Frames.ships w')) (Frames.uids (Frames.ships w)).
Proof.
  intros H. destruct (@GameScreen.simulate cfg repo_methods engine w dt) as [w1 | e] eqn:H1.
  - rewrite (frame_running_units w dt w1 w' H1 H).
    rewrite <- (same_units_ships w w1 (simulate_units w dt w1 H1)).
    apply uids_filter_incl.
  - unfold GameScreen.frame in H. rewrite H1 in H. discriminate.
Qed.

Lemma frames_shrink dts :
  forall w w'',
    @Frames.frames cfg repo_methods engine w dts = Some w'' ->
    incl (Frames.uids (Frames.ships w'')) (Frames.uids (Frames.ships w)).
Proof.
  induction dts as [| dt dts IH]; intros w w'' H; simpl in H.
  - inversion H; subst. apply incl_refl.
  - destruct (@GameScreen.frame cfg repo_methods engine w dt) as [[w' | r] | e] eqn:E;
      try discriminate.
    eapply incl_tran; [apply IH; exact H | apply frame_shrinks with dt; exact E].
Qed.

Lemma auto_fire_targets_incl source targets owner sf :
  incl (Frames.auto_fire_targets source targets owner sf) (Frames.uids targets).
Proof.
  intros id H. unfold Frames.auto_fire_targets in H.
  apply in_flat_map in H. destruct H as (s & _ & H).
  destruct (Utils.auto_fire_one s targets owner sf) as [s' [proj |]]; [| contradiction].
  destruct (Utils.nearest (hull s) targets) as [t |] eqn:E; [| contradiction].
  destruct H as [<- | []]. apply in_uids. exists t. split; [| reflexivity].
  eapply nearest_in; exact E.
Qed.

Lemma enemy_ai_targets_incl pf ef :
  incl (Frames.enemy_ai_targets pf ef) (Frames.uids pf).
Proof.
  intros id H. unfold Frames.enemy_ai_targets in H.
  apply in_flat_map in H. destruct H as (e & _ & H).
  destruct (Utils.nearest (hull e) pf) as [t |] eqn:E; [| contradiction].
  destruct H as [<- | []]. apply in_uids. exists t. split; [| reflexivity].
  eapply nearest_in; exact E.
Qed.

Lemma world_at_auto_fire_units w dt :
  Frames.same_units w (Frames.world_at_auto_fire w dt).
Proof.
  unfold Frames.world_at_auto_fire.
  eapply same_units_trans; [| apply steer_enemies_units].
  eapply same_units_trans; [| apply move_players_units].
  apply update_cooldowns_units.
Qed.

Lemma fired_upon_in_frame_incl w dt :
  incl (Frames.fired_upon_in_frame w dt) (Frames.uids (Frames.ships w)).
Proof.
  unfold Frames.fired_upon_in_frame.
  destruct (world_at_auto_fire_units w dt) as [U1 U2].
  rewrite uids_ships. intros id H. apply in_app_or in H. apply in_or_app.
  destruct H as [H | H].
  - right. apply auto_fire_targets_incl in H. rewrite U2 in H. exact H.
  - left. apply auto_fire_targets_incl in H.
    rewrite handle_auto_fire_uids, U1 in H. exact H.
Qed.

Lemma targets_in_frame_incl w dt :
  incl (Frames.targets_in_frame w dt) (Frames.uids (Frames.ships w)).
Proof.
  unfold Frames.targets_in_frame. intros id H. apply in_app_or in H.
  destruct H as [H | H]; [| apply fired_upon_in_frame_incl in H; exact H].
  apply enemy_ai_targets_incl in H.
  destruct (move_players_units (GameScreen.update_cooldowns w dt) dt) as [U1 _].
  destruct (update_cooldowns_units w dt) as [U2 _].
  rewrite U1, U2 in H. rewrite uids_ships. apply in_or_app. left. exact H.
Qed.

End FrameFacts3.

(** C5, amended.  A unit whose health is [<= 0] when the pruning phase of a
    frame runs (a projectile hit of that frame has killed it, or it came
    into the frame dead) is in no fleet after that frame nor after any later
    frame, and is selected as a target by the enemy steering or by auto-fire
    in none of them.  The fleets after the frame are the units that were
    alive at its pruning phase, whatever the residual collisions have done
    to them since, and the next frame keeps them all up to its own pruning
    phase. *)
Theorem dead_at_pruning_excluded :
  forall (cfg : Config) (engine : Engine) (w : GameScreen.World) (dt : R)
         (w1 w' : GameScreen.World),
    @GameScreen.simulate cfg repo_methods engine w dt = Normal w1 ->
    @GameScreen.frame cfg repo_methods engine w dt = Normal (GameScreen.Running w') ->
    NoDup (Frames.uids (Frames.ships w1)) ->
    (forall s, In s (Frames.ships w1) -> health (hull s) <= 0 ->
     forall dts w'',
       @Frames.frames cfg repo_methods engine w' dts = Some w'' ->
       ~ In (uid (hull s)) (Frames.uids (Frames.ships w'')) /\
       (forall dt', ~ In (uid (hull s)) (Frames.targets_in_frame w'' dt'))) /\
    Frames.uids (Frames.ships w')
      = Frames.uids (filter GameScreen.is_alive (Frames.ships w1)) /\
    (forall dt' w1',
       @GameScreen.simulate cfg repo_methods engine w' dt' = Normal w1' ->
       Frames.uids (Frames.ships w1') = Frames.uids (Frames.ships w')).
Proof.
  intros cfg engine w dt w1 w' H1 H Hnd. split; [| split].
  - intros s Hs Hdead dts w'' Hrun.
    assert (Hout : ~ In (uid (hull s)) (Frames.uids (Frames.ships w''))).
    { intros Hin. apply (frames_shrink dts w' w'' Hrun) in Hin.
      rewrite (frame_running_units w dt w1 w' H1 H) in Hin.
      apply in_uids in Hin. destruct Hin as (s2 & Hs2 & Hid).
      apply filter_In in Hs2. destruct Hs2 as [Hs2 Halive].
      assert (s2 = s).
      { apply (NoDup_map_in_inj (fun x => uid (hull x)) (Frames.ships w1));
          assumption. }
      subst s2. unfold GameScreen.is_alive in Halive. apply Rltb_true in Halive.
      lra. }
    split; [exact Hout |].
    intros dt' Hin. apply Hout. apply (targets_in_frame_incl w'' dt'). exact Hin.
  - apply (frame_running_units w dt w1 w' H1 H).
  - intros dt' w1' H1'. apply same_units_ships.
    apply (simulate_units w' dt' w1' H1').
Qed.

(** The scout dies of the residual collision with the pirate, after the
    pruning phase of the frame.  It is in the player fleet after the frame,
    dead, and in the next frame the pirate selects it as its target and
    fires upon it. *)
Lemma killed_by_collision_fired_upon :
  exists w' s,
    @GameScreen.frame Examples.config repo_methods Examples.engine
      Examples.skirmish (1 / 10) = Normal (GameScreen.Running w') /\
    In s (GameScreen.player_fleet w') /\
    uid (hull s) = 1%nat /\ class_of s = Interceptor /\ health (hull s) <= 0 /\
    In 1%nat (@Frames.fired_upon_in_frame Examples.config Examples.engine w' (1 / 10)) /\
    In 1%nat (@Frames.targets_in_frame Examples.config Examples.engine w' (1 / 10)).
Proof.
  do 2 eexists.
  split; [eval_frame; reflexivity |].
  split; [right; left; reflexivity |].
  split; [reflexivity |]. split; [reflexivity |].
  split; [cbn; unfold Rmax; rcase; lra |].
  split.
  - eval_frame. cbn. auto.
  - eval_frame. cbn. auto.
Qed.

(** The scout that the shot has killed: after the frame it is in no fleet
    and nobody selects it. *)
Lemma dead_at_pruning_excluded_witness :
  exists w1 w' s,
    @GameScreen.simulate Examples.config repo_methods Examples.engine
      Examples.skirmish_under_fire (1 / 10) = Normal w1 /\
    In s (Frames.ships w1) /\ uid (hull s) = 1%nat /\ health (hull s) <= 0 /\
    ~ In 1%nat (Frames.uids (Frames.ships w')) /\
    ~ In 1%nat (@Frames.targets_in_frame Examples.config Examples.engine w' (1 / 10)).
Proof.
  eassert (H1 : @GameScreen.simulate Examples.config repo_methods Examples.engine
                  Examples.skirmish_under_fire (1 / 10) = Normal _).
  { eval_frame. reflexivity. }
  eassert (H : @GameScreen.frame Examples.config repo_methods Examples.engine
                 Examples.skirmish_under_fire (1 / 10)
               = Normal (GameScreen.Running _)).
  { eval_frame. reflexivity. }
  match type of H1 with _ = Normal ?w1 => exists w1 end.
  match type of H with _ = Normal (GameScreen.Running ?w') => exists w' end.
  eexists.
  assert (Hnd : NoDup [0%nat; 1%nat; 2%nat]).
  { repeat constructor; cbn; intuition discriminate. }
  assert (Hdead : Rmax 0 (1 - 50) <= 0) by (unfold Rmax; rcase; lra).
  split; [exact H1 |].
  split; [right; left; reflexivity |].
  split; [reflexivity |].
  split; [exact Hdead |].
  refine (let P := proj1 (dead_at_pruning_excluded Examples.config Examples.engine
                              _ _ _ _ H1 H Hnd)
                     _ (or_intror (or_introl eq_refl)) Hdead [] _ eq_refl
          in conj (proj1 P) (proj2 P (1 / 10))).
Defined.


(** ** The selection rectangle (C7) *)

Section Selection.
Context {cfg : Config} {engine : Engine}.

Lemma click_collectors_not_consumed pos fleet asteroids :
  snd (GameScreen.click_collectors pos fleet asteroids) = false ->
  fst (GameScreen.click_collectors pos fleet asteroids) = fleet.
Proof.
  unfold GameScreen.click_collectors.
  destruct (filter GameScreen.is_selected_collector fleet); [reflexivity |].
  destruct (find _ asteroids); [discriminate |].
  destruct (find _ fleet); [discriminate | reflexivity].
Qed.

(** The selection after every ship got the flag [g] of its unit. *)
Lemma selection_of_flags (g : SpaceUnit -> bool) (l : list Ship) :
  GameScreen.selection (map (fun s => map_hull (fun u => with_selected u (g u)) s) l)
  = Frames.uids (filter (fun s => g (hull s)) l).
Proof.
  unfold GameScreen.selection, Frames.uids.
  induction l as [| s l IH]; simpl; [reflexivity |].
  rewrite hull_map_hull; simpl.
  destruct (g (hull s)); simpl; rewrite ?hull_map_hull; simpl; rewrite IH; reflexivity.
Qed.

Lemma filter_after_flags (P g : SpaceUnit -> bool) (l : list Ship) :
  (forall u b, P (with_selected u b) = P u) ->
  Frames.uids (filter (fun s => P (hull s))
                 (map (fun s => map_hull (fun u => with_selected u (g u)) s) l))
  = Frames.uids (filter (fun s => P (hull s)) l).
Proof.
  intros HP. unfold Frames.uids.
  induction l as [| s l IH]; simpl; [reflexivity |].
  rewrite hull_map_hull, HP.
  destruct (P (hull s)); simpl; rewrite ?hull_map_hull; simpl; rewrite IH; reflexivity.
Qed.

Lemma motions_spec (press : Z * Z) (moves : list (Z * Z)) :
  forall fleet asteroids w h,
    GameScreen.handle_events (map GameScreen.Motion moves)
      (GameScreen.mkScreen fleet asteroids
         (GameScreen.mkControls true press
            (GameScreen.mkRect (fst press) (snd press) w h)))
    = GameScreen.mkScreen fleet asteroids
        (GameScreen.mkControls true press
           (match moves with
            | [] => GameScreen.mkRect (fst press) (snd press) w h
            | _ :: _ => Commands.drag_rect press moves
            end)).
Proof.
  induction moves as [| q moves IH]; intros fleet asteroids w h; [reflexivity |].
  unfold GameScreen.handle_events in *. cbn [map fold_left].
  cbn [GameScreen.handle_event].
  unfold GameScreen.motion at 1. cbn.
  destruct q as [mx my], press as [sx sy]. cbn.
  rewrite IH. destruct moves as [| q' moves']; reflexivity.
Qed.

Lemma handle_events_cons ev evs st :
  GameScreen.handle_events (ev :: evs) st
  = GameScreen.handle_events evs (GameScreen.handle_event ev st).
Proof. reflexivity. Qed.

Lemma handle_events_app evs1 evs2 st :
  GameScreen.handle_events (evs1 ++ evs2) st
  = GameScreen.handle_events evs2 (GameScreen.handle_events evs1 st).
Proof. apply fold_left_app. Qed.

(** A press that neither the interface nor the collectors consume. *)
Lemma left_down_free press st :
  snd (GameScreen.click_collectors press (GameScreen.fleet st)
         (GameScreen.asteroids st)) = false ->
  GameScreen.left_down press false st
  = GameScreen.mkScreen
      (map (fun s => map_hull
                       (fun u => with_selected u (point_inside u (GameScreen.point press)))
                       s) (GameScreen.fleet st))
      (GameScreen.asteroids st)
      (GameScreen.mkControls true press
         (GameScreen.mkRect (fst press) (snd press) 0 0)).
Proof.
  intros Hfree. pose proof (click_collectors_not_consumed _ _ _ Hfree) as Hfleet.
  unfold GameScreen.left_down. cbn [negb].
  destruct (GameScreen.click_collectors press (GameScreen.fleet st)
              (GameScreen.asteroids st)) as [pf ui].
  cbn [fst snd] in Hfree, Hfleet. subst ui pf. reflexivity.
Qed.

Lemma left_up_spec fleet asteroids b start rect :
  GameScreen.left_up
    (GameScreen.mkScreen fleet asteroids (GameScreen.mkControls b start rect))
  = GameScreen.mkScreen
      (if Commands.exceeds_minimum (GameScreen.rect_normalize rect)
       then map (fun s => map_hull
                            (fun u => with_selected u
                                        (GameScreen.collidepoint
                                           (GameScreen.rect_normalize rect) (pos u)))
                            s) fleet
       else fleet)
      asteroids (GameScreen.mkControls false start rect).
Proof.
  unfold GameScreen.left_up, Commands.exceeds_minimum.
  cbn [GameScreen.controls GameScreen.selection_rect GameScreen.fleet
       GameScreen.asteroids GameScreen.selection_start].
  destruct (_ && _); reflexivity.
Qed.

Lemma drag_rect_nil_or_moves press moves :
  match moves with
  | [] => GameScreen.mkRect (fst press) (snd press) 0 0
  | _ :: _ => Commands.drag_rect press moves
  end = Commands.drag_rect press moves.
Proof.
  destruct moves; [| reflexivity]. unfold Commands.drag_rect. cbn [last].
  rewrite !Z.sub_diag. reflexivity.
Qed.

End Selection.

(** C7, amended.  A drag is a left press that neither the interface nor the
    selected collectors consume, motions, and the release.  When its
    normalized rectangle exceeds the minimum size in both dimensions, the
    selection after the release is the ships whose position is inside the
    rectangle.  Otherwise the selection after the release is the one that
    the press has set: the ships whose shape contains the point of the
    press.  The drag changes no ship of the fleet for another. *)
Theorem drag_selection :
  forall (cfg : Config) (engine : Engine) (st : GameScreen.Screen)
         (press : Z * Z) (moves : list (Z * Z)),
    snd (GameScreen.click_collectors press (GameScreen.fleet st)
           (GameScreen.asteroids st)) = false ->
    let st' := GameScreen.handle_events (Commands.drag press false moves) st in
    let R := GameScreen.rect_normalize (Commands.drag_rect press moves) in
    Frames.uids (GameScreen.fleet st') = Frames.uids (GameScreen.fleet st) /\
    GameScreen.selection (GameScreen.fleet st')
    = if Commands.exceeds_minimum R
      then Frames.uids
             (filter (fun s => GameScreen.collidepoint R (pos (hull s)))
                (GameScreen.fleet st))
      else Frames.uids
             (filter (fun s => point_inside (hull s) (GameScreen.point press))
                (GameScreen.fleet st)).
Proof.
  intros cfg engine st press moves Hfree st' R. subst st' R.
  unfold Commands.drag.
  rewrite handle_events_cons, handle_events_app.
  cbn [GameScreen.handle_event]. rewrite (left_down_free press st Hfree).
  rewrite motions_spec, drag_rect_nil_or_moves.
  rewrite handle_events_cons. cbn [GameScreen.handle_event].
  rewrite left_up_spec. unfold GameScreen.handle_events. cbn [fold_left].
  cbn [GameScreen.fleet].
  destruct (Commands.exceeds_minimum
              (GameScreen.rect_normalize (Commands.drag_rect press moves))).
  - split.
    + rewrite !uids_map; [reflexivity | |]; intros s; apply uid_map_hull; reflexivity.
    + rewrite (selection_of_flags
                 (fun u => GameScreen.collidepoint
                             (GameScreen.rect_normalize (Commands.drag_rect press moves))
                             (pos u))).
      apply (filter_after_flags
               (fun u => GameScreen.collidepoint
                           (GameScreen.rect_normalize (Commands.drag_rect press moves))
                           (pos u))).
      reflexivity.
  - split.
    + rewrite uids_map; [reflexivity |]. intros s; apply uid_map_hull; reflexivity.
    + apply (selection_of_flags (fun u => point_inside u (GameScreen.point press))).
Qed.

(** The flagship is selected.  A press on empty space at (10, 10), a motion
    to (12, 12) and the release: the rectangle is under the minimum size,
    and the selection that existed before the drag is gone. *)
Lemma small_drag_clears_selection :
  GameScreen.selection (GameScreen.fleet Examples.bridge) = [0%nat] /\
  @Commands.exceeds_minimum Examples.config
    (GameScreen.rect_normalize (Commands.drag_rect (10, 10)%Z [(12, 12)%Z])) = false /\
  GameScreen.selection
    (GameScreen.fleet
       (@GameScreen.handle_events Examples.config Examples.engine
          (Commands.drag (10, 10)%Z false [(12, 12)%Z]) Examples.bridge)) = [].
Proof.
  split; [reflexivity |]. split; [reflexivity |].
  run_R. reflexivity.
Qed.

(** A drag from (50, 50) to (150, 150) over the scout: the scout is the
    selection. *)
Lemma drag_selection_witness :
  snd (@GameScreen.click_collectors Examples.engine (50, 50)%Z
         (GameScreen.fleet Examples.bridge) (GameScreen.asteroids Examples.bridge))
    = false /\
  GameScreen.selection
    (GameScreen.fleet
       (@GameScreen.handle_events Examples.config Examples.engine
          (Commands.drag (50, 50)%Z false [(150, 150)%Z]) Examples.bridge)) = [1%nat].
Proof.
  assert (Hfree : snd (@GameScreen.click_collectors Examples.engine (50, 50)%Z
                         (GameScreen.fleet Examples.bridge)
                         (GameScreen.asteroids Examples.bridge)) = false)
    by reflexivity.
  split; [exact Hfree |].
  destruct (drag_selection Examples.config Examples.engine Examples.bridge
              (50, 50)%Z [(150, 150)%Z] Hfree) as [_ H].
  rewrite H. run_R. reflexivity.
Defined.

(** ** The formation move (C8) *)

Lemma fold_vadd_perm (l l' : list Vector2) :
  Permutation l l' -> forall z, fold_left vadd l z = fold_left vadd l' z.
Proof.
  induction 1 as [| x l l' _ IH | x y l | l l' l'' _ IH1 _ IH2]; intros z; simpl.
  - reflexivity.
  - apply IH.
  - f_equal. unfold vadd; simpl. f_equal; ring.
  - rewrite IH1. apply IH2.
Qed.

Lemma filter_perm {A : Type} (f : A -> bool) (l l' : list A) :
  Permutation l l' -> Permutation (filter f l) (filter f l').
Proof.
  induction 1 as [| x l l' _ IH | x y l | l l' l'' _ IH1 _ IH2]; simpl.
  - constructor.
  - destruct (f x); [constructor |]; exact IH.
  - destruct (f x), (f y); try reflexivity. constructor.
  - eapply perm_trans; eassumption.
Qed.

Lemma formation_center_perm (l l' : list Ship) :
  Permutation l l' -> GameScreen.formation_center l = GameScreen.formation_center l'.
Proof.
  intros H. unfold GameScreen.formation_center.
  rewrite (Permutation_length H).
  rewrite (fold_vadd_perm _ _ (Permutation_map (fun s => pos (hull s)) H)).
  reflexivity.
Qed.

Lemma cancel_orders_hull s : hull (GameScreen.cancel_orders s) = hull s.
Proof. destruct s; reflexivity. Qed.

(** The ship of a group move, for the centre [c] and the target [t]. *)
Lemma right_down_fleet pos st :
  GameScreen.fleet (GameScreen.right_down pos st)
  = map (fun s =>
           if GameScreen.is_selected_shape s then
             map_hull (fun u => set_target u
                                  (vadd (GameScreen.point pos) (formation_offset u)))
               (map_hull
                  (fun u => with_formation_offset u
                              (vsub (FleetUnit.pos u)
                                 (GameScreen.formation_center
                                    (filter GameScreen.is_selected_shape
                                       (GameScreen.fleet st)))))
                  (GameScreen.cancel_orders s))
           else s) (GameScreen.fleet st).
Proof.
  unfold GameScreen.right_down.
  destruct (filter GameScreen.is_selected_shape (GameScreen.fleet st)) as [| x xs] eqn:E.
  - symmetry. erewrite map_ext_in; [apply map_id |].
    intros s Hs. destruct (GameScreen.is_selected_shape s) eqn:Hsel; [| reflexivity].
    assert (In s (filter GameScreen.is_selected_shape (GameScreen.fleet st)))
      by (apply filter_In; auto).
    rewrite E in H. contradiction.
  - cbn [GameScreen.fleet]. unfold GameScreen.on_selected_shapes.
    rewrite !map_map. apply map_ext. intros s.
    unfold GameScreen.is_selected_shape.
    destruct (selected (hull s) && negb (recalling (hull s))) eqn:Hsel.
    + rewrite cancel_orders_hull, Hsel, hull_map_hull, cancel_orders_hull.
      cbn [selected recalling with_formation_offset]. rewrite Hsel. reflexivity.
    + rewrite Hsel, Hsel. reflexivity.
Qed.

Lemma moved_offsets (t c : Vector2) (l : list Ship) :
  Commands.offsets
    (map (fun s =>
            if GameScreen.is_selected_shape s then
              map_hull (fun u => set_target u (vadd t (formation_offset u)))
                (map_hull (fun u => with_formation_offset u (vsub (FleetUnit.pos u) c))
                   (GameScreen.cancel_orders s))
            else s) l)
  = map (fun s => vsub (FleetUnit.pos (hull s)) c)
      (filter GameScreen.is_selected_shape l).
Proof.
  unfold Commands.offsets.
  induction l as [| s l IH]; [reflexivity |].
  cbn [map filter]. destruct (GameScreen.is_selected_shape s) eqn:Hsel.
  - assert (Hkeep : GameScreen.is_selected_shape
                      (map_hull (fun u => set_target u (vadd t (formation_offset u)))
                         (map_hull
                            (fun u => with_formation_offset u (vsub (FleetUnit.pos u) c))
                            (GameScreen.cancel_orders s))) = true).
    { unfold GameScreen.is_selected_shape in *.
      rewrite !hull_map_hull, cancel_orders_hull. exact Hsel. }
    rewrite Hkeep. cbn [map]. rewrite IH. f_equal.
    rewrite !hull_map_hull, cancel_orders_hull. reflexivity.
  - rewrite Hsel. exact IH.
Qed.

Lemma right_down_offsets pos st :
  Commands.offsets (GameScreen.fleet (GameScreen.right_down pos st))
  = map (fun s => vsub (FleetUnit.pos (hull s))
                    (GameScreen.formation_center
                       (filter GameScreen.is_selected_shape (GameScreen.fleet st))))
      (filter GameScreen.is_selected_shape (GameScreen.fleet st)).
Proof. rewrite right_down_fleet. apply moved_offsets. Qed.

(** C8.  A group move to [T] leaves the ships that are not selected, or are
    recalling, as they are.  Every selected, non-recalling ship keeps its
    position, gets its position minus the centre of the group as formation
    offset, and [T] plus that offset as movement target; the centre is the
    sum of the positions of the group divided by their number.  For a fleet
    with the same ships in another order the centre is the same and the
    offsets are the same up to their order. *)
Theorem formation_move :
  forall (st : GameScreen.Screen) (T : Z * Z),
    let S := filter GameScreen.is_selected_shape (GameScreen.fleet st) in
    let C := GameScreen.formation_center S in
    C = vdiv (fold_left vadd (map (fun s => pos (hull s)) S) vzero)
          (INR (List.length S)) /\
    Forall2
      (fun s s' =>
         if GameScreen.is_selected_shape s
         then pos (hull s') = pos (hull s) /\
              formation_offset (hull s') = vsub (pos (hull s)) C /\
              mover_target (hull s')
                = vadd (GameScreen.point T) (vsub (pos (hull s)) C)
         else s' = s)
      (GameScreen.fleet st) (GameScreen.fleet (GameScreen.right_down T st)) /\
    (forall st2 : GameScreen.Screen,
       Permutation (GameScreen.fleet st) (GameScreen.fleet st2) ->
       GameScreen.formation_center
         (filter GameScreen.is_selected_shape (GameScreen.fleet st2)) = C /\
       Permutation
         (Commands.offsets (GameScreen.fleet (GameScreen.right_down T st2)))
         (Commands.offsets (GameScreen.fleet (GameScreen.right_down T st)))).
Proof.
  intros st T S C. split; [reflexivity |]. split.
  - rewrite right_down_fleet. fold S. fold C. clearbody C. clear S.
    induction (GameScreen.fleet st) as [| s l IH]; [constructor |].
    cbn [map]. constructor; [| exact IH].
    destruct (GameScreen.is_selected_shape s); [| reflexivity].
    rewrite !hull_map_hull, cancel_orders_hull. cbn. auto.
  - intros st2 Hperm.
    assert (HS : Permutation S
                   (filter GameScreen.is_selected_shape (GameScreen.fleet st2)))
      by (apply filter_perm; exact Hperm).
    assert (HC : GameScreen.formation_center
                   (filter GameScreen.is_selected_shape (GameScreen.fleet st2)) = C)
      by (symmetry; apply formation_center_perm; exact HS).
    split; [exact HC |].
    rewrite !right_down_offsets. rewrite HC. fold S. fold C.
    apply Permutation_map. symmetry. exact HS.
Qed.

(** Flagship and scout selected, ordered to (0, 0): the centre is
    (250, 200); the order of the fleet does not matter. *)
Lemma formation_move_witness :
  let st2 := GameScreen.mkScreen (rev (GameScreen.fleet Examples.bridge_all_selected))
               [] (GameScreen.controls Examples.bridge_all_selected) in
  Permutation (GameScreen.fleet Examples.bridge_all_selected) (GameScreen.fleet st2) /\
  Permutation
    (Commands.offsets (GameScreen.fleet (GameScreen.right_down (0, 0)%Z st2)))
    (Commands.offsets
       (GameScreen.fleet (GameScreen.right_down (0, 0)%Z Examples.bridge_all_selected))).
Proof.
  intros st2.
  assert (Hperm : Permutation (GameScreen.fleet Examples.bridge_all_selected)
                    (GameScreen.fleet st2)) by apply Permutation_rev.
  split; [exact Hperm |].
  destruct (formation_move Examples.bridge_all_selected (0, 0)%Z) as (_ & _ & H).
  exact (proj2 (H st2 Hperm)).
Defined.

(** In that move the flagship at (400, 300) is sent to (150, 100) and the
    scout at (100, 100) to (-150, -100). *)
Example formation_targets :
  map (fun s => mover_target (hull s))
    (GameScreen.fleet (GameScreen.right_down (0, 0)%Z Examples.bridge_all_selected))
  = [V2 150 100; V2 (-150) (-100)].
Proof.
  cbv -[Rplus Rminus Rmult Rdiv Rinv Ropp IZR INR].
  repeat f_equal; cbv [INR]; lra.
Qed.

(** * Further properties of the code *)

Lemma updates_lifetime q dts :
  Proj.lifetime (Proj.updates q dts) = Proj.lifetime q - Clock.elapsed dts.
Proof.
  revert q; induction dts as [| dt dts IH]; intros q; simpl; [lra |].
  rewrite IH. simpl. lra.
Qed.

Lemma updates_pos q dts :
  Proj.pos (Proj.updates q dts)
  = vadd (Proj.pos q) (vscale (Proj.direction q) (Proj.speed q * Clock.elapsed dts)).
Proof.
  revert q; induction dts as [| dt dts IH]; intros q; simpl.
  - unfold vadd, vscale; destruct (Proj.pos q); simpl; f_equal; ring.
  - rewrite IH. unfold vadd, vscale; simpl. f_equal; ring.
Qed.

Lemma updates_payload q dts :
  Proj.hull_damage (Proj.updates q dts) = Proj.hull_damage q /\
  Proj.armor_damage (Proj.updates q dts) = Proj.armor_damage q /\
  Proj.owner_is_enemy (Proj.updates q dts) = Proj.owner_is_enemy q /\
  Proj.radius (Proj.updates q dts) = Proj.radius q.
Proof.
  revert q; induction dts as [| dt dts IH]; intros q; simpl; [auto |].
  destruct (IH (fst (Proj.update q dt))) as (A & B & C & D). simpl in *. auto.
Qed.

(** X1.  After the updates for the frame times [dts] a projectile has its
    lifetime less the sum of the frame times and has moved from its position
    by its speed times that sum along its direction, however the time is cut
    into frames; its damage payloads and its owner are as before. *)
Theorem projectile_flight :
  forall (q : Proj.Projectile) (dts : list R),
    Proj.lifetime (Proj.updates q dts) = Proj.lifetime q - Clock.elapsed dts /\
    Proj.pos (Proj.updates q dts)
    = vadd (Proj.pos q)
        (vscale (Proj.direction q) (Proj.speed q * Clock.elapsed dts)) /\
    Proj.hull_damage (Proj.updates q dts) = Proj.hull_damage q /\
    Proj.armor_damage (Proj.updates q dts) = Proj.armor_damage q /\
    Proj.owner_is_enemy (Proj.updates q dts) = Proj.owner_is_enemy q.
Proof.
  intros q dts. destruct (updates_payload q dts) as (A & B & C & _).
  auto using updates_lifetime, updates_pos.
Qed.

Lemma group_update_filter g dt :
  Proj.group_update g dt
  = map (fun p => fst (Proj.update p dt))
      (filter (fun p => Rltb dt (Proj.lifetime p)) g).
Proof.
  induction g as [| p g IH]; simpl; [reflexivity |].
  unfold Rleb, Rltb.
  destruct (Rle_dec (Proj.lifetime p - dt) 0), (Rlt_dec dt (Proj.lifetime p));
    try lra; simpl; rewrite IH; reflexivity.
Qed.

Lemma filter_map_comm {A B : Type} (f : A -> B) (P : B -> bool) l :
  filter P (map f l) = map f (filter (fun x => P (f x)) l).
Proof.
  induction l as [| x l IH]; simpl; [reflexivity |].
  destruct (P (f x)); simpl; rewrite IH; reflexivity.
Qed.

Lemma filter_filter_and {A : Type} (P Q : A -> bool) l :
  filter Q (filter P l) = filter (fun x => P x && Q x) l.
Proof.
  induction l as [| x l IH]; simpl; [reflexivity |].
  destruct (P x); simpl; [destruct (Q x); simpl |]; rewrite IH; reflexivity.
Qed.

Lemma elapsed_nonneg dts : Forall (fun dt => 0 <= dt) dts -> 0 <= Clock.elapsed dts.
Proof. induction 1; simpl; lra. Qed.

Lemma group_updates_filter dts :
  forall dt g,
    Forall (fun dt => 0 <= dt) (dt :: dts) ->
    Clock.group_updates g (dt :: dts)
    = map (fun p => Proj.updates p (dt :: dts))
        (filter (fun p => Rltb (Clock.elapsed (dt :: dts)) (Proj.lifetime p)) g).
Proof.
  induction dts as [| dt' dts IH]; intros dt g H.
  - unfold Clock.group_updates; simpl. rewrite group_update_filter.
    f_equal. apply filter_ext. intros p. f_equal. lra.
  - inversion H as [| ? ? H0 H1]; subst.
    change (Clock.group_updates g (dt :: dt' :: dts))
      with (Clock.group_updates (Proj.group_update g dt) (dt' :: dts)).
    rewrite (IH dt' _ H1), group_update_filter, filter_map_comm, filter_filter_and,
      map_map.
    pose proof (elapsed_nonneg _ H1) as Hn.
    f_equal. apply filter_ext. intros p.
    change (Clock.elapsed (dt :: dt' :: dts)) with (dt + Clock.elapsed (dt' :: dts)).
    simpl Proj.lifetime.
    unfold Rltb.
    repeat match goal with |- context [Rlt_dec ?a ?b] => destruct (Rlt_dec a b) end;
      simpl; try reflexivity; lra.
Qed.

(** X2.  For frame times that are not negative, the group after the
    updates of one or more frames holds the projectiles whose lifetime
    exceeds the sum of the frame times, in their order, each one updated;
    every projectile that is left has a positive lifetime. *)
Theorem projectile_expiry :
  forall (group : list Proj.Projectile) (dt : R) (dts : list R),
    Forall (fun dt => 0 <= dt) (dt :: dts) ->
    Clock.group_updates group (dt :: dts)
    = map (fun p => Proj.updates p (dt :: dts))
        (filter (fun p => Rltb (Clock.elapsed (dt :: dts)) (Proj.lifetime p)) group) /\
    Forall (fun q => 0 < Proj.lifetime q) (Clock.group_updates group (dt :: dts)).
Proof.
  intros g dt dts H. split; [apply group_updates_filter; exact H |].
  rewrite group_updates_filter by exact H.
  apply Forall_forall. intros q Hq. apply in_map_iff in Hq.
  destruct Hq as (p & <- & Hp). apply filter_In in Hp. destruct Hp as [_ Hp].
  apply Rltb_true in Hp. rewrite updates_lifetime. lra.
Qed.

Ltac rmm := unfold Rmin, Rmax in *;
  repeat match goal with
    | |- context [Rle_dec ?a ?b] => destruct (Rle_dec a b)
    | H : context [Rle_dec ?a ?b] |- _ => destruct (Rle_dec a b)
    end.

Lemma mine_step (c : Collector.ResourceCollector) (ms : Mothership) (a : Asteroid)
    (f : Collector.mining_frame) :
  Collector.mining_target c = Some a ->
  Collector.mining_fill c <= Collector.mining_capacity c ->
  (Collector.returning_to_ship c = true ->
   Collector.mining_fill c = Collector.mining_capacity c) ->
  Trips.at_asteroid a f ->
  let st := Collector.mining_step (c, ms) f in
  Collector.mining_fill (fst st)
  = Rmin (Collector.mining_capacity c)
      (Collector.mining_fill c + Collector.MINE_RATE * Collector.f_dt f) /\
  (Collector.returning_to_ship (fst st) = true <->
   Collector.returning_to_ship c = true \/
   Collector.mining_capacity c
   <= Collector.mining_fill c + Collector.MINE_RATE * Collector.f_dt f) /\
  ore_inventory (snd st) = ore_inventory ms.
Proof.
  intros Ht Hle Hret (Hdt & Hnear & Hfar). cbv zeta.
  apply Rleb_true in Hnear. apply Rleb_false in Hfar.
  unfold Collector.mining_step, Collector.update_mining.
  simpl; rewrite Ht; simpl.
  destruct (Collector.returning_to_ship c) eqn:Hr; simpl.
  - rewrite ?Hfar, ?Hr; simpl; rewrite ?Hfar, ?Hr; simpl. specialize (Hret eq_refl).
    unfold Collector.MINE_RATE. split; [rmm; lra |]. split; [tauto | reflexivity].
  - rewrite Hnear; simpl.
    destruct (Rleb (Collector.mining_capacity c)
                (Rmin (Collector.mining_capacity c)
                   (Collector.mining_fill c
                    + Collector.MINE_RATE * Collector.f_dt f))) eqn:E; simpl;
      rewrite ?Hfar, ?Hr; simpl; rewrite ?Hfar, ?Hr; simpl; to_R; unfold Collector.MINE_RATE in *.
    + split; [rmm; lra |]. split; [| reflexivity].
      split; [intros _; right; rmm; lra | auto].
    + split; [reflexivity |]. split; [| reflexivity].
      split; [discriminate |]. intros [H | H]; [discriminate | rmm; lra].
Qed.

Lemma mining_run_at_asteroid (a : Asteroid) (fs : list Collector.mining_frame) :
  forall (c : Collector.ResourceCollector) (ms : Mothership),
    Collector.mining_target c = Some a ->
    Collector.mining_fill c <= Collector.mining_capacity c ->
    (Collector.returning_to_ship c = true ->
     Collector.mining_fill c = Collector.mining_capacity c) ->
    Forall (Trips.at_asteroid a) fs ->
    let st := Collector.mining_run (c, ms) fs in
    Collector.mining_fill (fst st)
    = Rmin (Collector.mining_capacity c)
        (Collector.mining_fill c + Collector.MINE_RATE * Trips.run_time fs) /\
    (Collector.returning_to_ship (fst st) = true <->
     Collector.returning_to_ship c = true \/
     (fs <> [] /\
      Collector.mining_capacity c
      <= Collector.mining_fill c + Collector.MINE_RATE * Trips.run_time fs)) /\
    ore_inventory (snd st) = ore_inventory ms.
Proof.
  induction fs as [| f fs IH]; intros c ms Ht Hle Hret Hfs; cbv zeta.
  - rewrite mining_run_nil; cbn [fst snd]. unfold Trips.run_time; simpl.
    split; [unfold Collector.MINE_RATE; rmm; lra |].
    split; [| reflexivity]. split; [auto | intros [H | [H _]]; [exact H | congruence]].
  - inversion Hfs as [| ? ? Hf Hfs']; subst.
    rewrite mining_run_cons.
    pose proof (mine_step c ms a f Ht Hle Hret Hf) as (S1 & S2 & S3).
    pose proof (mining_step_kept c ms f) as (K1 & K2 & _).
    destruct (Collector.mining_step (c, ms) f) as [c1 ms1]; cbn [fst snd] in *.
    rewrite Ht in K1.
    assert (Hdt : 0 <= Collector.f_dt f) by apply Hf.
    assert (HT : 0 <= Trips.run_time fs).
    { apply elapsed_nonneg. apply Forall_map.
      eapply Forall_impl; [| exact Hfs']. intros g Hg; apply Hg. }
    assert (Hle1 : Collector.mining_fill c1 <= Collector.mining_capacity c1).
    { rewrite S1, K2. rmm; lra. }
    assert (Hret1 : Collector.returning_to_ship c1 = true ->
                    Collector.mining_fill c1 = Collector.mining_capacity c1).
    { intros H. apply S2 in H. rewrite S1, K2.
      destruct H as [H | H]; [specialize (Hret H) |];
        unfold Collector.MINE_RATE in *; rmm; lra. }
    destruct (IH c1 ms1 K1 Hle1 Hret1 Hfs') as (I1 & I2 & I3).
    change (Trips.run_time (f :: fs)) with (Collector.f_dt f + Trips.run_time fs).
    rewrite I1, I3, S3, S1, K2.
    unfold Collector.MINE_RATE in *.
    split; [rmm; lra |]. split; [| reflexivity].
    rewrite I2, S2, S1, K2. split.
    + intros [[H | H] | [_ H]]; [left; exact H | right | right].
      * split; [discriminate | lra].
      * split; [discriminate | rmm; lra].
    + intros [H | [_ H]]; [left; left; exact H |].
      destruct (Rle_dec (Collector.mining_capacity c)
                  (Collector.mining_fill c + 10 * Collector.f_dt f)).
      * left; right; assumption.
      * destruct fs as [| g gs].
        -- unfold Trips.run_time in H; simpl in H. lra.
        -- right. split; [discriminate | rmm; lra].
Qed.

Lemma dock_step_idle (c : Collector.ResourceCollector) (ms : Mothership) (a : Asteroid)
    (f : Collector.mining_frame) :
  Collector.mining_target c = Some a ->
  Collector.returning_to_ship c = false ->
  Trips.at_mothership a f ->
  let st := Collector.mining_step (c, ms) f in
  Collector.mining_fill (fst st) = Collector.mining_fill c /\
  Collector.returning_to_ship (fst st) = false /\
  ore_inventory (snd st) = ore_inventory ms.
Proof.
  intros Ht Hr (Hdt & Hnear & Hfar). cbv zeta.
  apply Rleb_true in Hnear. apply Rleb_false in Hfar.
  unfold Collector.mining_step, Collector.update_mining.
  simpl; rewrite Ht; simpl; rewrite Hr; simpl; rewrite Hfar; simpl; rewrite Hr; simpl.
  auto.
Qed.

Lemma dock_run_idle (a : Asteroid) (fs : list Collector.mining_frame) :
  forall (c : Collector.ResourceCollector) (ms : Mothership),
    Collector.mining_target c = Some a ->
    Collector.returning_to_ship c = false ->
    Forall (Trips.at_mothership a) fs ->
    let st := Collector.mining_run (c, ms) fs in
    Collector.mining_fill (fst st) = Collector.mining_fill c /\
    Collector.returning_to_ship (fst st) = false /\
    ore_inventory (snd st) = ore_inventory ms.
Proof.
  induction fs as [| f fs IH]; intros c ms Ht Hr Hfs; cbv zeta.
  - rewrite mining_run_nil; cbn [fst snd]. auto.
  - inversion Hfs as [| ? ? Hf Hfs']; subst. rewrite mining_run_cons.
    pose proof (dock_step_idle c ms a f Ht Hr Hf) as (S1 & S2 & S3).
    pose proof (mining_step_kept c ms f) as (K1 & _ & _).
    destruct (Collector.mining_step (c, ms) f) as [c1 ms1]; cbn [fst snd] in *.
    rewrite Ht in K1.
    destruct (IH c1 ms1 K1 S2 Hfs') as (I1 & I2 & I3).
    repeat split; congruence.
Qed.

Lemma dock_step (c : Collector.ResourceCollector) (ms : Mothership) (a : Asteroid)
    (f : Collector.mining_frame) :
  Collector.mining_target c = Some a ->
  Collector.returning_to_ship c = true ->
  0 <= Collector.mining_fill c ->
  Trips.at_mothership a f ->
  let st := Collector.mining_step (c, ms) f in
  let delivered :=
    Rleb (Collector.mining_fill c) (Collector.UNLOAD_RATE * Collector.f_dt f) in
  Collector.mining_fill (fst st)
  = Rmax 0 (Collector.mining_fill c - Collector.UNLOAD_RATE * Collector.f_dt f) /\
  Collector.returning_to_ship (fst st) = negb delivered /\
  ore_inventory (snd st)
  = ore_inventory
      (if delivered && has_add_resource ms
       then add_resource ms (ore_type a)
              (py_round (Collector.mining_capacity c * purity a))
       else ms).
Proof.
  intros Ht Hr Hfill (Hdt & Hnear & Hfar). cbv zeta.
  apply Rleb_true in Hnear. apply Rleb_false in Hfar.
  unfold Collector.mining_step, Collector.update_mining.
  simpl; rewrite Ht; simpl; rewrite Hr; simpl; rewrite Hnear; simpl.
  unfold Collector.UNLOAD_RATE.
  destruct (Rleb (Rmax 0 (Collector.mining_fill c - 75 * Collector.f_dt f)) 0) eqn:E;
    destruct (Rleb (Collector.mining_fill c) (75 * Collector.f_dt f)) eqn:E';
    simpl; rewrite ?Ht, ?Hr; simpl; rewrite ?Ht, ?Hr; simpl; to_R.
  - split; [rmm; lra |]. split; [reflexivity |].
    destruct (has_add_resource ms); reflexivity.
  - exfalso. rmm; lra.
  - exfalso. rmm; lra.
  - auto.
Qed.

(** X4.  A returning collector with a positive fill stays, for frames of
    times that are not negative, within the dock radius and out of the
    mining range of its asteroid.  Its fill is then the fill less
    [UNLOAD_RATE] times the time of the frames, floored at 0; once that
    reaches 0 the collector is no longer returning and
    [round(capacity * purity)] has been credited, once, to a mothership that
    has [add_resource]; before, it is returning and nothing is credited. *)
Theorem unloading_credits_once (a : Asteroid) (fs : list Collector.mining_frame) :
  forall (c : Collector.ResourceCollector) (ms : Mothership),
    Collector.mining_target c = Some a ->
    Collector.returning_to_ship c = true ->
    0 < Collector.mining_fill c ->
    Forall (Trips.at_mothership a) fs ->
    let st := Collector.mining_run (c, ms) fs in
    let delivered :=
      Rleb (Collector.mining_fill c) (Collector.UNLOAD_RATE * Trips.run_time fs) in
    Collector.mining_fill (fst st)
    = Rmax 0 (Collector.mining_fill c - Collector.UNLOAD_RATE * Trips.run_time fs) /\
    Collector.returning_to_ship (fst st) = negb delivered /\
    ore_inventory (snd st)
    = ore_inventory
        (if delivered && has_add_resource ms
         then add_resource ms (ore_type a)
                (py_round (Collector.mining_capacity c * purity a))
         else ms).
Proof.
  induction fs as [| f fs IH]; intros c ms Ht Hr Hfill Hfs; cbv zeta.
  - rewrite mining_run_nil; cbn [fst snd]. unfold Trips.run_time; simpl.
    assert (E : Rleb (Collector.mining_fill c) (Collector.UNLOAD_RATE * 0) = false)
      by (apply Rleb_false; lra).
    rewrite E; simpl. split; [rmm; lra | auto].
  - inversion Hfs as [| ? ? Hf Hfs']; subst. rewrite mining_run_cons.
    pose proof (dock_step c ms a f Ht Hr (Rlt_le _ _ Hfill) Hf) as (S1 & S2 & S3).
    pose proof (mining_step_kept c ms f) as (K1 & K2 & K3).
    assert (Hdt : 0 <= Collector.f_dt f) by apply Hf.
    assert (HT : 0 <= Trips.run_time fs).
    { apply elapsed_nonneg. apply Forall_map.
      eapply Forall_impl; [| exact Hfs']. intros g Hg; apply Hg. }
    change (Trips.run_time (f :: fs)) with (Collector.f_dt f + Trips.run_time fs).
    destruct (Collector.mining_step (c, ms) f) as [c1 ms1]; cbn [fst snd] in *.
    rewrite Ht in K1. unfold Collector.UNLOAD_RATE in *.
    destruct (Rleb (Collector.mining_fill c) (75 * Collector.f_dt f)) eqn:E;
      simpl in S2, S3.
    + (* delivered in this frame *)
      destruct (dock_run_idle a fs c1 ms1 K1 S2 Hfs') as (I1 & I2 & I3).
      rewrite I1, I2, I3, S1, S3. to_R.
      assert (E2 : Rleb (Collector.mining_fill c)
                     (75 * (Collector.f_dt f + Trips.run_time fs)) = true)
        by (apply Rleb_true; lra).
      rewrite E2; simpl. split; [rmm; lra | auto].
    + to_R.
      assert (Hfill1 : 0 < Collector.mining_fill c1) by (rewrite S1; rmm; lra).
      destruct (IH c1 ms1 K1 S2 Hfill1 Hfs') as (I1 & I2 & I3).
      rewrite I1, I2, I3, S1, K2, K3.
      replace (Rmax 0 (Collector.mining_fill c - 75 * Collector.f_dt f))
        with (Collector.mining_fill c - 75 * Collector.f_dt f) by (rmm; lra).
      assert (E2 : Rleb (Collector.mining_fill c - 75 * Collector.f_dt f)
                     (75 * Trips.run_time fs)
                   = Rleb (Collector.mining_fill c)
                       (75 * (Collector.f_dt f + Trips.run_time fs))).
      { unfold Rleb. repeat match goal with
          |- context [Rle_dec ?x ?y] => destruct (Rle_dec x y) end;
          try reflexivity; lra. }
      rewrite E2. split; [f_equal; lra |]. split; [reflexivity |].
      destruct (Rleb _ _ && has_add_resource ms); simpl; [| exact S3].
      rewrite S3. reflexivity.
Qed.

Lemma unit_ext (u v : SpaceUnit) :
  v = with_health (with_armor u (armor v)) (health v) ->
  armor v = armor u -> health v = health u -> v = u.
Proof.
  intros E Ha Hh. rewrite E, Ha, Hh. destruct u; reflexivity.
Qed.

Lemma apply_healing_shape (u : SpaceUnit) (dt : R) :
  Collector._apply_healing u dt
  = with_health (with_armor u (armor (Collector._apply_healing u dt)))
      (health (Collector._apply_healing u dt)).
Proof.
  unfold Collector._apply_healing.
  repeat match goal with
    | |- context [Rltb ?a ?b] => destruct (Rltb a b)
    end; destruct u; reflexivity.
Qed.

Lemma apply_healing_amounts (u : SpaceUnit) (dt : R) :
  Healing.within_max u -> 0 <= dt ->
  let budget := Collector.HEAL_RATE * dt in
  let to_armor :=
    if Rltb 0 (max_armor u) then Rmin budget (max_armor u - armor u) else 0 in
  armor (Collector._apply_healing u dt) = armor u + to_armor /\
  health (Collector._apply_healing u dt)
  = health u + Rmin (budget - to_armor) (max_health u - health u).
Proof.
  intros [Hh Ha] Hdt. cbv zeta. unfold Collector._apply_healing, Collector.HEAL_RATE.
  destruct (Rltb 0 (max_armor u)) eqn:E1;
    [destruct (Rltb 0 (max_armor u - armor u)) eqn:E2 |].
  all: match goal with
       | |- context [Rltb 0 ?x] => destruct (Rltb 0 x) eqn:E3
       end.
  all: try match goal with
       | |- context [Rltb 0 ?x] => destruct (Rltb 0 x) eqn:E4
       end.
  all: simpl in *; to_R; split; rmm; simpl in *; lra.
Qed.

Lemma apply_healing_maxima (u : SpaceUnit) (dt : R) :
  max_armor (Collector._apply_healing u dt) = max_armor u /\
  max_health (Collector._apply_healing u dt) = max_health u.
Proof.
  rewrite apply_healing_shape. split; reflexivity.
Qed.

Lemma Rmin_split (a b A : R) :
  0 <= a -> 0 <= b -> 0 <= A ->
  Rmin a A + Rmin b (A - Rmin a A) = Rmin (a + b) A.
Proof. intros. unfold Rmin. repeat destruct (Rle_dec _ _); lra. Qed.

Lemma Rmin_left_over (a A : R) : 0 <= a -> 0 <= a - Rmin a A.
Proof. intros. unfold Rmin. destruct (Rle_dec _ _); lra. Qed.

(** X6.  Healing a unit within its maxima for [dt1] and then for [dt2]
    gives the unit that healing it for [dt1 + dt2] gives: the result does
    not depend on the frame rate. *)
Theorem healing_is_frame_rate_independent (u : SpaceUnit) (dt1 dt2 : R) :
  Healing.within_max u -> 0 <= dt1 -> 0 <= dt2 ->
  Collector._apply_healing (Collector._apply_healing u dt1) dt2
  = Collector._apply_healing u (dt1 + dt2).
Proof.
  intros Hw H1 H2.
  pose proof (apply_healing_within_max u dt1 Hw) as Hw1.
  pose proof (apply_healing_amounts u dt1 Hw H1) as [A1 B1].
  pose proof (apply_healing_amounts _ dt2 Hw1 H2) as [A2 B2].
  pose proof (apply_healing_amounts u (dt1 + dt2) Hw ltac:(lra)) as [A3 B3].
  pose proof (apply_healing_maxima u dt1) as [M1 M2].
  cbv zeta in *. rewrite M1, M2 in *. destruct Hw as [Hh Ha].
  unfold Collector.HEAL_RATE in *.
  assert (Ha1 : 0 <= 15 * dt1) by lra. assert (Ha2 : 0 <= 15 * dt2) by lra.
  assert (HA : 0 <= max_armor u - armor u) by lra.
  assert (HH : 0 <= max_health u - health u) by lra.
  assert (EA : armor (Collector._apply_healing (Collector._apply_healing u dt1) dt2)
               = armor (Collector._apply_healing u (dt1 + dt2))
               /\ health (Collector._apply_healing (Collector._apply_healing u dt1) dt2)
               = health (Collector._apply_healing u (dt1 + dt2))).
  { rewrite A2, A3, B2, B3, B1, A1.
    replace (15 * (dt1 + dt2)) with (15 * dt1 + 15 * dt2) by lra.
    destruct (Rltb 0 (max_armor u)).
    - pose proof (Rmin_split _ _ _ Ha1 Ha2 HA) as S1.
      pose proof (Rmin_left_over (15 * dt1) (max_armor u - armor u) Ha1) as L1.
      assert (L2 : 0 <= 15 * dt2
                        - Rmin (15 * dt2)
                            (max_armor u
                             - (armor u + Rmin (15 * dt1) (max_armor u - armor u)))).
      { apply Rmin_left_over; exact Ha2. }
      pose proof (Rmin_split _ _ _ L1 L2 HH) as S2.
      replace (max_armor u - (armor u + Rmin (15 * dt1) (max_armor u - armor u)))
        with (max_armor u - armor u - Rmin (15 * dt1) (max_armor u - armor u))
        in * by lra.
      split; [lra |].
      replace (15 * dt1 + 15 * dt2 - Rmin (15 * dt1 + 15 * dt2) (max_armor u - armor u))
        with (15 * dt1 - Rmin (15 * dt1) (max_armor u - armor u)
              + (15 * dt2
                 - Rmin (15 * dt2)
                     (max_armor u - armor u
                      - Rmin (15 * dt1) (max_armor u - armor u))))
        by lra.
      rewrite <- S2.
      replace (max_health u
               - (health u
                  + Rmin (15 * dt1 - Rmin (15 * dt1) (max_armor u - armor u))
                      (max_health u - health u)))
        with (max_health u - health u
              - Rmin (15 * dt1 - Rmin (15 * dt1) (max_armor u - armor u))
                  (max_health u - health u)) by lra.
      lra.
    - split; [lra |].
      assert (L1 : 0 <= 15 * dt1 - 0) by lra. assert (L2 : 0 <= 15 * dt2 - 0) by lra.
      pose proof (Rmin_split _ _ _ L1 L2 HH) as S2.
      replace (15 * dt1 + 15 * dt2 - 0) with (15 * dt1 - 0 + (15 * dt2 - 0)) by lra.
      rewrite <- S2.
      replace (max_health u - (health u + Rmin (15 * dt1 - 0) (max_health u - health u)))
        with (max_health u - health u - Rmin (15 * dt1 - 0) (max_health u - health u))
        by lra.
      lra. }
  destruct EA as [EA EH].
  rewrite (apply_healing_shape (Collector._apply_healing u dt1) dt2).
  rewrite (apply_healing_shape u (dt1 + dt2)).
  rewrite EA, EH.
  rewrite (apply_healing_shape u dt1). destruct u; reflexivity.
Qed.

(** X3.  A collector that has an asteroid as target and is not returning
    stays, for frames of times that are not negative, within the mining
    range of the asteroid and out of the dock radius.  Its fill is then the
    smaller of the capacity and the fill plus [MINE_RATE] times the time of
    the frames, however the time is cut into frames; it is returning exactly
    when there was a frame and that sum reaches the capacity; nothing is
    credited to the mothership. *)
Theorem mining_fills_at_mine_rate :
  forall (c : Collector.ResourceCollector) (ms : Mothership) (a : Asteroids.Asteroid)
         (fs : list Collector.mining_frame),
    Collector.mining_target c = Some a ->
    Collector.returning_to_ship c = false ->
    Collector.mining_fill c <= Collector.mining_capacity c ->
    Forall (Trips.at_asteroid a) fs ->
    let st := Collector.mining_run (c, ms) fs in
    Collector.mining_fill (fst st)
    = Rmin (Collector.mining_capacity c)
        (Collector.mining_fill c + Collector.MINE_RATE * Trips.run_time fs) /\
    (Collector.returning_to_ship (fst st) = true <->
     fs <> [] /\
     Collector.mining_capacity c
     <= Collector.mining_fill c + Collector.MINE_RATE * Trips.run_time fs) /\
    ore_inventory (snd st) = ore_inventory ms.
Proof.
  intros c ms a fs Ht Hr Hle Hfs. cbv zeta.
  assert (Hret : Collector.returning_to_ship c = true ->
                 Collector.mining_fill c = Collector.mining_capacity c)
    by (rewrite Hr; discriminate).
  destruct (mining_run_at_asteroid a fs c ms Ht Hle Hret Hfs) as (H1 & H2 & H3).
  split; [exact H1 |]. split; [| exact H3].
  rewrite H2, Hr. split; [intros [H | H]; [discriminate | exact H] | auto].
Qed.

Lemma at_rock dt : 0 <= dt -> Trips.at_asteroid Examples.rock (Yard.frame_mining dt).
Proof.
  intros H. split; [exact H |]. unfold Collector.MINE_RANGE. split.
  - apply vlength_le_iff; [lra |]. unfold length_squared; simpl; lra.
  - apply vlength_gt_iff; [lra |]. unfold length_squared; simpl; lra.
Qed.

Lemma at_depot dt : 0 <= dt -> Trips.at_mothership Examples.rock (Yard.frame_docked dt).
Proof.
  intros H. split; [exact H |]. unfold Collector.MINE_RANGE. split.
  - apply vlength_le_iff; [lra |]. unfold length_squared; simpl; lra.
  - apply vlength_gt_iff; [lra |]. unfold length_squared; simpl; lra.
Qed.

(** Three frames of 5, 4 and 3 seconds at the rock: the fill is 120. *)
Lemma mining_fills_at_mine_rate_witness :
  Collector.mining_fill
    (fst (Collector.mining_run (Examples.miner, Examples.depot)
            [Yard.frame_mining 5; Yard.frame_mining 4; Yard.frame_mining 3]))
  = 120.
Proof.
  destruct (mining_fills_at_mine_rate Examples.miner Examples.depot Examples.rock
              [Yard.frame_mining 5; Yard.frame_mining 4; Yard.frame_mining 3]
              eq_refl eq_refl ltac:(simpl; lra)
              ltac:(repeat (apply Forall_cons; [apply at_rock; lra |]); apply Forall_nil)) as (H & _).
  rewrite H. unfold Trips.run_time, Collector.MINE_RATE; simpl.
  unfold Rmin. destruct (Rle_dec _ _); lra.
Defined.


(** The loaded miner at the depot for two frames of one second: the hold
    of 150 is empty and 75 of the ore A are credited; after one frame of
    one second, nothing is credited yet. *)
Lemma unloading_credits_once_witness :
  ore_inventory
    (snd (Collector.mining_run (Yard.loaded_miner, Examples.depot)
            [Yard.frame_docked 1; Yard.frame_docked 1])) "A"%string = 75%Z /\
  ore_inventory
    (snd (Collector.mining_run (Yard.loaded_miner, Examples.depot)
            [Yard.frame_docked 1])) "A"%string = 0%Z.
Proof.
  split.
  - destruct (unloading_credits_once Examples.rock
                [Yard.frame_docked 1; Yard.frame_docked 1] Yard.loaded_miner Examples.depot
                eq_refl eq_refl ltac:(simpl; lra)
                ltac:(repeat (apply Forall_cons; [apply at_depot; lra |]); apply Forall_nil)) as (_ & _ & H).
    rewrite H. unfold Trips.run_time, Collector.UNLOAD_RATE; simpl.
    rewrite (proj2 (Rleb_true 150 (75 * (1 + (1 + 0))))) by lra. simpl.
    rewrite py_round_75. reflexivity.
  - destruct (unloading_credits_once Examples.rock
                [Yard.frame_docked 1] Yard.loaded_miner Examples.depot
                eq_refl eq_refl ltac:(simpl; lra)
                ltac:(repeat (apply Forall_cons; [apply at_depot; lra |]); apply Forall_nil)) as (_ & _ & H).
    rewrite H. unfold Trips.run_time, Collector.UNLOAD_RATE; simpl.
    rewrite (proj2 (Rleb_false 150 (75 * (1 + 0)))) by lra. reflexivity.
Defined.

(** X5.  [_apply_healing] on a unit within its maxima, for a time that is
    not negative: of the budget [HEAL_RATE * dt] the armour takes what it
    lacks (nothing when the unit has no armour at all), the health takes
    what it lacks of the rest, and nothing else of the unit changes. *)
Theorem healing_fills_armor_first :
  forall (u : SpaceUnit) (dt : R),
    Healing.within_max u -> 0 <= dt ->
    let budget := Collector.HEAL_RATE * dt in
    let to_armor :=
      if Rltb 0 (max_armor u) then Rmin budget (max_armor u - armor u) else 0 in
    armor (Collector._apply_healing u dt) = armor u + to_armor /\
    health (Collector._apply_healing u dt)
    = health u + Rmin (budget - to_armor) (max_health u - health u) /\
    Collector._apply_healing u dt
    = with_health (with_armor u (armor (Collector._apply_healing u dt)))
        (health (Collector._apply_healing u dt)).
Proof.
  intros u dt Hw Hdt. cbv zeta.
  destruct (apply_healing_amounts u dt Hw Hdt) as [A B].
  split; [exact A |]. split; [exact B | apply apply_healing_shape].
Qed.

Lemma damaged_within_max : Healing.within_max Yard.damaged.
Proof. split; simpl; lra. Qed.

(** One second of healing of the damaged unit: 10 of the 15 points fill the
    armour, the other 5 go to the hull. *)
Lemma healing_fills_armor_first_witness :
  armor (Collector._apply_healing Yard.damaged 1) = 50 /\
  health (Collector._apply_healing Yard.damaged 1) = 55.
Proof.
  destruct (healing_fills_armor_first Yard.damaged 1 damaged_within_max
              ltac:(lra)) as (A & B & _).
  rewrite A, B. unfold Collector.HEAL_RATE; simpl.
  rewrite (proj2 (Rltb_true 0 50)) by lra.
  unfold Rmin. repeat destruct (Rle_dec _ _); lra.
Defined.


Lemma healing_is_frame_rate_independent_witness :
  Collector._apply_healing (Collector._apply_healing Yard.damaged (1 / 2)) (1 / 2)
  = Collector._apply_healing Yard.damaged (1 / 2 + 1 / 2).
Proof.
  apply (healing_is_frame_rate_independent Yard.damaged (1 / 2) (1 / 2)
           damaged_within_max); lra.
Defined.

Lemma min_by_le_start {A : Type} (key : A -> R) (l : list A) :
  forall x, key (Utils.min_by key x l) <= key x.
Proof.
  induction l as [| y l IH]; intros x; simpl; [lra |].
  specialize (IH (if Rltb (key y) (key x) then y else x)).
  destruct (Rltb (key y) (key x)) eqn:E; to_R; lra.
Qed.

Lemma min_by_first {A : Type} (key : A -> R) (l : list A) :
  forall x, exists before after,
    x :: l = before ++ Utils.min_by key x l :: after /\
    Forall (fun e => key (Utils.min_by key x l) < key e) before /\
    Forall (fun e => key (Utils.min_by key x l) <= key e) after.
Proof.
  induction l as [| y l IH]; intros x; simpl.
  - exists [], []. repeat split; constructor.
  - destruct (Rltb (key y) (key x)) eqn:E; to_R.
    + destruct (IH y) as (b & a & E1 & Hb & Ha).
      pose proof (min_by_le_start key l y) as Hle.
      remember (Utils.min_by key y l) as m eqn:Hm. clear Hm IH.
      exists (x :: b), a. split; [simpl; rewrite <- E1; reflexivity |].
      split; [| exact Ha]. constructor; [lra | exact Hb].
    + destruct (IH x) as (b & a & E1 & Hb & Ha).
      remember (Utils.min_by key x l) as m eqn:Hm. clear Hm IH.
      destruct b as [| x' b']; simpl in E1; inversion E1; subst.
      * exists [], (y :: a). split; [reflexivity |].
        split; [constructor |]. constructor; [exact E | exact Ha].
      * exists (x' :: y :: b'), a. split; [reflexivity |].
        split; [| exact Ha].
        inversion Hb as [| ? ? Hx Hb']; subst.
        constructor; [exact Hx |]. constructor; [lra | exact Hb'].
Qed.

(** X7.  The target that auto-fire and the enemy steering choose,
    [min(fleet, key = squared distance)]: no ship of the fleet is nearer,
    and the ships before it in the fleet are strictly farther (of several
    nearest ships the first one is taken).  There is none only for an empty
    fleet. *)
Theorem nearest_is_first_minimum :
  forall (s : SpaceUnit) (fleet : list Ship),
    match Utils.nearest s fleet with
    | None => fleet = []
    | Some t =>
        let d2 := fun e : Ship => length_squared (vsub (pos (hull e)) (pos s)) in
        exists before after,
          fleet = before ++ t :: after /\
          Forall (fun e => d2 t < d2 e) before /\
          Forall (fun e => d2 t <= d2 e) after
    end.
Proof.
  intros s fleet. unfold Utils.nearest. destruct fleet as [| x l]; [reflexivity |].
  cbv zeta.
  exact (min_by_first (fun e => length_squared (vsub (pos (hull e)) (pos s))) l x).
Qed.

Section AutoFire.
Context {cfg : Config}.

(** What the loop body gives for one source. *)
Lemma auto_fire_one_spec (s : Ship) (targets : list Ship) (owner : bool) (sf : R) :
  match Utils.auto_fire_one s targets owner sf with
  | (s', None) => s' = s
  | (s', Some p) =>
      s' = map_hull reset_cooldown s /\
      0 < bullet_damage (hull s) /\
      (exists t, Utils.nearest (hull s) targets = Some t /\
                 is_target_in_range (hull s) (hull t) = true /\
                 Proj.direction p
                 = (if Reqb (length_squared (vsub (pos (hull t)) (pos (hull s)))) 0
                    then V2 1 0
                    else normalize (vsub (pos (hull t)) (pos (hull s))))) /\
      ready_to_fire (hull s) = true /\
      Proj.pos p = pos (hull s) /\
      Proj.hull_damage p = bullet_damage (hull s) /\
      Proj.armor_damage p = armor_damage (hull s) /\
      Proj.owner_is_enemy p = owner /\
      Proj.speed p = PROJECTILE_SPEED * sf /\
      Proj.lifetime p = PROJECTILE_LIFETIME /\
      Proj.radius p = PROJECTILE_RADIUS /\
      vlength (Proj.direction p) = 1
  end.
Proof.
  unfold Utils.auto_fire_one.
  destruct (Rleb (bullet_damage (hull s)) 0) eqn:E; [reflexivity |].
  destruct (Utils.nearest (hull s) targets) as [t |] eqn:N; [| reflexivity].
  destruct (is_target_in_range (hull s) (hull t)) eqn:Hr; simpl; [| reflexivity].
  destruct (ready_to_fire (hull s)) eqn:Hf; [| reflexivity].
  to_R. split; [reflexivity |]. split; [exact E |].
  split; [exists t; repeat split; auto |].
  repeat split.
  - simpl. unfold Reqb. destruct (Req_dec_T sf 1) as [-> | _]; lra.
  - apply init_direction_unit.
Qed.

Lemma auto_fire_loop_spec (targets : list Ship) (owner : bool) (sf : R) :
  forall (source : list Ship) (group : list Proj.Projectile),
    Utils.auto_fire_loop source targets group owner sf
    = (map (fun s => fst (Utils.auto_fire_one s targets owner sf)) source,
       group ++ flat_map
                  (fun s => match snd (Utils.auto_fire_one s targets owner sf) with
                            | Some p => [p]
                            | None => []
                            end) source).
Proof.
  induction source as [| s rest IH]; intros group; simpl.
  - rewrite app_nil_r. reflexivity.
  - destruct (Utils.auto_fire_one s targets owner sf) as [s' [p |]]; simpl;
      rewrite IH; [rewrite <- app_assoc |]; reflexivity.
Qed.

End AutoFire.

(** X8.  [handle_auto_fire] keeps the projectiles of the group and adds
    new ones behind them, at most one for each source.  Every new projectile
    has the owner flag of the call, the speed [PROJECTILE_SPEED *
    speed_factor], the default lifetime, a direction of length 1, and comes
    from a source with a positive bullet damage that was ready to fire and
    had its nearest target in range: it starts at the position of that
    source and carries its bullet and armour damage.  A source is left as it
    was or has its cooldown reset, and with no target nothing happens. *)
Theorem auto_fire_adds_shots :
  forall (cfg : Config) (source_fleet target_fleet : list Ship)
         (group : list Proj.Projectile) (owner_is_enemy : bool) (speed_factor : R),
    let res :=
      Utils.handle_auto_fire source_fleet target_fleet group owner_is_enemy
        speed_factor in
    (exists new,
       snd res = group ++ new /\
       (List.length new <= List.length source_fleet)%nat /\
       Forall
         (fun p =>
            Proj.owner_is_enemy p = owner_is_enemy /\
            Proj.speed p = PROJECTILE_SPEED * speed_factor /\
            Proj.lifetime p = PROJECTILE_LIFETIME /\
            vlength (Proj.direction p) = 1 /\
            exists s t,
              In s source_fleet /\
              Utils.nearest (hull s) target_fleet = Some t /\
              is_target_in_range (hull s) (hull t) = true /\
              ready_to_fire (hull s) = true /\
              0 < bullet_damage (hull s) /\
              Proj.pos p = pos (hull s) /\
              Proj.hull_damage p = bullet_damage (hull s) /\
              Proj.armor_damage p = armor_damage (hull s)) new) /\
    Forall2 (fun s s' => s' = s \/ s' = map_hull reset_cooldown s)
      source_fleet (fst res) /\
    (target_fleet = [] -> res = (source_fleet, group)).
Proof.
  intros cfg src tgt g owner sf. cbv zeta. unfold Utils.handle_auto_fire.
  destruct tgt as [| t0 tgt'].
  - simpl. split; [| split; [| reflexivity]].
    + exists []. rewrite app_nil_r. split; [reflexivity |].
      split; [simpl; lia | constructor].
    + clear. induction src; constructor; auto.
  - rewrite auto_fire_loop_spec. cbn [fst snd].
    split; [| split; [| discriminate]].
    + eexists. split; [reflexivity |].
      induction src as [| s rest IH]; simpl; [split; [lia | constructor] |].
      destruct IH as [IH1 IH2].
      pose proof (auto_fire_one_spec s (t0 :: tgt') owner sf) as Hs.
      destruct (Utils.auto_fire_one s (t0 :: tgt') owner sf) as [s' [p |]]; simpl.
      * split; [lia |]. constructor.
        -- destruct Hs as (_ & Hd & (t & Hn & Hr & _) & Hf & Hp & Hh & Ha & Ho & Hsp & Hl
                           & _ & Hu).
           repeat (split; [assumption |]).
           exists s, t. repeat split; auto.
        -- eapply Forall_impl; [| exact IH2].
           intros q (Q1 & Q2 & Q3 & Q4 & s1 & t1 & Q5 & Q6).
           repeat (split; [assumption |]). exists s1, t1. split; [right |]; assumption.
      * split; [lia |].
        eapply Forall_impl; [| exact IH2].
        intros q (Q1 & Q2 & Q3 & Q4 & s1 & t1 & Q5 & Q6).
        repeat (split; [assumption |]). exists s1, t1. split; [right |]; assumption.
    + induction src as [| s rest IH]; simpl; constructor; [| exact IH].
      pose proof (auto_fire_one_spec s (t0 :: tgt') owner sf) as Hs.
      destruct (Utils.auto_fire_one s (t0 :: tgt') owner sf) as [s' [p |]]; simpl.
      * right. apply Hs.
      * left. exact Hs.
Qed.

Section Hits.
Context {cfg : Config} {methods : Methods} {engine : Engine}.
Local Arguments Utils.resolve_projectile : simpl never.

Lemma hit_first_length proj fleet :
  List.length (fst (Utils.hit_first proj fleet)) = List.length fleet.
Proof.
  induction fleet as [| p rest IH]; simpl; [reflexivity |].
  destruct (collides_with_shape proj (hull p)).
  - destruct (Utils.route_damage p _ _); reflexivity.
  - destruct (Utils.hit_first proj rest) as [rest' r]; simpl in *.
    f_equal. exact IH.
Qed.

Lemma hit_first_no_hit proj fleet :
  snd (Utils.hit_first proj fleet) = Normal false ->
  fst (Utils.hit_first proj fleet) = fleet.
Proof.
  induction fleet as [| p rest IH]; simpl; [reflexivity |].
  destruct (collides_with_shape proj (hull p)).
  - destruct (Utils.route_damage p _ _); discriminate.
  - destruct (Utils.hit_first proj rest) as [rest' r]; simpl in *.
    intros H. f_equal. exact (IH H).
Qed.

Lemma hit_first_untouched proj fleet :
  Forall (fun p => collides_with_shape proj (hull p) = false) fleet ->
  Utils.hit_first proj fleet = (fleet, Normal false).
Proof.
  induction 1 as [| p rest Hp _ IH]; simpl; [reflexivity |].
  rewrite Hp, IH. reflexivity.
Qed.

(** One turn of the loop. *)
Lemma resolve_projectile_turn proj acc pf ef :
  exists acc' pf' ef',
    Utils.resolve_projectile proj (acc, pf, ef) = Normal (acc', pf', ef') /\
    (acc' = acc \/ (acc' = acc ++ [proj] /\ pf' = pf /\ ef' = ef)) /\
    List.length pf' = List.length pf /\
    List.length ef' = List.length ef /\
    (Proj.owner_is_enemy proj = true -> ef' = ef) /\
    (Proj.owner_is_enemy proj = false -> pf' = pf).
Proof.
  rewrite resolve_projectile_spec. unfold Utils.resolve_body.
  destruct (Proj.owner_is_enemy proj).
  - pose proof (hit_first_length proj pf) as L.
    pose proof (hit_first_no_hit proj pf) as N.
    destruct (Utils.hit_first proj pf) as [pf' [[|] | e]]; simpl in *.
    + exists acc, pf', ef. intuition discriminate.
    + exists (acc ++ [proj]), pf', ef. rewrite (N eq_refl). intuition.
    + exists acc, pf', ef. intuition discriminate.
  - pose proof (hit_first_length proj ef) as L.
    pose proof (hit_first_no_hit proj ef) as N.
    destruct (Utils.hit_first proj ef) as [ef' [[|] | e]]; simpl in *.
    + exists acc, pf, ef'. intuition discriminate.
    + exists (acc ++ [proj]), pf, ef'. rewrite (N eq_refl). intuition.
    + exists acc, pf, ef'. intuition discriminate.
Qed.

Lemma for_each_resolve_frame group :
  forall acc pf ef,
  exists kept pf' ef',
    Utils.for_each group Utils.resolve_projectile (acc, pf, ef)
      = Normal (acc ++ kept, pf', ef') /\
    incl kept group /\
    (List.length kept <= List.length group)%nat /\
    List.length pf' = List.length pf /\
    List.length ef' = List.length ef /\
    (Forall (fun p => Proj.owner_is_enemy p = true) group -> ef' = ef) /\
    (Forall (fun p => Proj.owner_is_enemy p = false) group -> pf' = pf) /\
    (List.length kept = List.length group -> kept = group /\ pf' = pf /\ ef' = ef).
Proof.
  induction group as [| proj rest IH]; intros acc pf ef; simpl.
  - exists [], pf, ef. rewrite app_nil_r. repeat split; auto using incl_refl.
  - destruct (resolve_projectile_turn proj acc pf ef)
      as (acc1 & pf1 & ef1 & E & Hacc & L1 & L2 & O1 & O2).
    rewrite E; simpl.
    destruct (IH acc1 pf1 ef1) as (kept & pf' & ef' & E' & I & L & L3 & L4 & O3 & O4 & F).
    rewrite E'.
    destruct Hacc as [-> | (-> & -> & ->)].
    + exists kept, pf', ef'. split; [reflexivity |].
      split; [apply incl_tl; exact I |]. split; [lia |].
      split; [congruence |]. split; [congruence |].
      split; [| split].
      * intros H; inversion H; subst. rewrite O3, O1; auto.
      * intros H; inversion H; subst. rewrite O4, O2; auto.
      * intros H. exfalso. lia.
    + exists (proj :: kept), pf', ef'. rewrite <- app_assoc. split; [reflexivity |].
      split; [apply incl_cons; [left; reflexivity | apply incl_tl; exact I] |].
      split; [simpl; lia |].
      split; [exact L3 |]. split; [exact L4 |].
      split; [| split].
      * intros H; inversion H; subst. auto.
      * intros H; inversion H; subst. auto.
      * intros H. simpl in H. destruct F as (-> & -> & ->); [lia |]. auto.
Qed.



Lemma resolve_projectile_sides proj pf ef :
  exists keep pf1 ef1,
    (forall acc, Utils.resolve_projectile proj (acc, pf, ef)
                 = Normal (acc ++ keep, pf1, ef1)) /\
    (keep = [] \/ keep = [proj]) /\
    (if Proj.owner_is_enemy proj
     then ef1 = ef /\
          forall acc ef0, Utils.resolve_projectile proj (acc, pf, ef0)
                          = Normal (acc ++ keep, pf1, ef0)
     else pf1 = pf /\
          forall acc pf0, Utils.resolve_projectile proj (acc, pf0, ef)
                          = Normal (acc ++ keep, pf0, ef1)).
Proof.
  destruct (Proj.owner_is_enemy proj) eqn:O.
  - destruct (Utils.hit_first proj pf) as [pf' r] eqn:H.
    exists (match r with Normal false => [proj] | _ => [] end), pf', ef.
    split; [| split; [| split; [reflexivity |]]].
    + intros acc. rewrite resolve_projectile_spec. unfold Utils.resolve_body.
      rewrite O, H. destruct r as [[|] | e]; rewrite ?app_nil_r; reflexivity.
    + destruct r as [[|] | e]; auto.
    + intros acc ef0. rewrite resolve_projectile_spec. unfold Utils.resolve_body.
      rewrite O, H. destruct r as [[|] | e]; rewrite ?app_nil_r; reflexivity.
  - destruct (Utils.hit_first proj ef) as [ef' r] eqn:H.
    exists (match r with Normal false => [proj] | _ => [] end), pf, ef'.
    split; [| split; [| split; [reflexivity |]]].
    + intros acc. rewrite resolve_projectile_spec. unfold Utils.resolve_body.
      rewrite O, H. destruct r as [[|] | e]; rewrite ?app_nil_r; reflexivity.
    + destruct r as [[|] | e]; auto.
    + intros acc pf0. rewrite resolve_projectile_spec. unfold Utils.resolve_body.
      rewrite O, H. destruct r as [[|] | e]; rewrite ?app_nil_r; reflexivity.
Qed.

Lemma for_each_resolve_sides group :
  forall pf ef,
  exists kept pf' ef',
    (forall acc, Utils.for_each group Utils.resolve_projectile (acc, pf, ef)
                 = Normal (acc ++ kept, pf', ef')) /\
    (forall acc ef0,
       Utils.for_each (filter Proj.owner_is_enemy group) Utils.resolve_projectile
         (acc, pf, ef0)
       = Normal (acc ++ filter Proj.owner_is_enemy kept, pf', ef0)) /\
    (forall acc pf0,
       Utils.for_each (filter (fun p => negb (Proj.owner_is_enemy p)) group)
         Utils.resolve_projectile (acc, pf0, ef)
       = Normal (acc ++ filter (fun p => negb (Proj.owner_is_enemy p)) kept, pf0, ef')).
Proof.
  induction group as [| proj rest IH]; intros pf ef.
  - exists [], pf, ef. simpl. repeat split; intros; rewrite app_nil_r; reflexivity.
  - destruct (resolve_projectile_sides proj pf ef) as (keep & pf1 & ef1 & E & Hk & Hs).
    destruct (IH pf1 ef1) as (kept & pf' & ef' & E1 & E2 & E3).
    exists (keep ++ kept), pf', ef'. split; [| split].
    + intros acc. simpl. rewrite E; simpl. rewrite E1, app_assoc. reflexivity.
    + intros acc ef0. simpl. rewrite filter_app.
      destruct (Proj.owner_is_enemy proj) eqn:O.
      * destruct Hs as [-> Hs]. simpl. rewrite Hs; simpl. rewrite E2.
        destruct Hk as [-> | ->]; simpl; rewrite ?O; simpl;
          rewrite <- ?app_assoc; reflexivity.
      * destruct Hs as [-> Hs]. rewrite E2.
        destruct Hk as [-> | ->]; simpl; rewrite ?O; reflexivity.
    + intros acc pf0. simpl. rewrite filter_app.
      destruct (Proj.owner_is_enemy proj) eqn:O; simpl.
      * destruct Hs as [-> Hs]. rewrite E3.
        destruct Hk as [-> | ->]; simpl; rewrite ?O; reflexivity.
      * destruct Hs as [-> Hs]. rewrite Hs; simpl. rewrite E3.
        destruct Hk as [-> | ->]; simpl; rewrite ?O; simpl;
          rewrite <- ?app_assoc; reflexivity.
Qed.

End Hits.

(** X9.  [handle_projectile_collisions] returns, and the two sides do not
    interfere, whatever the damage methods do: the player fleet after it is
    the one that the enemy projectiles alone give, the enemy fleet the one
    that the player projectiles alone give, and the projectiles of a side
    that are left are those that are left when that side is resolved alone.
    No projectile changes a ship of its own side. *)
Theorem sides_resolve_independently :
  forall (cfg : Config) (methods : Methods) (engine : Engine)
         (group : list Proj.Projectile) (player_fleet enemy_fleet : list Ship),
  exists group' player_fleet' enemy_fleet',
    Utils.handle_projectile_collisions group player_fleet enemy_fleet
      = Normal (group', player_fleet', enemy_fleet') /\
    (forall others,
       Utils.handle_projectile_collisions (filter Proj.owner_is_enemy group)
         player_fleet others
       = Normal (filter Proj.owner_is_enemy group', player_fleet', others)) /\
    (forall others,
       Utils.handle_projectile_collisions
         (filter (fun p => negb (Proj.owner_is_enemy p)) group) others enemy_fleet
       = Normal (filter (fun p => negb (Proj.owner_is_enemy p)) group', others,
                 enemy_fleet')).
Proof.
  intros cfg methods engine group pf ef.
  unfold Utils.handle_projectile_collisions.
  destruct (for_each_resolve_sides group pf ef) as (kept & pf' & ef' & E1 & E2 & E3).
  exists kept, pf', ef'. split; [apply (E1 []) |].
  split; intros others; [apply (E2 []) | apply (E3 [])].
Qed.

(** X10.  [handle_projectile_collisions] only removes projectiles and
    neither adds nor removes a ship; when no projectile was removed, the
    group and both fleets are as they were: a ship changes only by a hit
    that spends the projectile. *)
Theorem hits_spend_projectiles :
  forall (cfg : Config) (methods : Methods) (engine : Engine)
         (group : list Proj.Projectile) (player_fleet enemy_fleet : list Ship),
  exists group' player_fleet' enemy_fleet',
    Utils.handle_projectile_collisions group player_fleet enemy_fleet
      = Normal (group', player_fleet', enemy_fleet') /\
    incl group' group /\
    (List.length group' <= List.length group)%nat /\
    List.length player_fleet' = List.length player_fleet /\
    List.length enemy_fleet' = List.length enemy_fleet /\
    (List.length group' = List.length group ->
     group' = group /\ player_fleet' = player_fleet /\ enemy_fleet' = enemy_fleet).
Proof.
  intros cfg methods engine group pf ef.
  unfold Utils.handle_projectile_collisions.
  destruct (for_each_resolve_frame group [] pf ef)
    as (kept & pf' & ef' & E & I & L & L1 & L2 & _ & _ & F).
  exists kept, pf', ef'. auto 10.
Qed.

Lemma moved_refl a : Contact.moved a a.
Proof.
  exists (pos (hull a)). destruct a as [u | c]; simpl.
  - destruct u; reflexivity.
  - destruct c as [u ? ? ? ? ?]; destruct u; reflexivity.
Qed.

Lemma moved_trans a b c : Contact.moved a b -> Contact.moved b c -> Contact.moved a c.
Proof.
  intros [p ->] [q ->]. exists q. destruct a as [u | k]; reflexivity.
Qed.

Lemma moved_all_refl l : Forall2 Contact.moved l l.
Proof. induction l; constructor; auto using moved_refl. Qed.

Lemma moved_all_trans l1 : forall l2 l3,
  Forall2 Contact.moved l1 l2 -> Forall2 Contact.moved l2 l3 ->
  Forall2 Contact.moved l1 l3.
Proof.
  induction l1 as [| a l1 IH]; intros l2 l3 H1 H2; inversion H1; subst;
    inversion H2; subst; constructor; eauto using moved_trans.
Qed.

Section Pushes.
Context {cfg : Config} {methods : Methods} {engine : Engine}.


Lemma pair_row_pushes body : Contact.pushes body ->
  forall bs a, exists a' bs',
    GameScreen.pair_row body a bs = Normal (a', bs') /\
    Contact.moved a a' /\ Forall2 Contact.moved bs bs'.
Proof.
  intros Hb. induction bs as [| b bs IH]; intros a; simpl.
  - exists a, []. auto using moved_refl.
  - destruct (Hb a b) as (a1 & b1 & E & Ma & Mb). rewrite E; simpl.
    destruct (IH a1) as (a2 & bs2 & E2 & Ma2 & Mbs). rewrite E2; simpl.
    exists a2, (b1 :: bs2). eauto using moved_trans.
Qed.

Lemma pair_cross_pushes body : Contact.pushes body ->
  forall fleet_a fleet_b, exists fleet_a' fleet_b',
    GameScreen.pair_cross body fleet_a fleet_b = Normal (fleet_a', fleet_b') /\
    Forall2 Contact.moved fleet_a fleet_a' /\ Forall2 Contact.moved fleet_b fleet_b'.
Proof.
  intros Hb. induction fleet_a as [| a rest IH]; intros fleet_b; simpl.
  - exists [], fleet_b. auto using moved_all_refl.
  - destruct (pair_row_pushes body Hb fleet_b a) as (a1 & fb1 & E & Ma & Mb).
    rewrite E; simpl.
    destruct (IH fb1) as (rest2 & fb2 & E2 & Mr & Mb2). rewrite E2; simpl.
    exists (a1 :: rest2), fb2. eauto using moved_all_trans.
Qed.

Lemma pair_within_upto_pushes body : Contact.pushes body ->
  forall n fleet, exists fleet',
    GameScreen.pair_within_upto n body fleet = Normal fleet' /\
    Forall2 Contact.moved fleet fleet'.
Proof.
  intros Hb. induction n as [| n IH]; intros fleet; simpl.
  - exists fleet. auto using moved_all_refl.
  - destruct fleet as [| a rest]; [exists []; auto |].
    destruct (pair_row_pushes body Hb rest a) as (a1 & rest1 & E & Ma & Mr).
    rewrite E; simpl.
    destruct (IH rest1) as (rest2 & E2 & Mr2). rewrite E2; simpl.
    exists (a1 :: rest2). eauto using moved_all_trans.
Qed.

Lemma separate_pushes : Contact.pushes GameScreen.separate.
Proof.
  intros a b. unfold GameScreen.separate.
  destruct (separate_rotated (hull a) (hull b)) as [pa pb].
  eexists _, _. split; [reflexivity |]. split; eexists; reflexivity.
Qed.

Lemma separate_same_size_pushes : Contact.pushes GameScreen.separate_same_size.
Proof.
  intros a b. unfold GameScreen.separate_same_size.
  destruct (is_light a && is_light b); [apply separate_pushes |].
  destruct (negb (is_light a) && negb (is_light b)); [apply separate_pushes |].
  exists a, b. auto using moved_refl.
Qed.

Lemma separation_pass_pushes pf ef :
  exists pf' ef',
    GameScreen.separation_pass (pf, ef) = Normal (pf', ef') /\
    Forall2 Contact.moved pf pf' /\ Forall2 Contact.moved ef ef'.
Proof.
  unfold GameScreen.separation_pass, GameScreen.pair_within.
  destruct (pair_within_upto_pushes _ separate_same_size_pushes (List.length pf) pf)
    as (pf1 & E1 & M1). rewrite E1; simpl.
  destruct (pair_within_upto_pushes _ separate_pushes (List.length ef) ef)
    as (ef1 & E2 & M2). rewrite E2; simpl.
  destruct (pair_cross_pushes _ separate_pushes pf1 ef1) as (pf2 & ef2 & E3 & M3 & M4).
  exists pf2, ef2. eauto using moved_all_trans.
Qed.

Lemma repeat_pass_pushes n : forall pf ef,
  exists pf' ef',
    GameScreen.repeat_pass n (pf, ef) = Normal (pf', ef') /\
    Forall2 Contact.moved pf pf' /\ Forall2 Contact.moved ef ef'.
Proof.
  induction n as [| n IH]; intros pf ef; cbn [GameScreen.repeat_pass].
  - exists pf, ef. auto using moved_all_refl.
  - destruct (separation_pass_pushes pf ef) as (pf1 & ef1 & E & M1 & M2).
    rewrite E; cbn [bind].
    destruct (IH pf1 ef1) as (pf2 & ef2 & E2 & M3 & M4).
    exists pf2, ef2. eauto using moved_all_trans.
Qed.

Lemma pair_cross_nil_r body fleet :
  GameScreen.pair_cross body fleet [] = Normal (fleet, []).
Proof.
  induction fleet as [| a rest IH]; simpl; [reflexivity |].
  rewrite IH. reflexivity.
Qed.

End Pushes.

(** X11.  With no ship on the other side, [handle_collisions] returns
    whatever the damage methods do and only moves the ships: ships of one
    fleet that touch push each other and take no damage. *)
Theorem friendly_contact_harmless :
  forall (cfg : Config) (methods : Methods) (engine : Engine) (fleet : list Ship)
         (dt : R),
    (exists fleet',
       GameScreen.handle_collisions fleet [] dt = Normal (fleet', []) /\
       Forall2 Contact.moved fleet fleet') /\
    (exists fleet',
       GameScreen.handle_collisions [] fleet dt = Normal ([], fleet') /\
       Forall2 Contact.moved fleet fleet').
Proof.
  intros cfg methods engine fleet dt. unfold GameScreen.handle_collisions. split.
  - destruct (repeat_pass_pushes SEPARATION_ITER fleet []) as (pf & ef & E & M1 & M2).
    rewrite E; simpl. inversion M2; subst.
    exists pf. rewrite pair_cross_nil_r. auto.
  - destruct (repeat_pass_pushes SEPARATION_ITER [] fleet) as (pf & ef & E & M1 & M2).
    rewrite E; simpl. inversion M1; subst.
    exists ef. auto.
Qed.

Lemma for_each_craft_log dead : forall log,
  GameScreen.for_each_craft dead (Some log) = Normal (Some (log ++ Frames.uids dead)).
Proof.
  induction dead as [| c rest IH]; intros log; simpl.
  - rewrite app_nil_r. reflexivity.
  - rewrite IH, <- app_assoc. reflexivity.
Qed.

Lemma alive_not_dead s : GameScreen.is_alive s = negb (GameScreen.is_dead s).
Proof.
  unfold GameScreen.is_alive, GameScreen.is_dead, Rltb, Rleb.
  destruct (Rlt_dec 0 (health (hull s))), (Rle_dec (health (hull s)) 0);
    try reflexivity; lra.
Qed.

(** X12.  The death bookkeeping of a frame raises its [RuntimeError] exactly
    when the main player has no hangar and a light craft of the player
    fleet has health [<= 0]; otherwise it reports the light crafts with
    health [<= 0] to the hangar, in fleet order and after the earlier
    reports, and changes nothing else.  None of the reported crafts is in
    the player fleet after the pruning of that frame. *)
Theorem death_bookkeeping :
  forall (w : GameScreen.World),
    let dead :=
      filter (fun s => is_light s && GameScreen.is_dead s) (GameScreen.player_fleet w) in
    GameScreen.report_dead_crafts w
    = match GameScreen.hangar w, dead with
      | None, _ :: _ => Raised hangar_error
      | None, [] => Normal w
      | Some reported, _ =>
          Normal (GameScreen.mkWorld (GameScreen.player_fleet w)
                    (GameScreen.enemy_fleet w) (GameScreen.projectile_group w)
                    (GameScreen.main_player w)
                    (Some (reported ++ Frames.uids dead)))
      end /\
    Forall (fun s => ~ In s (GameScreen.player_fleet (GameScreen.prune w))) dead.
Proof.
  intros w dead. split.
  - unfold GameScreen.report_dead_crafts. fold dead.
    destruct (GameScreen.hangar w) as [reported |] eqn:H.
    + rewrite for_each_craft_log. reflexivity.
    + destruct dead; simpl; [destruct w; simpl in *; subst; reflexivity | reflexivity].
  - apply Forall_forall. intros s Hs Hin. apply filter_In in Hs.
    destruct Hs as [_ Hs]. apply andb_true_iff in Hs. destruct Hs as [_ Hd].
    simpl in Hin. apply filter_In in Hin. destruct Hin as [_ Ha].
    rewrite alive_not_dead, Hd in Ha. discriminate.
Qed.

Lemma fold_vadd_shift (l : list Vector2) : forall z d,
  fold_left vadd l (vadd z d) = vadd (fold_left vadd l z) d.
Proof.
  induction l as [| a l IH]; intros z d; simpl; [reflexivity |].
  rewrite <- IH. f_equal. unfold vadd; simpl. f_equal; ring.
Qed.

Lemma fold_vadd_translated {A : Type} (g : A -> Vector2) (d : Vector2) (l : list A) :
  forall z,
    fold_left vadd (map (fun s => vadd d (g s)) l) z
    = vadd (fold_left vadd (map g l) z) (vscale d (INR (List.length l))).
Proof.
  induction l as [| a l IH]; intros z.
  - simpl. unfold vadd, vscale; destruct z; simpl. f_equal; ring.
  - cbn [map fold_left]. rewrite IH.
    replace (vadd z (vadd d (g a))) with (vadd (vadd z (g a)) d)
      by (unfold vadd; simpl; f_equal; ring).
    rewrite fold_vadd_shift.
    change (List.length (a :: l)) with (S (List.length l)). rewrite S_INR.
    unfold vadd, vscale; simpl. f_equal; ring.
Qed.

Section Orders.
Context {cfg : Config} {engine : Engine}.

(** The selected, non-recalling ships after a group move: those of before,
    each with its orders. *)
Lemma right_down_group pos st :
  filter GameScreen.is_selected_shape (GameScreen.fleet (GameScreen.right_down pos st))
  = map (fun s =>
           map_hull (fun u => set_target u
                                (vadd (GameScreen.point pos) (formation_offset u)))
             (map_hull
                (fun u => with_formation_offset u
                            (vsub (FleetUnit.pos u)
                               (GameScreen.formation_center
                                  (filter GameScreen.is_selected_shape
                                     (GameScreen.fleet st)))))
                (GameScreen.cancel_orders s)))
      (filter GameScreen.is_selected_shape (GameScreen.fleet st)).
Proof.
  rewrite right_down_fleet.
  generalize (GameScreen.formation_center
                (filter GameScreen.is_selected_shape (GameScreen.fleet st))) as c.
  intros c. induction (GameScreen.fleet st) as [| s l IH]; [reflexivity |].
  cbn [map filter]. destruct (GameScreen.is_selected_shape s) eqn:Hsel.
  - match goal with
    | |- context [GameScreen.is_selected_shape ?x] =>
        assert (Hkeep : GameScreen.is_selected_shape x = true)
    end.
    { unfold GameScreen.is_selected_shape in *.
      rewrite !hull_map_hull, cancel_orders_hull. exact Hsel. }
    rewrite Hkeep. cbn [map]. rewrite IH. reflexivity.
  - rewrite Hsel. exact IH.
Qed.

End Orders.

(** X13.  After a right click with a group selected, the mean of the
    movement targets of the group is the point of the click, and any two
    ships of the group have targets that differ as their positions do: the
    formation is moved as a whole. *)
Theorem group_move_centred :
  forall (st : GameScreen.Screen) (T : Z * Z),
    filter GameScreen.is_selected_shape (GameScreen.fleet st) <> [] ->
    let group' :=
      filter GameScreen.is_selected_shape
        (GameScreen.fleet (GameScreen.right_down T st)) in
    vdiv (fold_left vadd (map (fun s => mover_target (hull s)) group') vzero)
      (INR (List.length group'))
    = GameScreen.point T /\
    (forall a b, In a group' -> In b group' ->
       vsub (mover_target (hull a)) (mover_target (hull b))
       = vsub (pos (hull a)) (pos (hull b))).
Proof.
  intros st T Hne. cbv zeta. rewrite right_down_group.
  set (S := filter GameScreen.is_selected_shape (GameScreen.fleet st)) in *.
  set (C := GameScreen.formation_center S).
  split.
  - rewrite map_map, length_map.
    rewrite (map_ext _ (fun s => vadd (vsub (GameScreen.point T) C) (pos (hull s)))).
    2:{ intros s. rewrite !hull_map_hull, cancel_orders_hull. cbn.
        unfold vadd, vsub; simpl. f_equal; ring. }
    rewrite fold_vadd_translated.
    assert (Hn : INR (List.length S) <> 0).
    { destruct S; [congruence |]. apply not_0_INR. discriminate. }
    unfold C, GameScreen.formation_center.
    destruct (fold_left vadd (map (fun s => pos (hull s)) S) vzero) as [sx sy].
    unfold vdiv, vadd, vsub, vscale, GameScreen.point; simpl.
    f_equal; field; exact Hn.
  - intros a b Ha Hb. apply in_map_iff in Ha, Hb.
    destruct Ha as (a0 & <- & _), Hb as (b0 & <- & _).
    rewrite !hull_map_hull, !cancel_orders_hull. cbn.
    unfold vadd, vsub; simpl. f_equal; ring.
Qed.

(** X14.  A right click leaves every ship that is not selected, or is
    recalling, as it is; a collector of the moved group is afterwards
    neither healing nor mining, has no mining target and is not returning,
    and its fill is 0: the ore on board is lost. *)
Theorem group_move_dumps_cargo :
  forall (st : GameScreen.Screen) (T : Z * Z),
    Forall2
      (fun s s' =>
         if GameScreen.is_selected_shape s
         then match s' with
              | CollectorShip c' =>
                  Collector.is_mining c' = false /\
                  Collector.is_healing c' = false /\
                  Collector.mining_fill c' = 0 /\
                  Collector.mining_target c' = None /\
                  Collector.returning_to_ship c' = false
              | Craft _ => is_collector s = false
              end
         else s' = s)
      (GameScreen.fleet st) (GameScreen.fleet (GameScreen.right_down T st)).
Proof.
  intros st T. rewrite right_down_fleet.
  generalize (GameScreen.formation_center
                (filter GameScreen.is_selected_shape (GameScreen.fleet st))) as c.
  intros c. induction (GameScreen.fleet st) as [| s l IH]; [constructor |].
  cbn [map]. constructor; [| exact IH].
  destruct (GameScreen.is_selected_shape s); [| reflexivity].
  destruct s as [u | k]; cbn; [reflexivity |].
  unfold Collector.is_mining, Collector.is_healing; cbn.
  repeat split; try reflexivity. apply Rltb_false. lra.
Qed.

Lemma find_first {A : Type} (f : A -> bool) (l : list A) :
  match find f l with
  | Some x => exists before after,
      l = before ++ x :: after /\ f x = true /\ Forall (fun y => f y = false) before
  | None => Forall (fun y => f y = false) l
  end.
Proof.
  induction l as [| a l IH]; simpl; [constructor |].
  destruct (f a) eqn:E.
  - exists [], l. auto.
  - destruct (find f l) as [x |].
    + destruct IH as (b & a' & -> & Hx & Hb). exists (a :: b), a'. auto.
    + constructor; assumption.
Qed.

Lemma find_decomposed {A : Type} (f : A -> bool) (before after : list A) (x : A) :
  Forall (fun y => f y = false) before -> f x = true ->
  find f (before ++ x :: after) = Some x.
Proof.
  intros Hb Hx. induction Hb as [| y before Hy _ IH]; simpl.
  - rewrite Hx. reflexivity.
  - rewrite Hy. exact IH.
Qed.

Lemma find_none {A : Type} (f : A -> bool) (l : list A) :
  Forall (fun y => f y = false) l -> find f l = None.
Proof.
  induction 1 as [| y l Hy _ IH]; simpl; [reflexivity |]. rewrite Hy. exact IH.
Qed.

Section Clicks.
Context {cfg : Config} {engine : Engine}.

Lemma selected_collectors_nonempty (fleet : list Ship) :
  (exists s, In s fleet /\ GameScreen.is_selected_collector s = true) ->
  exists x xs, filter GameScreen.is_selected_collector fleet = x :: xs.
Proof.
  intros (s & Hin & Hs).
  destruct (filter GameScreen.is_selected_collector fleet) as [| x xs] eqn:E.
  - assert (H : In s (filter GameScreen.is_selected_collector fleet))
      by (apply filter_In; auto).
    rewrite E in H. contradiction.
  - eauto.
Qed.

Lemma on_selected_collectors_each m (fleet : list Ship) :
  Forall2
    (fun s s' =>
       match s with
       | CollectorShip c =>
           if selected (Collector.base c) then s' = CollectorShip (m c) else s' = s
       | Craft _ => s' = s
       end) fleet (GameScreen.on_selected_collectors m fleet).
Proof.
  unfold GameScreen.on_selected_collectors.
  induction fleet as [| s l IH]; simpl; constructor; [| exact IH].
  destruct s as [u | c]; [reflexivity |].
  destruct (selected (Collector.base c)); reflexivity.
Qed.

End Clicks.

(** X15.  A left press that the interface has not consumed, on a point
    inside an asteroid, with a collector selected: every selected collector
    gets the first asteroid of the list under the point as mining target,
    stops returning and healing, keeps its fill and is sent to the
    asteroid; every other ship, the asteroids and the state of the
    selection drag are as before (no selection starts). *)
Theorem click_to_mine :
  forall (engine : Engine) (st : GameScreen.Screen) (press : Z * Z)
         (before : list Asteroids.Asteroid) (a : Asteroids.Asteroid)
         (after : list Asteroids.Asteroid),
    GameScreen.asteroids st = before ++ a :: after ->
    Forall (fun b => Asteroids.point_inside b (GameScreen.point press) = false) before ->
    Asteroids.point_inside a (GameScreen.point press) = true ->
    (exists s, In s (GameScreen.fleet st) /\ GameScreen.is_selected_collector s = true) ->
    let st' := GameScreen.left_down press false st in
    GameScreen.controls st' = GameScreen.controls st /\
    GameScreen.asteroids st' = GameScreen.asteroids st /\
    Forall2
      (fun s s' =>
         match s with
         | CollectorShip c =>
             if selected (Collector.base c)
             then exists c',
                 s' = CollectorShip c' /\
                 Collector.mining_target c' = Some a /\
                 Collector.returning_to_ship c' = false /\
                 Collector.is_healing c' = false /\
                 Collector.mining_fill c' = Collector.mining_fill c /\
                 Collector.base c' = set_target (Collector.base c) (Asteroids.a_pos a)
             else s' = s
         | Craft _ => s' = s
         end) (GameScreen.fleet st) (GameScreen.fleet st').
Proof.
  intros engine st press before a after Ha Hb Hin Hsel. cbv zeta.
  unfold GameScreen.left_down, GameScreen.click_collectors. cbn [negb].
  destruct (selected_collectors_nonempty _ Hsel) as (x & xs & ->).
  rewrite Ha, (find_decomposed _ before after a Hb Hin). cbn.
  split; [reflexivity |]. split; [reflexivity |].
  eapply Forall2_impl; [| apply on_selected_collectors_each].
  intros s s' H. destruct s as [u | c]; [exact H |].
  destruct (selected (Collector.base c)); [| exact H].
  eexists. split; [exact H |]. repeat split.
Qed.

(** X16.  A left press that the interface has not consumed, on no
    asteroid, with a collector selected: the first ship of the fleet that
    is under the point and is not a selected collector becomes the healing
    target of every selected collector, which drops its mining target,
    stops returning, keeps its fill and is sent to that ship; every other
    ship and the state of the selection drag are as before. *)
Theorem click_to_heal :
  forall (engine : Engine) (st : GameScreen.Screen) (press : Z * Z)
         (before : list Ship) (t : Ship) (after : list Ship),
    Forall (fun b => Asteroids.point_inside b (GameScreen.point press) = false)
      (GameScreen.asteroids st) ->
    GameScreen.fleet st = before ++ t :: after ->
    Forall (fun s => GameScreen.is_selected_collector s = true \/
                     point_inside (hull s) (GameScreen.point press) = false) before ->
    GameScreen.is_selected_collector t = false ->
    point_inside (hull t) (GameScreen.point press) = true ->
    (exists s, In s (GameScreen.fleet st) /\ GameScreen.is_selected_collector s = true) ->
    let st' := GameScreen.left_down press false st in
    GameScreen.controls st' = GameScreen.controls st /\
    Forall2
      (fun s s' =>
         match s with
         | CollectorShip c =>
             if selected (Collector.base c)
             then exists c',
                 s' = CollectorShip c' /\
                 Collector.healing_target c' = Some (uid (hull t)) /\
                 Collector.mining_target c' = None /\
                 Collector.returning_to_ship c' = false /\
                 Collector.mining_fill c' = Collector.mining_fill c /\
                 Collector.base c' = set_target (Collector.base c) (pos (hull t))
             else s' = s
         | Craft _ => s' = s
         end) (GameScreen.fleet st) (GameScreen.fleet st').
Proof.
  intros engine st press before t after Hast Hf Hb Ht Hin Hsel. cbv zeta.
  destruct st as [fl asts ctrl].
  cbn [GameScreen.fleet GameScreen.asteroids GameScreen.controls] in *. subst fl.
  unfold GameScreen.left_down, GameScreen.click_collectors. cbn [negb].
  cbn [GameScreen.fleet GameScreen.asteroids GameScreen.controls].
  destruct (selected_collectors_nonempty _ Hsel) as (x & xs & ->).
  rewrite (find_none _ _ Hast).
  rewrite (find_decomposed _ before after t).
  - cbn. split; [reflexivity |].
    eapply Forall2_impl; [| apply on_selected_collectors_each].
    intros s s' H. destruct s as [u | c]; [exact H |].
    destruct (selected (Collector.base c)); [| exact H].
    eexists. split; [exact H |]. repeat split.
  - eapply Forall_impl; [| exact Hb]. intros s [H | H]; rewrite H; [reflexivity |].
    apply andb_false_r.
  - rewrite Ht, Hin. reflexivity.
Qed.

Section Releases.
Context {cfg : Config} {engine : Engine}.

Lemma on_selected_collectors_flags m (l : list Ship) :
  (forall c, uid (Collector.base (m c)) = uid (Collector.base c) /\
             pos (Collector.base (m c)) = pos (Collector.base c) /\
             selected (Collector.base (m c)) = selected (Collector.base c)) ->
  Forall2 (fun s s' => uid (hull s') = uid (hull s) /\
                       pos (hull s') = pos (hull s) /\
                       selected (hull s') = selected (hull s))
    l (GameScreen.on_selected_collectors m l).
Proof.
  intros Hm. unfold GameScreen.on_selected_collectors.
  induction l as [| s l IH]; simpl; constructor; [| exact IH].
  destruct s as [u | c]; [auto |].
  destruct (selected (Collector.base c)); [apply Hm | auto].
Qed.

Lemma same_flags_refl (l : list Ship) :
  Forall2 (fun s s' => uid (hull s') = uid (hull s) /\
                       pos (hull s') = pos (hull s) /\
                       selected (hull s') = selected (hull s)) l l.
Proof. induction l; constructor; auto. Qed.

Lemma click_collectors_flags press (l : list Ship) asteroids :
  Forall2 (fun s s' => uid (hull s') = uid (hull s) /\
                       pos (hull s') = pos (hull s) /\
                       selected (hull s') = selected (hull s))
    l (fst (GameScreen.click_collectors press l asteroids)).
Proof.
  unfold GameScreen.click_collectors.
  destruct (filter GameScreen.is_selected_collector l); [apply same_flags_refl |].
  destruct (find _ asteroids).
  - apply on_selected_collectors_flags. intros c. repeat split.
  - destruct (find _ l); [| apply same_flags_refl].
    apply on_selected_collectors_flags. intros c. repeat split.
Qed.

Lemma same_flags_filter (P : Vector2 -> bool -> bool) (l l' : list Ship) :
  Forall2 (fun s s' => uid (hull s') = uid (hull s) /\
                       pos (hull s') = pos (hull s) /\
                       selected (hull s') = selected (hull s)) l l' ->
  Frames.uids (filter (fun s => P (pos (hull s)) (selected (hull s))) l')
  = Frames.uids (filter (fun s => P (pos (hull s)) (selected (hull s))) l).
Proof.
  induction 1 as [| s s' l l' (U & Q & S) _ IH]; simpl; [reflexivity |].
  rewrite Q, S. destruct (P _ _); simpl; rewrite IH, ?U; reflexivity.
Qed.

(** The screen after a drag whose press is not consumed. *)
Lemma drag_run press moves st :
  snd (GameScreen.click_collectors press (GameScreen.fleet st)
         (GameScreen.asteroids st)) = false ->
  GameScreen.handle_events (Commands.drag press false moves) st
  = let R := GameScreen.rect_normalize (Commands.drag_rect press moves) in
    let pressed :=
      map (fun s => map_hull
                      (fun u => with_selected u (point_inside u (GameScreen.point press)))
                      s) (GameScreen.fleet st) in
    GameScreen.mkScreen
      (if Commands.exceeds_minimum R
       then map (fun s => map_hull
                            (fun u => with_selected u (GameScreen.collidepoint R (pos u)))
                            s) pressed
       else pressed)
      (GameScreen.asteroids st)
      (GameScreen.mkControls false press (Commands.drag_rect press moves)).
Proof.
  intros Hfree. unfold Commands.drag.
  rewrite handle_events_cons, handle_events_app.
  cbn [GameScreen.handle_event]. rewrite (left_down_free press st Hfree).
  rewrite motions_spec, drag_rect_nil_or_moves.
  rewrite handle_events_cons. cbn [GameScreen.handle_event].
  rewrite left_up_spec. reflexivity.
Qed.

(** Flags set twice: the second setting stays. *)
Lemma flags_twice (f g : SpaceUnit -> bool) (l : list Ship) :
  (forall u b, g (with_selected u b) = g u) ->
  map (fun s => map_hull (fun u => with_selected u (g u)) s)
    (map (fun s => map_hull (fun u => with_selected u (f u)) s) l)
  = map (fun s => map_hull (fun u => with_selected u (g u)) s) l.
Proof.
  intros Hg. rewrite map_map. apply map_ext. intros s.
  destruct s as [u | c]; simpl; rewrite ?Hg; reflexivity.
Qed.

Lemma last_snoc {A : Type} (l : list A) (x d : A) : last (l ++ [x]) d = x.
Proof.
  induction l as [| a l IH]; [reflexivity |].
  simpl. destruct (l ++ [x]) eqn:E; [destruct l; discriminate | exact IH].
Qed.

(** The rectangle of a drag from [p] that ends in [q], normalized. *)
Lemma drag_rect_normalized (p q : Z * Z) (moves : list (Z * Z)) :
  GameScreen.rect_normalize (Commands.drag_rect p (moves ++ [q]))
  = GameScreen.mkRect (Z.min (fst p) (fst q)) (Z.min (snd p) (snd q))
      (Z.abs (fst q - fst p)) (Z.abs (snd q - snd p)).
Proof.
  destruct p as [px py], q as [qx qy].
  unfold Commands.drag_rect. rewrite last_snoc. cbn [fst snd].
  unfold GameScreen.rect_normalize; cbn.
  destruct (Z.ltb_spec (qx - px) 0), (Z.ltb_spec (qy - py) 0); f_equal; lia.
Qed.

Lemma corners_inside (p q : Z * Z) (v : Vector2) :
  GameScreen.collidepoint
    (GameScreen.mkRect (Z.min (fst p) (fst q)) (Z.min (snd p) (snd q))
       (Z.abs (fst q - fst p)) (Z.abs (snd q - snd p))) v = true <->
  IZR (Z.min (fst p) (fst q)) <= vx v < IZR (Z.max (fst p) (fst q)) /\
  IZR (Z.min (snd p) (snd q)) <= vy v < IZR (Z.max (snd p) (snd q)).
Proof.
  unfold GameScreen.collidepoint. cbn [GameScreen.rx GameScreen.ry GameScreen.width
    GameScreen.height].
  rewrite !andb_true_iff, !Rleb_true, !Rltb_true.
  replace (Z.min (fst p) (fst q) + Z.abs (fst q - fst p))%Z
    with (Z.max (fst p) (fst q)) by lia.
  replace (Z.min (snd p) (snd q) + Z.abs (snd q - snd p))%Z
    with (Z.max (snd p) (snd q)) by lia.
  tauto.
Qed.

End Releases.

(** X17.  A left press that the interface or the selected collectors
    consume starts no drag, and the release that follows applies the
    rectangle that an earlier drag has left: when that rectangle exceeds
    the minimum size, the selection becomes the ships inside it; otherwise
    the selection stays. *)
Theorem release_applies_stored_rectangle :
  forall (cfg : Config) (engine : Engine) (st : GameScreen.Screen) (press : Z * Z)
         (clicked_ui : bool),
    clicked_ui = true \/
    snd (GameScreen.click_collectors press (GameScreen.fleet st)
           (GameScreen.asteroids st)) = true ->
    let st' :=
      GameScreen.handle_events [GameScreen.LeftDown press clicked_ui; GameScreen.LeftUp]
        st in
    let R := GameScreen.rect_normalize
               (GameScreen.selection_rect (GameScreen.controls st)) in
    GameScreen.selection (GameScreen.fleet st')
    = if Commands.exceeds_minimum R
      then Frames.uids
             (filter (fun s => GameScreen.collidepoint R (pos (hull s)))
                (GameScreen.fleet st))
      else GameScreen.selection (GameScreen.fleet st).
Proof.
  intros cfg engine st press clicked_ui Hc. cbv zeta.
  unfold GameScreen.handle_events. cbn [fold_left GameScreen.handle_event].
  assert (E : exists fl,
             GameScreen.left_down press clicked_ui st
             = GameScreen.mkScreen fl (GameScreen.asteroids st) (GameScreen.controls st)
             /\ Forall2 (fun s s' => uid (hull s') = uid (hull s) /\
                                     pos (hull s') = pos (hull s) /\
                                     selected (hull s') = selected (hull s))
                  (GameScreen.fleet st) fl).
  { unfold GameScreen.left_down. destruct clicked_ui; cbn [negb].
    - eexists. split; [reflexivity | apply same_flags_refl].
    - destruct Hc as [Hc | Hc]; [discriminate |].
      pose proof (click_collectors_flags press (GameScreen.fleet st)
                    (GameScreen.asteroids st)) as Hf.
      destruct (GameScreen.click_collectors press (GameScreen.fleet st)
                  (GameScreen.asteroids st)) as [fl ui].
      cbn [fst snd] in *. subst ui. cbn [negb].
      eexists. split; [reflexivity | exact Hf]. }
  destruct E as (fl & -> & Hf).
  destruct (GameScreen.controls st) as [b start rect].
  rewrite left_up_spec. cbn [GameScreen.fleet GameScreen.selection_rect].
  destruct (Commands.exceeds_minimum (GameScreen.rect_normalize rect)).
  - rewrite (selection_of_flags
               (fun u => GameScreen.collidepoint (GameScreen.rect_normalize rect) (pos u))).
    apply (same_flags_filter
             (fun p _ => GameScreen.collidepoint (GameScreen.rect_normalize rect) p)).
    exact Hf.
  - unfold GameScreen.selection.
    apply (same_flags_filter (fun _ b => b)). exact Hf.
Qed.

(** The press is on a button of the interface; the release selects the
    scout, inside the rectangle of the earlier drag, and the flagship is no
    longer selected. *)
Lemma release_applies_stored_rectangle_witness :
  GameScreen.selection (GameScreen.fleet Scenes.bridge_after_drag) = [0%nat] /\
  GameScreen.selection
    (GameScreen.fleet
       (@GameScreen.handle_events Examples.config Examples.engine
          [GameScreen.LeftDown (700, 560)%Z true; GameScreen.LeftUp]
          Scenes.bridge_after_drag))
  = [1%nat].
Proof.
  split; [reflexivity |].
  rewrite (release_applies_stored_rectangle Examples.config Examples.engine
             Scenes.bridge_after_drag (700, 560)%Z true (or_introl eq_refl)).
  run_R. reflexivity.
Defined.

(** X18.  The direction of a drag does not matter.  A drag from [p] that
    ends in [q] and a drag from [q] that ends in [p], each after a press
    that neither the interface nor the selected collectors consume and
    with any motions between, leave the same normalized rectangle, whose
    corners are the smaller and the greater coordinates of [p] and [q].
    When that rectangle exceeds the minimum size in both dimensions, the
    two drags leave the same fleet: every ship of the fleet with its
    selection flag set to whether its position is inside the rectangle,
    that is, at least the smaller and less than the greater coordinate of
    [p] and [q] on both axes. *)
Theorem drag_direction_irrelevant :
  forall (cfg : Config) (engine : Engine) (st : GameScreen.Screen)
         (p q : Z * Z) (moves moves' : list (Z * Z)),
    snd (GameScreen.click_collectors p (GameScreen.fleet st)
           (GameScreen.asteroids st)) = false ->
    snd (GameScreen.click_collectors q (GameScreen.fleet st)
           (GameScreen.asteroids st)) = false ->
    let forth := GameScreen.handle_events (Commands.drag p false (moves ++ [q])) st in
    let back := GameScreen.handle_events (Commands.drag q false (moves' ++ [p])) st in
    let R := GameScreen.mkRect (Z.min (fst p) (fst q)) (Z.min (snd p) (snd q))
               (Z.abs (fst q - fst p)) (Z.abs (snd q - snd p)) in
    GameScreen.rect_normalize (GameScreen.selection_rect (GameScreen.controls forth))
      = R /\
    GameScreen.rect_normalize (GameScreen.selection_rect (GameScreen.controls back))
      = R /\
    (Commands.exceeds_minimum R = true ->
     GameScreen.fleet forth = GameScreen.fleet back /\
     GameScreen.fleet forth
     = map (fun s => map_hull
                       (fun u => with_selected u (GameScreen.collidepoint R (pos u))) s)
         (GameScreen.fleet st) /\
     Forall (fun s =>
               selected (hull s) = true <->
               IZR (Z.min (fst p) (fst q)) <= vx (pos (hull s))
                 < IZR (Z.max (fst p) (fst q)) /\
               IZR (Z.min (snd p) (snd q)) <= vy (pos (hull s))
                 < IZR (Z.max (snd p) (snd q)))
       (GameScreen.fleet forth)).
Proof.
  intros cfg engine st p q moves moves' Hp Hq. cbv zeta.
  rewrite (drag_run p (moves ++ [q]) st Hp), (drag_run q (moves' ++ [p]) st Hq).
  cbv zeta. cbn [GameScreen.controls GameScreen.selection_rect GameScreen.fleet].
  rewrite (drag_rect_normalized p q moves).
  pose proof (drag_rect_normalized q p moves') as Eb.
  replace (Z.min (fst q) (fst p)) with (Z.min (fst p) (fst q)) in Eb by lia.
  replace (Z.min (snd q) (snd p)) with (Z.min (snd p) (snd q)) in Eb by lia.
  replace (Z.abs (fst p - fst q)) with (Z.abs (fst q - fst p)) in Eb by lia.
  replace (Z.abs (snd p - snd q)) with (Z.abs (snd q - snd p)) in Eb by lia.
  rewrite Eb.
  split; [reflexivity |]. split; [reflexivity |].
  intros ->.
  rewrite !flags_twice by reflexivity.
  split; [reflexivity |]. split; [reflexivity |].
  apply Forall_forall. intros s' Hs'. apply in_map_iff in Hs'.
  destruct Hs' as (s & <- & _). rewrite hull_map_hull.
  cbn [selected pos with_selected]. apply corners_inside.
Qed.

(** The scout is at (100, 100).  A drag from (50, 50) to (150, 150) and a
    drag from (150, 150) over (120, 80) to (50, 50) leave the same fleet,
    in which the scout is the selection. *)
Lemma drag_direction_irrelevant_witness :
  GameScreen.fleet
    (@GameScreen.handle_events Examples.config Examples.engine
       (Commands.drag (50, 50)%Z false ([] ++ [(150, 150)%Z])) Examples.bridge)
  = GameScreen.fleet
      (@GameScreen.handle_events Examples.config Examples.engine
         (Commands.drag (150, 150)%Z false ([(120, 80)%Z] ++ [(50, 50)%Z]))
         Examples.bridge) /\
  GameScreen.selection
    (GameScreen.fleet
       (@GameScreen.handle_events Examples.config Examples.engine
          (Commands.drag (150, 150)%Z false ([(120, 80)%Z] ++ [(50, 50)%Z]))
          Examples.bridge)) = [1%nat].
Proof.
  destruct (drag_direction_irrelevant Examples.config Examples.engine Examples.bridge
              (50, 50)%Z (150, 150)%Z [] [(120, 80)%Z] eq_refl eq_refl)
    as (_ & _ & H).
  destruct (H eq_refl) as (Hsame & Hfleet & _).
  split; [exact Hsame |].
  rewrite <- Hsame, Hfleet. run_R. reflexivity.
Defined.

(** After frames of 1 and 0.5 seconds the shot with 2 seconds to live is
    still in the group and the one with 1 second is not. *)
Lemma projectile_expiry_witness :
  Clock.group_updates [Examples.shot; Scenes.short_shot] [1; 1 / 2]
  = [Proj.updates Examples.shot [1; 1 / 2]].
Proof.
  destruct (projectile_expiry [Examples.shot; Scenes.short_shot] 1 [1 / 2]) as [H _].
  - repeat (apply Forall_cons; [lra |]). apply Forall_nil.
  - rewrite H. unfold Clock.elapsed. cbn [fold_right filter Proj.lifetime
      Examples.shot Scenes.short_shot].
    rewrite (proj2 (Rltb_true (1 + (1 / 2 + 0)) 2)) by lra.
    rewrite (proj2 (Rltb_false (1 + (1 / 2 + 0)) 1)) by lra.
    reflexivity.
Defined.

(** Flagship and scout selected and ordered to (0, 0): the mean of their
    targets is (0, 0). *)
Lemma group_move_centred_witness :
  let group' :=
    filter GameScreen.is_selected_shape
      (GameScreen.fleet (GameScreen.right_down (0, 0)%Z Examples.bridge_all_selected)) in
  vdiv (fold_left vadd (map (fun s => mover_target (hull s)) group') vzero)
    (INR (List.length group'))
  = GameScreen.point (0, 0)%Z.
Proof.
  refine (proj1 (group_move_centred Examples.bridge_all_selected (0, 0)%Z _)).
  cbn. discriminate.
Defined.

(** A click on the rock with the collector selected: the collector mines
    the rock. *)
Lemma click_to_mine_witness :
  exists c' rest,
    GameScreen.fleet (@GameScreen.left_down Examples.engine (10, 10)%Z false Scenes.yard)
    = CollectorShip c' :: rest /\
    Collector.mining_target c' = Some Examples.rock.
Proof.
  destruct (click_to_mine Examples.engine Scenes.yard (10, 10)%Z [] Examples.rock [])
    as (_ & _ & H).
  - reflexivity.
  - constructor.
  - unfold Asteroids.point_inside. apply Rleb_true.
    unfold length_squared, GameScreen.point; simpl. lra.
  - exists (CollectorShip Scenes.picked_collector). split; [left; reflexivity |].
    reflexivity.
  - cbn [GameScreen.fleet Scenes.yard] in H. inversion H as [| s s' l l' Hs Hl]; subst.
    cbn in Hs. destruct Hs as (c' & -> & Ht & _). exists c', l'. auto.
Defined.

(** A click on the flagship with the collector selected and no asteroid
    under the cursor: the collector heals the flagship. *)
Lemma click_to_heal_witness :
  exists c' rest,
    GameScreen.fleet (@GameScreen.left_down Examples.engine (400, 300)%Z false Scenes.dock)
    = CollectorShip c' :: rest /\
    Collector.healing_target c' = Some 0%nat.
Proof.
  destruct (click_to_heal Examples.engine Scenes.dock (400, 300)%Z
              [CollectorShip Scenes.picked_collector] (Craft Examples.flagship) [])
    as (_ & H).
  - constructor.
  - reflexivity.
  - constructor; [left; reflexivity | constructor].
  - reflexivity.
  - cbn. apply Rleb_true. apply vlength_le_iff; [lra |].
    unfold length_squared; simpl. lra.
  - exists (CollectorShip Scenes.picked_collector). split; [left; reflexivity |].
    reflexivity.
  - cbn [GameScreen.fleet Scenes.dock] in H. inversion H as [| s s' l l' Hs Hl]; subst.
    cbn in Hs. destruct Hs as (c' & -> & Ht & _). exists c', l'. auto.
Defined.

(** X19.  [update_mining] for a time that is not negative keeps the fill
    between 0 and the capacity.  It changes neither the capacity, nor the
    mining target, nor the healing target, and of the unit only the target
    of its mover: the collector is not moved, damaged or healed by it. *)
Theorem update_mining_keeps_bounds :
  forall (c : Collector.ResourceCollector) (ms : option Mothership) (dt : R),
    0 <= dt ->
    0 <= Collector.mining_fill c <= Collector.mining_capacity c ->
    let c' := fst (Collector.update_mining c ms dt) in
    0 <= Collector.mining_fill c' <= Collector.mining_capacity c /\
    Collector.mining_capacity c' = Collector.mining_capacity c /\
    Collector.mining_target c' = Collector.mining_target c /\
    Collector.healing_target c' = Collector.healing_target c /\
    Collector.base c' = set_target (Collector.base c) (mover_target (Collector.base c')).
Proof.
  intros c ms dt Hdt [H0 H1]. cbv zeta.
  assert (Hb : forall u : SpaceUnit, u = set_target u (mover_target u))
    by (intros u; destruct u; reflexivity).
  unfold Collector.update_mining.
  destruct (Collector.mining_target c) as [a |] eqn:Ht; destruct ms as [ms |];
    simpl; rewrite ?Ht; simpl;
    repeat (split_if; simpl; rewrite ?Ht; simpl).
  all: to_R; unfold Collector.MINE_RATE, Collector.UNLOAD_RATE in *.
  all: repeat split; auto; try (rmm; simpl in *; lra).
Qed.

(** A loaded collector at the depot for a frame of one second. *)
Lemma update_mining_keeps_bounds_witness :
  0 <= Collector.mining_fill
         (fst (Collector.update_mining Yard.loaded_miner (Some Examples.depot) 1))
    <= 150.
Proof.
  apply (update_mining_keeps_bounds Yard.loaded_miner (Some Examples.depot) 1);
    simpl; lra.
Defined.

Lemma update_mining_idle (c : Collector.ResourceCollector) (ms : option Mothership)
    (dt : R) :
  Collector.mining_target c = None ->
  Collector.returning_to_ship c = false ->
  Collector.update_mining c ms dt = (c, ms).
Proof.
  intros Ht Hr. unfold Collector.update_mining. rewrite Ht.
  destruct ms as [ms |]; [rewrite Hr |]; reflexivity.
Qed.

Lemma mining_calls_idle (dts : list R) :
  forall (c : Collector.ResourceCollector) (ms : option Mothership),
    Collector.mining_target c = None ->
    Collector.returning_to_ship c = false ->
    Calls.mining_calls (c, ms) dts = (c, ms).
Proof.
  unfold Calls.mining_calls.
  induction dts as [| dt dts IH]; intros c ms Ht Hr; cbn [fold_left fst snd];
    [reflexivity |].
  rewrite (update_mining_idle c ms dt Ht Hr). apply IH; assumption.
Qed.

Lemma update_mining_no_mothership (c : Collector.ResourceCollector) (dt : R) :
  Collector.returning_to_ship c = true ->
  Collector.update_mining c None dt = (c, None).
Proof.
  intros Hr. unfold Collector.update_mining.
  destruct (Collector.mining_target c); rewrite ?Hr; reflexivity.
Qed.

(** X20.  Ore that stays on board.  After [cancel_mining] or
    [start_healing] the calls of [update_mining] change neither the
    collector nor the mothership, for any frame times: the fill that was
    collected is kept ([is_mining] stays true for a positive fill) and is
    never unloaded or credited.  The same holds after [stop_and_dump], with
    the fill 0, and for a returning collector that has no mothership. *)
Theorem cargo_stays_on_board :
  forall (c : Collector.ResourceCollector) (target : SpaceUnit)
         (ms : option Mothership) (dts : list R),
    Calls.mining_calls (Collector.cancel_mining c, ms) dts
      = (Collector.cancel_mining c, ms) /\
    Calls.mining_calls (Collector.start_healing c target, ms) dts
      = (Collector.start_healing c target, ms) /\
    Calls.mining_calls (Collector.stop_and_dump c, ms) dts
      = (Collector.stop_and_dump c, ms) /\
    Collector.mining_fill (Collector.cancel_mining c) = Collector.mining_fill c /\
    Collector.mining_fill (Collector.start_healing c target) = Collector.mining_fill c /\
    Collector.is_mining (Collector.cancel_mining c) = Rltb 0 (Collector.mining_fill c) /\
    (Collector.returning_to_ship c = true ->
     Calls.mining_calls (c, None) dts = (c, None)).
Proof.
  intros c target ms dts.
  split; [apply mining_calls_idle; reflexivity |].
  split; [apply mining_calls_idle; reflexivity |].
  split; [apply mining_calls_idle; reflexivity |].
  split; [reflexivity |]. split; [reflexivity |]. split; [reflexivity |].
  intros Hr. unfold Calls.mining_calls.
  induction dts as [| dt dts IH]; cbn [fold_left fst snd]; [reflexivity |].
  rewrite (update_mining_no_mothership c dt Hr). exact IH.
Qed.

(** X21.  [update_healing] changes the target only by healing it, and heals
    it only when the collector has a healing target, the target has a
    positive health and is within [HEAL_RANGE]: a unit with health [<= 0]
    is never healed.  The collector is healing afterwards exactly when it
    was and the target has a positive health.  Its mining state and its
    position are as before. *)
Theorem update_healing_guards :
  forall (c : Collector.ResourceCollector) (t : SpaceUnit) (dt : R),
    let c' := fst (Collector.update_healing c (Some t) dt) in
    let t' := snd (Collector.update_healing c (Some t) dt) in
    (t' = Some t \/
     (t' = Some (Collector._apply_healing t dt) /\
      Collector.is_healing c = true /\
      0 < health t /\
      vlength (vsub (pos t) (pos (Collector.base c))) <= Collector.HEAL_RANGE)) /\
    Collector.is_healing c'
    = Collector.is_healing c && negb (Rleb (health t) 0) /\
    Collector.mining_target c' = Collector.mining_target c /\
    Collector.mining_fill c' = Collector.mining_fill c /\
    Collector.returning_to_ship c' = Collector.returning_to_ship c /\
    pos (Collector.base c') = pos (Collector.base c).
Proof.
  intros c t dt. cbv zeta. unfold Collector.update_healing, Collector.is_healing.
  destruct (Collector.healing_target c) as [h |] eqn:Hh; simpl; [| rewrite Hh; auto 10].
  destruct (Rleb (health t) 0) eqn:E; simpl; [auto 10 |].
  destruct (Rleb _ Collector.HEAL_RANGE) eqn:E2; simpl; rewrite Hh; to_R.
  - split; [right |]; auto 10.
  - auto 10.
Qed.

(** X22.  A point is inside an asteroid exactly when its distance from the
    centre is at most the radius, taken without its sign; the centre is
    inside. *)
Theorem asteroid_point_inside :
  forall (a : Asteroids.Asteroid) (p : Vector2),
    (Asteroids.point_inside a p = true <->
     vlength (vsub p (Asteroids.a_pos a)) <= Rabs (IZR (Asteroids.radius a))) /\
    Asteroids.point_inside a (Asteroids.a_pos a) = true.
Proof.
  intros a p. unfold Asteroids.point_inside. split.
  - rewrite Rleb_true, (vlength_le_iff _ _ (Rabs_pos _)), mult_IZR.
    replace (Rabs (IZR (Asteroids.radius a)) * Rabs (IZR (Asteroids.radius a)))
      with (IZR (Asteroids.radius a) * IZR (Asteroids.radius a)); [tauto |].
    rewrite <- Rabs_mult. symmetry. apply Rabs_right. nra.
  - apply Rleb_true. rewrite mult_IZR. unfold length_squared, vsub; simpl. nra.
Qed.

Lemma station_take_damage s amount :
  class_of s = SpaceStation -> Fleet.take_damage s amount = s.
Proof.
  intros H. unfold Fleet.take_damage. rewrite H.
  destruct s as [u | c]; [reflexivity | discriminate].
Qed.

Lemma station_take_armor_damage s amount :
  class_of s = SpaceStation -> Fleet.take_armor_damage s amount = s.
Proof.
  intros H. unfold Fleet.take_armor_damage. rewrite H.
  destruct s as [u | c]; [reflexivity | discriminate].
Qed.

Lemma stations_kept_refl l : Stations.stations_kept l l.
Proof. induction l; constructor; auto. Qed.

Lemma stations_kept_trans l1 : forall l2 l3,
  Stations.stations_kept l1 l2 -> Stations.stations_kept l2 l3 ->
  Stations.stations_kept l1 l3.
Proof.
  unfold Stations.stations_kept.
  induction l1 as [| a l1 IH]; intros l2 l3 H1 H2; inversion H1; subst;
    inversion H2; subst; constructor; eauto.
  intros Ha. match goal with H : _ -> ?y = a |- _ => pose proof (H Ha); subst y end.
  auto.
Qed.

Section StationFacts.
Context {cfg : Config} {engine : Engine}.

Lemma station_route_damage s armor_amount hull_amount :
  class_of s = SpaceStation ->
  @Utils.route_damage repo_methods s armor_amount hull_amount = Returns s.
Proof.
  intros H. unfold Utils.route_damage.
  destruct (Utils.armored (hull s)); simpl;
    [rewrite station_take_armor_damage | rewrite station_take_damage]; auto.
Qed.

Lemma hit_first_stations proj fleet :
  match @Utils.hit_first repo_methods engine proj fleet with
  | (fleet', Normal _) => Stations.stations_kept fleet fleet'
  | (_, Raised _) => False
  end.
Proof.
  pose proof (hit_first_repo proj fleet) as H.
  destruct (Utils.hit_first proj fleet) as [fleet' [[|] | e]]; auto.
  - destruct H as (before & p & p' & after & -> & -> & _ & _ & Hh).
    unfold Stations.stations_kept. apply Forall2_app; [apply stations_kept_refl |].
    constructor; [| apply stations_kept_refl].
    intros Hs.
    destruct (entire_hit_cases _ _ _ _ Hh) as [(_ & -> & _) | (_ & -> & _)];
      [apply station_take_armor_damage | apply station_take_damage]; exact Hs.
  - destruct H as [-> _]. apply stations_kept_refl.
Qed.

Lemma resolve_projectile_stations proj acc pf ef :
  exists acc' pf' ef',
    @Utils.resolve_projectile repo_methods engine proj (acc, pf, ef)
      = Normal (acc', pf', ef') /\
    Stations.stations_kept pf pf' /\ Stations.stations_kept ef ef'.
Proof.
  rewrite resolve_projectile_spec. unfold Utils.resolve_body.
  destruct (Proj.owner_is_enemy proj).
  - pose proof (hit_first_stations proj pf) as H.
    destruct (Utils.hit_first proj pf) as [pf' [b | e]]; simpl; [| contradiction];
      eexists _, _, _; (split; [reflexivity |]); auto using stations_kept_refl.
  - pose proof (hit_first_stations proj ef) as H.
    destruct (Utils.hit_first proj ef) as [ef' [b | e]]; simpl; [| contradiction];
      eexists _, _, _; (split; [reflexivity |]); auto using stations_kept_refl.
Qed.

Lemma for_each_resolve_stations group : forall acc pf ef,
  exists acc' pf' ef',
    Utils.for_each group (@Utils.resolve_projectile repo_methods engine) (acc, pf, ef)
      = Normal (acc', pf', ef') /\
    Stations.stations_kept pf pf' /\ Stations.stations_kept ef ef'.
Proof.
  induction group as [| proj rest IH]; intros acc pf ef; cbn [Utils.for_each].
  - eexists _, _, _. split; [reflexivity |]. auto using stations_kept_refl.
  - destruct (resolve_projectile_stations proj acc pf ef)
      as (acc1 & pf1 & ef1 & E & H1 & H2).
    rewrite E; simpl.
    destruct (IH acc1 pf1 ef1) as (acc2 & pf2 & ef2 & E2 & H3 & H4).
    exists acc2, pf2, ef2. eauto using stations_kept_trans.
Qed.

End StationFacts.

(** X23.  A station is harmless and cannot be harmed.  The unit that
    [SpaceStation.__init__] builds never fires in [handle_auto_fire], and
    neither the healing at a station nor the healing by a collector changes
    it.  With the damage methods of the repository, a ship of class
    [SpaceStation] comes out of the damage of a collision as it went in, and
    [handle_projectile_collisions] leaves every station of both fleets as
    it was. *)
Theorem station_is_inert :
  forall (cfg : Config) (engine : Engine),
    (forall (u : SpaceUnit) (targets : list Ship) (owner : bool) (sf dt : R),
       Utils.auto_fire_one (Craft (Station.init u)) targets owner sf
         = (Craft (Station.init u), None) /\
       GameScreen.station_heal_ship dt (Craft (Station.init u))
         = Craft (Station.init u) /\
       Collector._apply_healing (Station.init u) dt = Station.init u) /\
    (forall (s : Ship) (armor_amount hull_amount : R),
       class_of s = SpaceStation ->
       @Utils.route_damage repo_methods s armor_amount hull_amount = Returns s) /\
    (forall (group : list Proj.Projectile) (player_fleet enemy_fleet : list Ship),
       exists group' player_fleet' enemy_fleet',
         @Utils.handle_projectile_collisions repo_methods engine group player_fleet
           enemy_fleet = Normal (group', player_fleet', enemy_fleet') /\
         Stations.stations_kept player_fleet player_fleet' /\
         Stations.stations_kept enemy_fleet enemy_fleet').
Proof.
  intros cfg engine. split; [| split].
  - intros u targets owner sf dt.
    assert (E0 : Rltb 999999 999999 = false) by (apply Rltb_false; lra).
    assert (E1 : Rltb 0 (999999 - 999999) = false) by (apply Rltb_false; lra).
    split; [| split].
    + unfold Utils.auto_fire_one. cbn [hull Station.init bullet_damage].
      rewrite (proj2 (Rleb_true 0 0)) by lra. reflexivity.
    + unfold GameScreen.station_heal_ship.
      cbn [hull Station.init health max_health armor max_armor].
      rewrite E0. cbn [hull Station.init health max_health armor max_armor].
      rewrite E0. reflexivity.
    + unfold Collector._apply_healing.
      cbn [Station.init health max_health armor max_armor]. rewrite E1.
      destruct (Rltb 0 999999); destruct (Rltb 0 (Collector.HEAL_RATE * dt));
        cbn [Station.init health max_health armor max_armor]; rewrite ?E1;
        reflexivity.
  - intros s a h Hs. apply station_route_damage; exact Hs.
  - intros group pf ef. apply for_each_resolve_stations.
Qed.

Lemma uniform_between (a b : R) (g : Pacing.Rng) :
  Pacing.fair g -> a <= b ->
  a <= fst (Pacing.uniform a b g) /\
  (a < b -> fst (Pacing.uniform a b g) < b) /\
  fst (Pacing.uniform a b g) <= b.
Proof.
  intros [_ Hf] Hab. unfold Pacing.uniform, Pacing.random; simpl.
  specialize (Hf (Pacing.floats_drawn g)). repeat split; intros; nra.
Qed.

Lemma uniform_rng (a b : R) (g : Pacing.Rng) :
  snd (Pacing.uniform a b g)
  = Pacing.mkRng (Pacing.ints g) (Pacing.floats g) (Pacing.ints_drawn g)
      (S (Pacing.floats_drawn g)).
Proof. reflexivity. Qed.

Lemma fair_later (g : Pacing.Rng) (i f : nat) :
  Pacing.fair g -> Pacing.fair (Pacing.mkRng (Pacing.ints g) (Pacing.floats g) i f).
Proof. intros H; exact H. Qed.

Lemma spawn_point_spec (width height : R) (g : Pacing.Rng) :
  Pacing.fair g -> 80 <= width -> 80 <= height ->
  Pacing.beyond_an_edge width height (fst (Pacing.spawn_point width height g)) /\
  snd (Pacing.spawn_point width height g)
  = Pacing.mkRng (Pacing.ints g) (Pacing.floats g) (S (Pacing.ints_drawn g))
      (S (S (Pacing.floats_drawn g))).
Proof.
  intros Hg Hw Hh. unfold Pacing.spawn_point, Pacing.randrange4.
  set (g1 := Pacing.mkRng (Pacing.ints g) (Pacing.floats g)
               (S (Pacing.ints_drawn g)) (Pacing.floats_drawn g)).
  assert (Hg1 : Pacing.fair g1) by (apply fair_later; exact Hg).
  set (g2 := Pacing.mkRng (Pacing.ints g) (Pacing.floats g)
               (S (Pacing.ints_drawn g)) (S (Pacing.floats_drawn g))).
  assert (Hg2 : Pacing.fair g2) by (apply fair_later; exact Hg).
  pose proof (uniform_between 40 (width - 40) g1 Hg1 ltac:(lra)) as (X1 & _ & X2).
  pose proof (uniform_between 20 120 g2 Hg2 ltac:(lra)) as (U1 & U2 & _).
  pose proof (uniform_between 20 120 g1 Hg1 ltac:(lra)) as (V1 & V2 & _).
  pose proof (uniform_between 40 (height - 40) g2 Hg2 ltac:(lra)) as (Y1 & _ & Y2).
  specialize (U2 ltac:(lra)). specialize (V2 ltac:(lra)).
  unfold Pacing.beyond_an_edge.
  destruct (Pacing.ints g (Pacing.ints_drawn g) =? 0)%Z;
    [| destruct (Pacing.ints g (Pacing.ints_drawn g) =? 1)%Z;
       [| destruct (Pacing.ints g (Pacing.ints_drawn g) =? 2)%Z]].
  all: unfold Pacing.uniform, Pacing.random in *; cbn in *.
  all: split; [| reflexivity].
  - left. lra.
  - right. lra.
  - left. lra.
  - right. lra.
Qed.

Lemma spawn_points_spec (width height : R) (n : nat) :
  forall g : Pacing.Rng,
    Pacing.fair g -> 80 <= width -> 80 <= height ->
    Forall (Pacing.beyond_an_edge width height)
      (fst (Pacing.spawn_points n width height g)) /\
    List.length (fst (Pacing.spawn_points n width height g)) = n /\
    snd (Pacing.spawn_points n width height g)
    = Pacing.mkRng (Pacing.ints g) (Pacing.floats g) (n + Pacing.ints_drawn g)
        (2 * n + Pacing.floats_drawn g).
Proof.
  induction n as [| n IH]; intros g Hg Hw Hh.
  - simpl. destruct g; auto.
  - cbn [Pacing.spawn_points].
    pose proof (spawn_point_spec width height g Hg Hw Hh) as [P1 P2].
    destruct (Pacing.spawn_point width height g) as [p g1]. cbn [fst snd] in P1, P2.
    assert (Hg1 : Pacing.fair g1) by (rewrite P2; apply fair_later; exact Hg).
    destruct (IH g1 Hg1 Hw Hh) as (I1 & I2 & I3).
    destruct (Pacing.spawn_points n width height g1) as [ps g2]. cbn [fst snd] in *.
    split; [constructor; assumption |]. split; [simpl; congruence |].
    rewrite I3, P2. cbn. f_equal; lia.
Qed.

(** X24.  [spawn_enemy_wave] on a screen of at least 80 by 80, with random
    numbers as the [random] module gives them: the enemies of the fleet
    stay, in their order, and at least one enemy is added behind them,
    [count] of them for a positive [count]; every new enemy is built at a
    point outside the screen, 20 to 120 beyond one of its four edges and
    between the margins of 40 along that edge.  Each enemy takes one
    [randrange] and two [uniform]. *)
Theorem enemies_spawn_off_screen :
  forall (PirateFrigate : Vector2 -> Ship) (width height : R) (enemy_fleet : list Ship)
         (count : Z) (g : Pacing.Rng),
    Pacing.fair g -> 80 <= width -> 80 <= height ->
    let n := Z.to_nat (Z.max 1 count) in
    let res := Pacing.spawn_enemy_wave PirateFrigate width height enemy_fleet count g in
    exists points,
      fst res = enemy_fleet ++ map PirateFrigate points /\
      List.length points = n /\ (1 <= n)%nat /\
      Forall (Pacing.beyond_an_edge width height) points /\
      Forall (fun p => vx p < 0 \/ width < vx p \/ vy p < 0 \/ height < vy p) points /\
      Pacing.ints_drawn (snd res) = (n + Pacing.ints_drawn g)%nat /\
      Pacing.floats_drawn (snd res) = (2 * n + Pacing.floats_drawn g)%nat.
Proof.
  intros mk width height fleet count g Hg Hw Hh. cbv zeta.
  unfold Pacing.spawn_enemy_wave.
  destruct (spawn_points_spec width height (Z.to_nat (Z.max 1 count)) g Hg Hw Hh)
    as (S1 & S2 & S3).
  destruct (Pacing.spawn_points _ width height g) as [points g']. cbn [fst snd] in *.
  exists points. split; [reflexivity |]. split; [exact S2 |]. split; [lia |].
  split; [exact S1 |]. split; [| rewrite S3; split; reflexivity].
  eapply Forall_impl; [| exact S1]. unfold Pacing.beyond_an_edge. intros p Hp. lra.
Qed.

Lemma steady_fair : Pacing.fair Yard.steady.
Proof. split; intros k; simpl; [lia | lra]. Qed.

(** A wave with [count = 0] on a screen of 800 by 600 still spawns one
    pirate. *)
Lemma enemies_spawn_off_screen_witness :
  List.length (fst (Pacing.spawn_enemy_wave Yard.pirate_at 800 600 [] 0 Yard.steady))
  = 1%nat.
Proof.
  destruct (enemies_spawn_off_screen Yard.pirate_at 800 600 [] 0 Yard.steady
              steady_fair ltac:(lra) ltac:(lra))
    as (points & E & L & _).
  rewrite E, length_app, length_map, L. reflexivity.
Defined.

Section Waves.
Context {schedule : Schedule}.

Lemma spawn_clock_waits (t dt : R) (b : bool) :
  0 < ENEMY_SPAWN_INTERVAL -> dt < t ->
  Pacing.spawn_clock t dt b = (t - dt, false).
Proof.
  intros Hi Hlt. unfold Pacing.spawn_clock.
  rewrite (proj2 (Rltb_true _ _) Hi).
  rewrite (proj2 (Rleb_false (t - dt) 0)) by lra. reflexivity.
Qed.

Lemma spawn_clock_fires (t dt : R) (b : bool) :
  0 < ENEMY_SPAWN_INTERVAL -> t <= dt ->
  Pacing.spawn_clock t dt b = (ENEMY_SPAWN_INTERVAL, b).
Proof.
  intros Hi Hle. unfold Pacing.spawn_clock.
  rewrite (proj2 (Rltb_true _ _) Hi).
  rewrite (proj2 (Rleb_true (t - dt) 0)) by lra. reflexivity.
Qed.

Lemma spawn_clocks_wait (dts : list R) :
  forall t,
    0 < ENEMY_SPAWN_INTERVAL ->
    Forall (fun dt => 0 <= dt) dts ->
    Clock.elapsed dts < t ->
    Pacing.spawn_clocks t dts
    = (t - Clock.elapsed dts, repeat false (List.length dts)).
Proof.
  induction dts as [| dt dts IH]; intros t Hi Hd Hlt; simpl in *.
  - f_equal. lra.
  - inversion Hd as [| ? ? H0 Hd']; subst.
    pose proof (elapsed_nonneg dts Hd') as Hn.
    rewrite (spawn_clock_waits t dt true Hi) by lra.
    rewrite (IH (t - dt) Hi Hd') by lra. f_equal. lra.
Qed.

Lemma spawn_clocks_app (dts1 dts2 : list R) :
  forall t,
    Pacing.spawn_clocks t (dts1 ++ dts2)
    = let '(t1, w1) := Pacing.spawn_clocks t dts1 in
      let '(t2, w2) := Pacing.spawn_clocks t1 dts2 in
      (t2, w1 ++ w2).
Proof.
  induction dts1 as [| dt dts1 IH]; intros t; simpl.
  - destruct (Pacing.spawn_clocks t dts2); reflexivity.
  - destruct (Pacing.spawn_clock t dt true) as [t1 w].
    rewrite IH. destruct (Pacing.spawn_clocks t1 dts1) as [t2 w1].
    destruct (Pacing.spawn_clocks t2 dts2) as [t3 w2]. reflexivity.
Qed.

End Waves.

(** X25.  Enemy waves at a location of asteroids, for a positive
    [ENEMY_SPAWN_INTERVAL] and frame times that are not negative.  From a
    timer that was just set to the interval (at the start, at a change of
    location, after a wave), no wave is spawned while the frame times sum to
    less than the interval, and the timer is the interval less that sum;
    the wave is spawned in the frame in which the sum reaches the interval,
    and the timer is set to the whole interval again: what the last frame
    went over the interval is dropped. *)
Theorem waves_are_spaced :
  forall (schedule : Schedule) (dts : list R) (dt : R),
    0 < ENEMY_SPAWN_INTERVAL ->
    Forall (fun dt => 0 <= dt) dts ->
    Clock.elapsed dts < ENEMY_SPAWN_INTERVAL ->
    Pacing.spawn_clocks ENEMY_SPAWN_INTERVAL dts
    = (ENEMY_SPAWN_INTERVAL - Clock.elapsed dts, repeat false (List.length dts)) /\
    (ENEMY_SPAWN_INTERVAL <= Clock.elapsed dts + dt ->
     Pacing.spawn_clocks ENEMY_SPAWN_INTERVAL (dts ++ [dt])
     = (ENEMY_SPAWN_INTERVAL, repeat false (List.length dts) ++ [true])).
Proof.
  intros schedule dts dt Hi Hd Hlt.
  pose proof (spawn_clocks_wait dts ENEMY_SPAWN_INTERVAL Hi Hd Hlt) as E.
  split; [exact E |]. intros Hge.
  rewrite spawn_clocks_app, E. cbn [Pacing.spawn_clocks].
  rewrite spawn_clock_fires by (assumption || lra). reflexivity.
Qed.

(** With waves every 10 seconds: after frames of 4 and 5 seconds no wave
    has come and 1 second is left; a frame of 3 seconds more spawns the
    wave and the timer is at 10 again. *)
Lemma waves_are_spaced_witness :
  @Pacing.spawn_clocks Yard.schedule 10 [4; 5] = (10 - (4 + (5 + 0)), [false; false]) /\
  @Pacing.spawn_clocks Yard.schedule 10 ([4; 5] ++ [3]) = (10, [false; false; true]).
Proof.
  destruct (waves_are_spaced Yard.schedule [4; 5] 3) as [H1 H2].
  - simpl; lra.
  - repeat (apply Forall_cons; [lra |]). apply Forall_nil.
  - simpl; lra.
  - split; [exact H1 |]. apply H2. simpl; lra.
Defined.

Lemma update_zero (p : Proj.Projectile) : fst (Proj.update p 0) = p.
Proof.
  unfold Proj.update; destruct p as [[x y] [dx dy] s r h a l o]; simpl.
  unfold vadd, vscale; simpl. f_equal; [f_equal; ring | ring].
Qed.

Lemma apply_healing_zero (u : SpaceUnit) :
  Healing.within_max u -> Collector._apply_healing u 0 = u.
Proof.
  intros Hw.
  destruct (apply_healing_amounts u 0 Hw (Rle_refl 0)) as [A B]. cbv zeta in A, B.
  rewrite apply_healing_shape.
  assert (EA : armor (Collector._apply_healing u 0) = armor u).
  { rewrite A. destruct Hw as [Hh Ha]. unfold Collector.HEAL_RATE, Rmin.
    destruct (Rltb 0 (max_armor u)); [destruct (Rle_dec _ _) |]; lra. }
  assert (EH : health (Collector._apply_healing u 0) = health u).
  { rewrite B. destruct Hw as [Hh Ha]. unfold Collector.HEAL_RATE, Rmin.
    destruct (Rltb 0 (max_armor u)); repeat destruct (Rle_dec _ _); lra. }
  rewrite EA, EH. destruct u; reflexivity.
Qed.

(** X26.  The frame time is never negative and never above [MAX_DT]: a
    tick that is longer than [MAX_DT] counts as a frame of no time, and a
    frame of no time is a pause: a projectile stays where it is and keeps
    its lifetime, a positive spawn timer stays, and a collector heals
    nothing. *)
Theorem lag_spike_pauses :
  forall (schedule : Schedule) (tick : Z),
    0 <= MAX_DT -> (0 <= tick)%Z ->
    0 <= Pacing.frame_dt tick <= MAX_DT /\
    (MAX_DT < IZR tick / 1000 -> Pacing.frame_dt tick = 0) /\
    (IZR tick / 1000 <= MAX_DT -> Pacing.frame_dt tick = IZR tick / 1000) /\
    (forall p : Proj.Projectile, fst (Proj.update p 0) = p) /\
    (forall (t : R) (b : bool), 0 < t -> Pacing.spawn_clock t 0 b = (t, false)) /\
    (forall u : SpaceUnit, Healing.within_max u -> Collector._apply_healing u 0 = u).
Proof.
  intros schedule tick Hm Ht.
  assert (H0 : 0 <= IZR tick / 1000).
  { apply IZR_le in Ht. lra. }
  unfold Pacing.frame_dt.
  split; [| split; [| split; [| split; [| split]]]].
  - destruct (Rltb MAX_DT (IZR tick / 1000)) eqn:E; to_R; lra.
  - intros H. rewrite (proj2 (Rltb_true _ _) H). reflexivity.
  - intros H. rewrite (proj2 (Rltb_false _ _) H). reflexivity.
  - apply update_zero.
  - intros t b Hpos. unfold Pacing.spawn_clock.
    destruct (Rltb 0 ENEMY_SPAWN_INTERVAL); [| reflexivity].
    rewrite (proj2 (Rleb_false (t - 0) 0)) by lra. f_equal. lra.
  - apply apply_healing_zero.
Qed.

(** A tick of 2 seconds with [MAX_DT] a quarter of a second is a frame of
    no time; a tick of 16 milliseconds is a frame of 0.016 seconds. *)
Lemma lag_spike_pauses_witness :
  @Pacing.frame_dt Yard.schedule 2000 = 0 /\
  @Pacing.frame_dt Yard.schedule 16 = 16 / 1000.
Proof.
  split.
  - destruct (lag_spike_pauses Yard.schedule 2000 ltac:(simpl; lra) ltac:(lia))
      as (_ & H & _).
    apply H. simpl. lra.
  - destruct (lag_spike_pauses Yard.schedule 16 ltac:(simpl; lra) ltac:(lia))
      as (_ & _ & H & _).
    apply H. simpl. lra.
Defined.

Lemma steer_home_flags main_pos s :
  uid (hull (Docking.steer_home main_pos s)) = uid (hull s) /\
  pos (hull (Docking.steer_home main_pos s)) = pos (hull s) /\
  Docking.is_recalled (Docking.steer_home main_pos s) = Docking.is_recalled s /\
  is_light (Docking.steer_home main_pos s) = is_light s.
Proof.
  unfold Docking.steer_home.
  destruct (Docking.is_recalled s) eqn:E; [| auto].
  unfold Docking.is_recalled in *. destruct s as [u | c]; cbn in *; auto.
Qed.

Lemma docks_steered main_pos (l : list Ship) :
  filter (Docking.docks main_pos) (map (Docking.steer_home main_pos) l)
  = map (Docking.steer_home main_pos) (filter (Docking.docks main_pos) l).
Proof.
  rewrite filter_map_comm. f_equal. apply filter_ext. intros s.
  destruct (steer_home_flags main_pos s) as (_ & Q & R' & _).
  unfold Docking.docks. rewrite R', Q. reflexivity.
Qed.

Lemma dock_each_keeps (recalled_done : list Ship) :
  forall (s : Ship) (player_fleet : list Ship) (docked : list nat),
    ~ In (uid (hull s)) (Frames.uids recalled_done) ->
    Docking.dock_each recalled_done (s :: player_fleet) (Some docked)
    = match Docking.dock_each recalled_done player_fleet (Some docked) with
      | Normal (fleet', hangar') => Normal (s :: fleet', hangar')
      | Raised e => Raised e
      end.
Proof.
  induction recalled_done as [| craft rest IH]; intros s fl docked Hn;
    [reflexivity |].
  cbn [Docking.dock_each Docking.remove_craft].
  destruct (Nat.eqb_spec (uid (hull s)) (uid (hull craft))) as [E | _].
  - exfalso. apply Hn. left. symmetry. exact E.
  - apply IH. intros H. apply Hn. right. exact H.
Qed.

Lemma dock_each_filter (P : Ship -> bool) (player_fleet : list Ship) :
  forall docked : list nat,
    NoDup (Frames.uids player_fleet) ->
    Docking.dock_each (filter P player_fleet) player_fleet (Some docked)
    = Normal (filter (fun s => negb (P s)) player_fleet,
              Some (docked ++ Frames.uids (filter P player_fleet))).
Proof.
  induction player_fleet as [| s rest IH]; intros docked Hnd.
  - simpl. rewrite app_nil_r. reflexivity.
  - inversion Hnd as [| ? ? Hs Hrest]; subst. cbn [filter].
    destruct (P s) eqn:E; cbn [negb].
    + cbn [Docking.dock_each Docking.remove_craft]. rewrite Nat.eqb_refl.
      rewrite (IH _ Hrest). cbn [Frames.uids map]. rewrite <- app_assoc. reflexivity.
    + rewrite dock_each_keeps.
      * rewrite (IH _ Hrest). reflexivity.
      * intros H. apply Hs. apply (uids_filter_incl P rest). exact H.
Qed.

(** X27.  The docking of recalled crafts, for a fleet of distinct ships.
    Every light craft that is recalling is sent to the main ship.  Those
    that are less than 50 away from it dock: with no hangar on the main
    player the first of them raises the [RuntimeError]; otherwise they
    leave the fleet, and are reported to the hangar in fleet order.  The
    other ships stay in their order: a recalled craft that stays is 50 or
    more away and has the main ship as target, and a ship that is not a
    recalled light craft is as it was, so no other ship ever docks. *)
Theorem recalled_crafts_dock :
  forall (main_pos : Vector2) (player_fleet : list Ship) (hangar : option (list nat)),
    NoDup (Frames.uids player_fleet) ->
    let steered := map (Docking.steer_home main_pos) player_fleet in
    let recalled_done := filter (Docking.docks main_pos) steered in
    let stay := filter (fun s => negb (Docking.docks main_pos s)) steered in
    Docking.recall_phase main_pos player_fleet hangar
    = match hangar, recalled_done with
      | None, _ :: _ => Raised hangar_error
      | None, [] => Normal (steered, None)
      | Some docked, _ => Normal (stay, Some (docked ++ Frames.uids recalled_done))
      end /\
    Frames.uids recalled_done
    = Frames.uids (filter (Docking.docks main_pos) player_fleet) /\
    Forall (fun s =>
              if Docking.is_recalled s
              then mover_target (hull s) = main_pos /\
                   50 <= vlength (vsub (pos (hull s)) main_pos)
              else In s player_fleet) stay.
Proof.
  intros main_pos fleet hangar Hnd. cbv zeta.
  assert (Hu : Frames.uids (map (Docking.steer_home main_pos) fleet) = Frames.uids fleet).
  { apply uids_map. intros s. apply steer_home_flags. }
  split; [| split].
  - unfold Docking.recall_phase.
    destruct hangar as [docked |].
    + apply dock_each_filter. rewrite Hu. exact Hnd.
    + destruct (filter (Docking.docks main_pos) (map (Docking.steer_home main_pos) fleet));
        reflexivity.
  - rewrite docks_steered. apply uids_map. intros s. apply steer_home_flags.
  - apply Forall_forall. intros s Hs. apply filter_In in Hs. destruct Hs as [Hin Hd].
    apply in_map_iff in Hin. destruct Hin as (s0 & <- & Hin0).
    destruct (steer_home_flags main_pos s0) as (U & Q & R' & _).
    rewrite R', Q. unfold Docking.docks in Hd. rewrite R', Q in Hd.
    unfold Docking.steer_home. 
    destruct (Docking.is_recalled s0) eqn:E.
    + cbn [andb negb] in Hd. apply negb_true_iff in Hd. to_R.
      rewrite hull_map_hull. split; [reflexivity | exact Hd].
    + exact Hin0.
Qed.

Lemma vlength_lt_iff a r : 0 <= r -> (vlength a < r <-> length_squared a < r * r).
Proof.
  intros Hr. pose proof (length_squared_nonneg a) as Hs.
  pose proof (sqrt_pos (length_squared a)) as Hp.
  pose proof (sqrt_sqrt _ Hs) as Hq. unfold vlength. split; intros H; nra.
Qed.

Lemma homecoming_distinct : NoDup (Frames.uids Yard.homecoming).
Proof.
  repeat constructor; simpl; intuition discriminate.
Qed.

(** The scout at 30 from the flagship docks and is reported; the
    interceptor that is far away stays and flies home. *)
Lemma recalled_crafts_dock_witness :
  exists stay,
    Docking.recall_phase (V2 400 300) Yard.homecoming (Some [])
    = Normal (stay, Some [1%nat]) /\
    Frames.uids stay = [0%nat; 4%nat].
Proof.
  destruct (recalled_crafts_dock (V2 400 300) Yard.homecoming (Some [])
              homecoming_distinct) as (E & U & _).
  assert (Hnear : Rltb (vlength (vsub (V2 400 330) (V2 400 300))) 50 = true).
  { apply Rltb_true. apply vlength_lt_iff; [lra |]. unfold length_squared; simpl; lra. }
  assert (Hfar : Rltb (vlength (vsub (V2 0 0) (V2 400 300))) 50 = false).
  { apply Rltb_false. apply Rlt_le. apply vlength_gt_iff; [lra |].
    unfold length_squared; simpl; lra. }
  eexists. split.
  - rewrite E. rewrite U. f_equal. f_equal. f_equal.
    unfold Yard.homecoming, Docking.docks, Docking.is_recalled. cbn [filter].
    cbn -[Rltb vlength vsub]. rewrite Hnear, Hfar. reflexivity.
  - unfold Yard.homecoming, Docking.docks, Docking.steer_home, Docking.is_recalled.
    cbn -[Rltb vlength vsub]. rewrite Hnear, Hfar. reflexivity.
Defined.

Section Fields.
Context {display : Display} {rocks : Rocks}.

Lemma dice_fair_later (d : Locations.Dice) (i j : nat) :
  Locations.fair d ->
  Locations.fair (Locations.mkDice (Locations.randints d) (Locations.choices d)
                    (Locations.shuffled d) i j).
Proof. intros H; exact H. Qed.

Lemma later_fair d d' : Locations.later d d' -> Locations.fair d -> Locations.fair d'.
Proof.
  intros (E1 & E2 & E3) H. unfold Locations.fair. rewrite E1, E2, E3. exact H.
Qed.

Lemma later_refl d : Locations.later d d.
Proof. repeat split. Qed.

Lemma later_trans d1 d2 d3 : Locations.later d1 d2 -> Locations.later d2 d3 -> Locations.later d1 d3.
Proof. unfold Locations.later. intros (A & B & C) (A' & B' & C'). repeat split; congruence. Qed.

Lemma random_pos_spec (d : Locations.Dice) :
  Locations.fair d -> (200 <= SCREEN_WIDTH)%Z -> (200 <= SCREEN_HEIGHT)%Z ->
  Locations.in_spawn_area (fst (Locations.random_pos d)) /\
  Locations.later d (snd (Locations.random_pos d)).
Proof.
  intros (Hr & _) Hw Hh.
  assert (Hx : (100 <= SCREEN_WIDTH - 100)%Z) by lia.
  assert (Hy : (100 <= SCREEN_HEIGHT - 100)%Z) by lia.
  pose proof (Hr (Locations.randints_drawn d) 100%Z (SCREEN_WIDTH - 100)%Z Hx)
    as [X1 X2].
  pose proof (Hr (S (Locations.randints_drawn d)) 100%Z (SCREEN_HEIGHT - 100)%Z Hy)
    as [Y1 Y2].
  unfold Locations.random_pos, Locations.randint; cbn.
  split; [| repeat split].
  unfold Locations.in_spawn_area; cbn.
  apply IZR_le in X1, X2, Y1, Y2. lra.
Qed.

Lemma spawn_m_spec (tier : Z) (n : nat) :
  forall d : Locations.Dice,
    Locations.fair d -> (200 <= SCREEN_WIDTH)%Z -> (200 <= SCREEN_HEIGHT)%Z ->
    exists points,
      fst (Locations.spawn_m n tier d)
      = map (fun pos => MineableAsteroidM pos tier (1 / 2)) points /\
      List.length points = n /\
      Forall Locations.in_spawn_area points.
Proof.
  induction n as [| n IH]; intros d Hd Hw Hh; cbn [Locations.spawn_m].
  - exists []. auto.
  - pose proof (random_pos_spec d Hd Hw Hh) as [P1 P2].
    destruct (Locations.random_pos d) as [pos d1]. cbn [fst snd] in *.
    destruct (IH d1 (later_fair _ _ P2 Hd) Hw Hh) as (points & E & L & F).
    destruct (Locations.spawn_m n tier d1) as [rest d2]. cbn [fst] in *.
    exists (pos :: points). cbn. rewrite E, L. auto.
Qed.

Lemma random_choices_spec (n : nat) :
  forall d : Locations.Dice,
    Locations.fair d ->
    Forall Locations.abc (fst (Locations.random_choices n d)) /\
    List.length (fst (Locations.random_choices n d)) = n /\
    Locations.later d (snd (Locations.random_choices n d)).
Proof.
  induction n as [| n IH]; intros d Hd; cbn [Locations.random_choices].
  - cbn. auto using later_refl.
  - unfold Locations.choice.
    set (d1 := Locations.mkDice _ _ _ _ _).
    assert (L1 : Locations.later d d1) by (repeat split).
    destruct (IH d1 (later_fair _ _ L1 Hd)) as (F & L & La).
    destruct (Locations.random_choices n d1) as [ks d2]. cbn [fst snd] in *.
    split; [| split; [simpl; congruence | exact (later_trans _ _ _ L1 La)]].
    constructor; [| exact F].
    destruct Hd as (_ & Hc & _). specialize (Hc (Locations.choices_drawn d)).
    unfold Locations.abc.
    destruct (Locations.choices d (Locations.choices_drawn d)) as [| [| [| k]]];
      cbn; auto. lia.
Qed.

Lemma spawn_abc_spec (ore_type : string) (tier : Z) (keys : list string) :
  forall d : Locations.Dice,
    String.eqb ore_type "M" = false ->
    Forall Locations.abc keys ->
    Locations.fair d -> (200 <= SCREEN_WIDTH)%Z -> (200 <= SCREEN_HEIGHT)%Z ->
    exists points d',
      Locations.spawn_abc keys ore_type tier d
      = Normal (map (Locations.build ore_type tier) (combine keys points), d') /\
      List.length points = List.length keys /\
      Forall Locations.in_spawn_area points.
Proof.
  induction keys as [| k keys IH]; intros d Hm Hk Hd Hw Hh;
    cbn [Locations.spawn_abc].
  - exists [], d. auto.
  - inversion Hk as [| ? ? Hk1 Hk2]; subst.
    pose proof (random_pos_spec d Hd Hw Hh) as [P1 P2].
    destruct (Locations.random_pos d) as [pos d1]. cbn [fst snd] in *.
    destruct (IH d1 Hm Hk2 (later_fair _ _ P2 Hd) Hw Hh) as (points & d' & E & L & F).
    exists (pos :: points), d'. rewrite E.
    split; [| split; [simpl; congruence | constructor; assumption]].
    cbn [combine map Locations.build]. rewrite Hm.
    unfold Locations.asteroid_map, Locations.ore_purity.
    destruct Hk1 as [-> | [-> | ->]]; cbn [String.eqb Ascii.eqb Bool.eqb bind andb];
      cbn; repeat f_equal;
      destruct ore_type as [| [[] [] [] [] [] [] [] []] [|]]; reflexivity.
Qed.

End Fields.

Lemma map_fst_combine {A B : Type} (l : list A) : forall l' : list B,
  List.length l' = List.length l -> map fst (combine l l') = l.
Proof.
  induction l as [| a l IH]; intros [| b l'] H; simpl in *; try discriminate;
    [reflexivity |]. f_equal. apply IH. lia.
Qed.

Lemma map_snd_combine {A B : Type} (l : list A) : forall l' : list B,
  List.length l' = List.length l -> map snd (combine l l') = l'.
Proof.
  induction l as [| a l IH]; intros [| b l'] H; simpl in *; try discriminate;
    [reflexivity |]. f_equal. apply IH. lia.
Qed.

Lemma has_type_exclusive (loc : Locations.Location) :
  Locations.has_type loc "Asteroids" = true -> Locations.has_type loc "Station" = false.
Proof.
  unfold Locations.has_type. destruct (Locations.loc_type loc) as [t |]; [| auto].
  intros H. apply String.eqb_eq in H. subst t. reflexivity.
Qed.

(** X28.  What a location holds, on a screen of at least 200 by 200 and
    with random numbers as the [random] module gives them.  No location, or
    one whose type is not ["Asteroids"], has no asteroids.  A location of
    asteroids has no station and at most 10 asteroids of its tier, each at
    a point 100 or more inside the screen: for the ore M (the default) 4 or
    more asteroids of class M with purity 0.5; for another ore 5 or more
    asteroids of the classes A, B and C, with at least one of each class,
    those of the ore of the location with purity 0.5 and the others with
    purity 0.13.  The function does not raise. *)
Theorem location_holds_asteroids :
  forall (display : Display) (rocks : Rocks) (location_data : option Locations.Location)
         (d : Locations.Dice),
    Locations.fair d -> (200 <= SCREEN_WIDTH)%Z -> (200 <= SCREEN_HEIGHT)%Z ->
    exists asteroids d',
      Locations.spawn_asteroids_for_location location_data d = Normal (asteroids, d') /\
      match location_data with
      | None => asteroids = []
      | Some loc =>
          if Locations.has_type loc "Asteroids" then
            let tier := match Locations.loc_tier loc with Some t => t | None => 0%Z end in
            let ore :=
              match Locations.loc_ore loc with Some o => o | None => "M"%string end in
            Locations.spawn_station_for_location location_data = Normal None /\
            exists orders,
              asteroids = map (Locations.build ore tier) orders /\
              Forall (fun o => Locations.in_spawn_area (snd o)) orders /\
              (List.length orders <= 10)%nat /\
              if String.eqb ore "M" then (4 <= List.length orders)%nat
              else (5 <= List.length orders)%nat /\
                   Forall (fun o => Locations.abc (fst o)) orders /\
                   In "A"%string (map fst orders) /\
                   In "B"%string (map fst orders) /\
                   In "C"%string (map fst orders)
          else asteroids = []
      end.
Proof.
  intros display rocks location d Hd Hw Hh.
  unfold Locations.spawn_asteroids_for_location.
  destruct location as [loc |]; [| exists [], d; auto].
  destruct (Locations.has_type loc "Asteroids") eqn:Ht; [| exists [], d; auto].
  cbv zeta.
  set (tier := match Locations.loc_tier loc with Some t => t | None => 0%Z end).
  set (ore := match Locations.loc_ore loc with Some o => o | None => "M"%string end).
  assert (Hst : Locations.spawn_station_for_location (Some loc) = Normal None).
  { unfold Locations.spawn_station_for_location.
    rewrite (has_type_exclusive loc Ht). reflexivity. }
  destruct (String.eqb ore "M") eqn:Hm.
  - (* ore M *)
    unfold Locations.randint.
    set (d1 := Locations.mkDice _ _ _ _ _).
    destruct Hd as (Hr & Hc & Hp).
    pose proof (Hr (Locations.randints_drawn d) 4%Z 10%Z ltac:(lia)) as Hcount.
    destruct (spawn_m_spec tier
                (Z.to_nat (Locations.randints d (Locations.randints_drawn d) 4%Z 10%Z))
                d1 (conj Hr (conj Hc Hp)) Hw Hh) as (points & E & L & F).
    destruct (Locations.spawn_m _ tier d1) as [asteroids d2]. cbn [fst] in E.
    exists asteroids, d2. split; [reflexivity |]. split; [exact Hst |].
    exists (map (fun p => ("M"%string, p)) points).
    rewrite map_map, !length_map, L. split; [| split; [| split; [lia | lia]]].
    + rewrite E. apply map_ext. intros p. unfold Locations.build. rewrite Hm.
      reflexivity.
    + apply Forall_map. exact F.
  - (* ores A, B, C *)
    unfold Locations.randint.
    set (d1 := Locations.mkDice _ _ _ _ _).
    set (count := Locations.randints d (Locations.randints_drawn d) 5%Z 10%Z).
    assert (Hcount : (5 <= count <= 10)%Z) by (apply Hd; lia).
    assert (Hd1 : Locations.fair d1) by exact Hd.
    rewrite (proj2 (Z.ltb_lt 3 count)) by lia.
    destruct (random_choices_spec (Z.to_nat (count - 3)) d1 Hd1) as (Fm & Lm & La).
    destruct (Locations.random_choices (Z.to_nat (count - 3)) d1) as [more d2].
    cbn [fst snd] in *.
    assert (Hd2 : Locations.fair d2) by (apply (later_fair d1); assumption).
    set (keys := Locations.shuffled d2 (["A"%string; "B"%string; "C"%string] ++ more)).
    assert (Hperm : Permutation (["A"%string; "B"%string; "C"%string] ++ more) keys)
      by apply Hd2.
    assert (Fk : Forall Locations.abc keys).
    { eapply Permutation_Forall; [exact Hperm |].
      apply Forall_app. split; [| exact Fm].
      unfold Locations.abc.
      constructor; [left; reflexivity |].
      constructor; [right; left; reflexivity |].
      constructor; [right; right; reflexivity | constructor]. }
    assert (Lk : List.length keys = Z.to_nat count).
    { rewrite <- (Permutation_length Hperm), length_app, Lm. simpl. lia. }
    destruct (spawn_abc_spec ore tier keys d2 Hm Fk Hd2 Hw Hh)
      as (points & d' & E & L & F).
    exists (map (Locations.build ore tier) (combine keys points)), d'.
    split; [exact E |]. split; [exact Hst |].
    exists (combine keys points).
    assert (Lc : List.length (combine keys points) = Z.to_nat count).
    { rewrite length_combine, L, Lk. lia. }
    split; [reflexivity |]. split; [| split; [lia |]].
    + apply Forall_map. rewrite (map_snd_combine keys points L). exact F.
    + split; [lia |]. split.
      * apply Forall_map. rewrite (map_fst_combine keys points L). exact Fk.
      * rewrite (map_fst_combine keys points L).
        repeat split; apply (Permutation_in _ Hperm); simpl; auto.
Qed.

Lemma low_dice_fair : Locations.fair Yard.low_dice.
Proof.
  split; [| split]; simpl; intros; [lia | lia | apply Permutation_refl].
Qed.

(** The field of ore B on a screen of 800 by 600: between 5 and 10
    asteroids, and no station. *)
Lemma location_holds_asteroids_witness :
  exists asteroids d',
    @Locations.spawn_asteroids_for_location Yard.display Yard.rocks
      (Some Yard.field_b) Yard.low_dice = Normal (asteroids, d') /\
    (5 <= List.length asteroids <= 10)%nat /\
    @Locations.spawn_station_for_location Yard.display (Some Yard.field_b)
    = Normal None.
Proof.
  destruct (location_holds_asteroids Yard.display Yard.rocks (Some Yard.field_b)
              Yard.low_dice low_dice_fair ltac:(simpl; lia) ltac:(simpl; lia))
    as (asteroids & d' & E & H).
  exists asteroids, d'. split; [exact E |].
  cbn in H. destruct H as (Hs & orders & -> & _ & L10 & L5 & _).
  rewrite length_map. split; [lia | exact Hs].
Defined.

(** A list has a first element on which [f] holds, or none. *)
Lemma first_or_none {A : Type} (f : A -> bool) (l : list A) :
  Forall (fun a => f a = false) l \/
  exists before a after,
    l = before ++ a :: after /\ Forall (fun b => f b = false) before /\ f a = true.
Proof.
  induction l as [| a l IH]; [left; constructor |].
  destruct (f a) eqn:E.
  - right. exists [], a, l. auto.
  - destruct IH as [IH | (before & b & after & -> & Hb & Hf)].
    + left. constructor; assumption.
    + right. exists (a :: before), b, after. auto.
Qed.

(** The craft that a recall marks, and the ships that it leaves. *)
Lemma recall_each (craft : option nat) (fleet : list Ship) :
  Forall2
    (fun s s' =>
       (craft = Some (uid (hull s)) /\ 0 < health (hull s) ->
        s' = map_hull Hud.recall_unit s /\
        GameScreen.is_selected_shape s' = false /\
        Docking.is_recalled s' = is_light s) /\
       (craft <> Some (uid (hull s)) \/ health (hull s) <= 0 -> s' = s))
    fleet (Hud.recall craft fleet).
Proof.
  unfold Hud.recall. destruct craft as [c |].
  - induction fleet as [| s l IH]; simpl; constructor; [| exact IH].
    destruct (Nat.eqb_spec (uid (hull s)) c) as [E | E]; simpl.
    + destruct (Rltb 0 (health (hull s))) eqn:H; to_R.
      * split; [| intros [N | N]; [congruence | lra]].
        intros _. split; [reflexivity |].
        split.
        -- unfold GameScreen.is_selected_shape. rewrite hull_map_hull. reflexivity.
        -- unfold Docking.is_recalled, is_light. rewrite hull_map_hull.
           destruct s as [u | k]; cbn; rewrite ?andb_true_r; reflexivity.
      * split; [intros [_ N]; lra | reflexivity].
    + split; [intros [N _]; congruence | reflexivity].
  - induction fleet as [| s l IH]; constructor; [| exact IH].
    split; [intros [N _]; discriminate | reflexivity].
Qed.

Section Clicks2.
Context {bay : Hud.Bay}.

Lemma check_buttons_first (mouse_pos : Z * Z) (main_player : Hud.Carrier)
    (fleet : list Ship) (before : list Hud.Slot) (slot : Hud.Slot)
    (after : list Hud.Slot) :
  Forall (fun s => Clicks.on_button mouse_pos s = false) before ->
  Clicks.on_button mouse_pos slot = true ->
  forall i,
    Hud.check_buttons i (before ++ slot :: after) mouse_pos main_player fleet
    = (r <- Hud.press_button (i + List.length before) main_player fleet ;;
       Normal (Some (before ++ Hud.with_show_button slot false :: after,
                     fst r, snd r))).
Proof.
  unfold Clicks.on_button. intros Hb Hs.
  induction Hb as [| b before Hc _ IH]; intros i.
  - cbn [app Hud.check_buttons List.length]. rewrite Hs, Nat.add_0_r.
    destruct (Hud.press_button i main_player fleet) as [[mp' fleet'] |]; reflexivity.
  - cbn [app Hud.check_buttons List.length]. rewrite Hc, (IH (S i)).
    replace (S i + List.length before)%nat with (i + S (List.length before))%nat by lia.
    destruct (Hud.press_button _ main_player fleet) as [[mp' fleet'] |]; reflexivity.
Qed.

Lemma check_buttons_none (mouse_pos : Z * Z) (main_player : Hud.Carrier)
    (fleet : list Ship) (slots : list Hud.Slot) :
  Forall (fun s => Clicks.on_button mouse_pos s = false) slots ->
  forall i, Hud.check_buttons i slots mouse_pos main_player fleet = Normal None.
Proof.
  unfold Clicks.on_button.
  induction 1 as [| b slots Hc _ IH]; intros i; [reflexivity |].
  cbn [Hud.check_buttons]. rewrite Hc, (IH (S i)). reflexivity.
Qed.

End Clicks2.

Lemma check_previews_first (size : Z) (mouse_pos : Z * Z) (before : list Hud.Slot)
    (slot : Hud.Slot) (after : list Hud.Slot) :
  Forall (fun s => Clicks.on_preview size mouse_pos s = false) before ->
  Clicks.on_preview size mouse_pos slot = true ->
  Hud.check_previews size (before ++ slot :: after) mouse_pos
  = Some (before ++ Hud.with_show_button slot (negb (Hud.show_button slot)) :: after).
Proof.
  unfold Clicks.on_preview. intros Hb Hs.
  induction Hb as [| b before Hc _ IH].
  - cbn [app Hud.check_previews]. rewrite Hs. reflexivity.
  - cbn [app Hud.check_previews]. rewrite Hc, IH. reflexivity.
Qed.

Lemma check_previews_none (size : Z) (mouse_pos : Z * Z) (slots : list Hud.Slot) :
  Forall (fun s => Clicks.on_preview size mouse_pos s = false) slots ->
  Hud.check_previews size slots mouse_pos = None.
Proof.
  unfold Clicks.on_preview.
  induction 1 as [| b slots Hc _ IH]; [reflexivity |].
  cbn [Hud.check_previews]. rewrite Hc, IH. reflexivity.
Qed.

Lemma one_button_changed_middle before slot after b :
  Hud.one_button_changed (before ++ slot :: after)
    (before ++ Hud.with_show_button slot b :: after).
Proof. right. exists before, slot, after, b. split; reflexivity. Qed.

(** X29.  A left press on the hangar interface, case by case.  The press
    goes to the first slot whose button is shown and under the mouse, slot
    [i].  When [hangar[i]] is true, the craft is in the hangar: it is
    deployed if [can_deploy(i)] allows it, and what [deploy(i)] returns is
    added at the end of the fleet.  When [hangar[i]] is false, the craft is
    out: the main player stays, and the ship of the fleet that is the craft
    linked to slot [i] and has a positive health is recalled, so that it is
    no longer selected, is not in the group of a group move, and is, when
    it is a light craft, one that the docking sends to the main ship; every
    other ship stays as it is.  When the hangar has no slot [i], the press
    raises [IndexError].  In the first two cases the button of the slot is
    hidden and the press is consumed.  When no shown button is under the
    mouse, the main player and the fleet stay: the button of the first
    slot whose preview is under the mouse is toggled and the press is
    consumed, or, without such a slot, nothing changes and the press is not
    consumed.  So the press changes the button of one slot at most, a press
    that is not consumed changes nothing, and the only exception is the
    [IndexError] of a pressed slot that the hangar does not have. *)
Theorem hangar_click :
  forall (bay : Hud.Bay) (preview_size : Z) (slots : list Hud.Slot) (mouse_pos : Z * Z)
         (main_player : Hud.Carrier) (player_shapes : list Ship),
    let click :=
      Hud.handle_mouse_button_down preview_size slots mouse_pos main_player
        player_shapes in
    (forall before slot after,
       slots = before ++ slot :: after ->
       Forall (fun s => Clicks.on_button mouse_pos s = false) before ->
       Clicks.on_button mouse_pos slot = true ->
       let i := List.length before in
       let slots' := before ++ Hud.with_show_button slot false :: after in
       match nth_error (Hud.hangar main_player) i with
       | Some true =>
           if Hud.can_deploy main_player i
           then click
                = Normal (true, slots', fst (Hud.deploy main_player i),
                          match snd (Hud.deploy main_player i) with
                          | Some new_fighter => player_shapes ++ [new_fighter]
                          | None => player_shapes
                          end)
           else click = Normal (true, slots', main_player, player_shapes)
       | Some false =>
           exists player_shapes',
             click = Normal (true, slots', main_player, player_shapes') /\
             Forall2
               (fun s s' =>
                  (Hud.linked_craft main_player i = Some (uid (hull s)) /\
                   0 < health (hull s) ->
                   s' = map_hull Hud.recall_unit s /\
                   GameScreen.is_selected_shape s' = false /\
                   Docking.is_recalled s' = is_light s) /\
                  (Hud.linked_craft main_player i <> Some (uid (hull s)) \/
                   health (hull s) <= 0 ->
                   s' = s))
               player_shapes player_shapes'
       | None => click = Raised "IndexError"
       end) /\
    (Forall (fun s => Clicks.on_button mouse_pos s = false) slots ->
     (forall before slot after,
        slots = before ++ slot :: after ->
        Forall (fun s => Clicks.on_preview preview_size mouse_pos s = false) before ->
        Clicks.on_preview preview_size mouse_pos slot = true ->
        click
        = Normal (true,
                  before ++ Hud.with_show_button slot (negb (Hud.show_button slot))
                    :: after,
                  main_player, player_shapes)) /\
     (Forall (fun s => Clicks.on_preview preview_size mouse_pos s = false) slots ->
      click = Normal (false, slots, main_player, player_shapes))) /\
    match click with
    | Normal (clicked_ui, slots', main_player', player_shapes') =>
        Hud.one_button_changed slots slots' /\
        (clicked_ui = false ->
         slots' = slots /\ main_player' = main_player /\
         player_shapes' = player_shapes)
    | Raised e =>
        e = "IndexError"%string /\
        exists before slot after,
          slots = before ++ slot :: after /\
          Forall (fun s => Clicks.on_button mouse_pos s = false) before /\
          Clicks.on_button mouse_pos slot = true /\
          nth_error (Hud.hangar main_player) (List.length before) = None
    end.
Proof.
  intros bay size slots mouse mp fleet. cbv zeta.
  assert (Hfirst : forall before slot after,
             slots = before ++ slot :: after ->
             Forall (fun s => Clicks.on_button mouse s = false) before ->
             Clicks.on_button mouse slot = true ->
             Hud.handle_mouse_button_down size slots mouse mp fleet
             = (r <- Hud.press_button (List.length before) mp fleet ;;
                Normal (true, before ++ Hud.with_show_button slot false :: after,
                        fst r, snd r))).
  { intros before slot after -> Hb Hs. unfold Hud.handle_mouse_button_down.
    rewrite (check_buttons_first mouse mp fleet before slot after Hb Hs 0%nat).
    cbn [Nat.add].
    destruct (Hud.press_button (List.length before) mp fleet) as [[mp' fleet'] |];
      reflexivity. }
  assert (Hnone : Forall (fun s => Clicks.on_button mouse s = false) slots ->
            Hud.handle_mouse_button_down size slots mouse mp fleet
            = match Hud.check_previews size slots mouse with
              | Some slots' => Normal (true, slots', mp, fleet)
              | None => Normal (false, slots, mp, fleet)
              end).
  { intros Hb. unfold Hud.handle_mouse_button_down.
    rewrite (check_buttons_none mouse mp fleet slots Hb 0%nat). reflexivity. }
  split; [| split].
  - intros before slot after E Hb Hs.
    rewrite (Hfirst before slot after E Hb Hs). unfold Hud.press_button.
    destruct (nth_error (Hud.hangar mp) (List.length before)) as [[|] |];
      [| | reflexivity].
    + destruct (Hud.can_deploy mp (List.length before)); [| reflexivity].
      destruct (Hud.deploy mp (List.length before)) as [mp' [f |]]; reflexivity.
    + eexists. split; [reflexivity |]. apply recall_each.
  - intros Hb. rewrite (Hnone Hb). split.
    + intros before slot after -> Hp Hs.
      rewrite (check_previews_first size mouse before slot after Hp Hs). reflexivity.
    + intros Hp. rewrite (check_previews_none size mouse slots Hp). reflexivity.
  - destruct (first_or_none (Clicks.on_button mouse) slots)
      as [Hb | (before & slot & after & E & Hb & Hs)].
    + rewrite (Hnone Hb).
      destruct (first_or_none (Clicks.on_preview size mouse) slots)
        as [Hp | (before & slot & after & E & Hp & Hs)].
      * rewrite (check_previews_none size mouse slots Hp).
        split; [left; reflexivity | auto].
      * subst slots. rewrite (check_previews_first size mouse before slot after Hp Hs).
        split; [apply one_button_changed_middle | discriminate].
    + rewrite (Hfirst before slot after E Hb Hs). unfold Hud.press_button.
      destruct (nth_error (Hud.hangar mp) (List.length before)) as [[|] |] eqn:En.
      * destruct (Hud.can_deploy mp (List.length before)).
        -- destruct (Hud.deploy mp (List.length before)) as [mp' [f |]]; cbn;
             subst slots; (split; [apply one_button_changed_middle | discriminate]).
        -- cbn. subst slots. split; [apply one_button_changed_middle | discriminate].
      * cbn. subst slots. split; [apply one_button_changed_middle | discriminate].
      * cbn. split; [reflexivity |]. exists before, slot, after. auto.
Qed.

(** The scout is out and is linked to the first slot, whose button is shown
    and under the mouse at (10, 10): the press is consumed, the button is
    hidden, and the scout is recalled while the flagship stays. *)
Lemma hangar_click_witness :
  exists player_shapes',
    @Hud.handle_mouse_button_down Yard.bay 40 Yard.slots_open (10, 10)%Z Yard.carrier
      [Craft Examples.flagship; Craft Examples.scout]
    = Normal (true,
              [] ++ Hud.with_show_button
                      (Hud.mkSlot (260, 565)%Z true (GameScreen.mkRect 0 0 80 25)) false
                 :: [Hud.mkSlot (360, 565)%Z false (GameScreen.mkRect 0 0 80 25);
                     Hud.mkSlot (460, 565)%Z false (GameScreen.mkRect 0 0 80 25)],
              Yard.carrier, player_shapes') /\
    Forall2
      (fun s s' =>
         (Hud.linked_craft Yard.carrier 0 = Some (uid (hull s)) /\
          0 < health (hull s) ->
          s' = map_hull Hud.recall_unit s /\
          GameScreen.is_selected_shape s' = false /\
          Docking.is_recalled s' = is_light s) /\
         (Hud.linked_craft Yard.carrier 0 <> Some (uid (hull s)) \/
          health (hull s) <= 0 ->
          s' = s))
      [Craft Examples.flagship; Craft Examples.scout] player_shapes'.
Proof.
  refine (proj1 (hangar_click Yard.bay 40 Yard.slots_open (10, 10)%Z Yard.carrier
                   [Craft Examples.flagship; Craft Examples.scout])
            [] _ _ eq_refl (Forall_nil _) _).
  unfold Clicks.on_button. run_R. reflexivity.
Defined.

Lemma py_int_between (x : R) (n : Z) :
  0 <= x <= IZR n -> (0 <= Effects.py_int x <= n)%Z.
Proof.
  intros [H0 Hn]. unfold Effects.py_int. destruct (Rle_dec 0 x); [| lra].
  destruct (base_Int_part x) as [B1 B2]. split.
  - assert (H : (-1 < Int_part x)%Z) by (apply lt_IZR; simpl; lra). lia.
  - apply le_IZR. lra.
Qed.

Lemma py_int_zero : Effects.py_int 0 = 0%Z.
Proof.
  pose proof (py_int_between 0 0 ltac:(simpl; lra)). lia.
Qed.

Lemma vlength_nonneg (v : Vector2) : 0 <= vlength v.
Proof. apply sqrt_pos. Qed.

(** X30.  [Particle.update] for a time that is not negative: the particle
    moves by its velocity times [dt] and its lifetime falls by [dt]; its
    velocity is scaled by a factor between 0 and 1, so that it keeps its
    direction and never gets faster, and stops after a frame of a third of a
    second or more; the alpha of a particle with a positive [max_life] is
    set to a value from 0 to 255; the particle kills itself exactly when
    its lifetime is used up, and its alpha is then 0. *)
Theorem particle_slows_and_fades :
  forall (p : Effects.Particle) (dt : R),
    0 <= dt ->
    let p' := fst (Effects.update p dt) in
    let killed := snd (Effects.update p dt) in
    Effects.pos p' = vadd (Effects.pos p) (vscale (Effects.vel p) dt) /\
    Effects.lifetime p' = Effects.lifetime p - dt /\
    (exists k, 0 <= k <= 1 /\ Effects.vel p' = vscale (Effects.vel p) k) /\
    vlength (Effects.vel p') <= vlength (Effects.vel p) /\
    (1 / 3 <= dt -> vlength (Effects.vel p') = 0) /\
    (killed = true <-> Effects.lifetime p <= dt) /\
    (if Rltb 0 (Effects.max_life p)
     then exists a, Effects.alpha p' = Some a /\ (0 <= a <= 255)%Z /\
                    (killed = true -> a = 0%Z)
     else Effects.alpha p' = Effects.alpha p).
Proof.
  intros p dt Hdt. cbv zeta. unfold Effects.update. cbn [fst snd Effects.pos
    Effects.vel Effects.lifetime Effects.alpha Effects.max_life].
  assert (Hk : 0 <= Rmax 0 (1 - 3 * dt) <= 1) by (unfold Rmax; destruct (Rle_dec _ _); lra).
  split; [reflexivity |]. split; [reflexivity |].
  split; [exists (Rmax 0 (1 - 3 * dt)); auto |].
  split; [| split; [| split]].
  - rewrite vlength_vscale, Rabs_right by lra.
    pose proof (vlength_nonneg (Effects.vel p)). nra.
  - intros H. rewrite vlength_vscale.
    replace (Rmax 0 (1 - 3 * dt)) with 0 by (unfold Rmax; destruct (Rle_dec _ _); lra).
    rewrite Rabs_R0. ring.
  - rewrite Rleb_true. split; intros; lra.
  - destruct (Rltb 0 (Effects.max_life p)) eqn:E; [| reflexivity].
    eexists. split; [reflexivity |]. split.
    + apply py_int_between. unfold Rmax, Rmin.
      repeat destruct (Rle_dec _ _); simpl; lra.
    + rewrite Rleb_true. intros Hl. to_R.
      replace (Rmax 0 (Rmin 1 ((Effects.lifetime p - dt) / Effects.max_life p))) with 0.
      * rewrite Rmult_0_r. apply py_int_zero.
      * assert (Hq : (Effects.lifetime p - dt) / Effects.max_life p <= 0).
        { pose proof (Rinv_0_lt_compat _ E) as Hi. unfold Rdiv. nra. }
        unfold Rmax, Rmin. repeat destruct (Rle_dec _ _); lra.
Qed.

(** The spark after a frame of half a second: it has stopped, and is still
    alive. *)
Lemma particle_slows_and_fades_witness :
  vlength (Effects.vel (fst (Effects.update Yard.spark (1 / 2)))) = 0 /\
  Effects.lifetime (fst (Effects.update Yard.spark (1 / 2))) = 8 / 10 - 1 / 2.
Proof.
  destruct (particle_slows_and_fades Yard.spark (1 / 2) ltac:(lra))
    as (_ & L & _ & _ & S & _).
  split; [apply S; lra | exact L].
Defined.
